(** * os-sdk: the gateway transport and its request/response correlation

    A shallow embedding of [src/types.ts], [src/error.ts], the correlation
    engine of [src/transport.ts] and the response handling of
    [OSClient.call] in [src/client.ts].

    The transport is an object mutated from socket callbacks, timers, user
    calls and resumed generators.  It is embedded as a record of its fields
    together with the pieces of the JavaScript runtime those callbacks close
    over (promises, timers, generator frames, sockets); every callback is a
    function from worlds to worlds. *)

From Stdlib Require Import String Ascii List ZArith NArith Lia Bool Arith.
From Stdlib Require Import DecimalString DecimalN.
Import ListNotations.
Open Scope string_scope.
Open Scope list_scope.

(* ================================================================== *)
(** * types.ts *)
(* ================================================================== *)

(** Payloads ([unknown], [Record<string, unknown>], [Uint8Array]) are opaque
    to the transport; they are kept as their JSON text. *)
Definition JsValue := string.

Record Request := mkRequest {
  request_id : string;
  call : string;
  args : list JsValue
}.

Inductive ResponseOp :=
| OpOk | OpError | OpDone | OpRedirect
| OpItem | OpData | OpEvent | OpProgress.

Inductive Response :=
| OkResponse (id : string) (data : option JsValue)
| ErrorResponse (id : string) (code : string) (message : string)
| DoneResponse (id : string)
| RedirectResponse (id : string) (data : option JsValue)
| ItemResponse (id : string) (data : JsValue)
| DataResponse (id : string) (bytes : JsValue)
| EventResponse (id : string) (data : option JsValue)
| ProgressResponse (id : string) (data : option JsValue).

Definition response_id (r : Response) : string :=
  match r with
  | OkResponse i _ | ErrorResponse i _ _ | DoneResponse i
  | RedirectResponse i _ | ItemResponse i _ | DataResponse i _
  | EventResponse i _ | ProgressResponse i _ => i
  end.

Definition op (r : Response) : ResponseOp :=
  match r with
  | OkResponse _ _ => OpOk
  | ErrorResponse _ _ _ => OpError
  | DoneResponse _ => OpDone
  | RedirectResponse _ _ => OpRedirect
  | ItemResponse _ _ => OpItem
  | DataResponse _ _ => OpData
  | EventResponse _ _ => OpEvent
  | ProgressResponse _ _ => OpProgress
  end.

Definition op_eqb (a b : ResponseOp) : bool :=
  match a, b with
  | OpOk, OpOk | OpError, OpError | OpDone, OpDone | OpRedirect, OpRedirect
  | OpItem, OpItem | OpData, OpData | OpEvent, OpEvent
  | OpProgress, OpProgress => true
  | _, _ => false
  end.

Definition op_name (o : ResponseOp) : string :=
  match o with
  | OpOk => "ok" | OpError => "error" | OpDone => "done"
  | OpRedirect => "redirect" | OpItem => "item" | OpData => "data"
  | OpEvent => "event" | OpProgress => "progress"
  end.

Definition isTerminal (response : Response) : bool :=
  op_eqb (op response) OpOk ||
  op_eqb (op response) OpError ||
  op_eqb (op response) OpDone ||
  op_eqb (op response) OpRedirect.

Definition isError (response : Response) : bool := op_eqb (op response) OpError.
Definition isOk (response : Response) : bool := op_eqb (op response) OpOk.
Definition isItem (response : Response) : bool := op_eqb (op response) OpItem.
Definition isData (response : Response) : bool := op_eqb (op response) OpData.

Record ConnectOptions := mkConnectOptions {
  socketPath : option string;
  timeout : option N
}.

Inductive ConnectionState := Disconnected | Connecting | Connected.

Definition state_eqb (a b : ConnectionState) : bool :=
  match a, b with
  | Disconnected, Disconnected | Connecting, Connecting
  | Connected, Connected => true
  | _, _ => false
  end.

(* ================================================================== *)
(** * error.ts *)
(* ================================================================== *)

(** The three error classes of the SDK, and [ThrownError] for any other
    exception that crosses the transport unchanged (a throwing
    [socket.write] inside [stream]). *)
Inductive JsError :=
| SyscallError (code : string) (message : string) (syscall : option string)
| ConnectionError (code : string) (message : string)
| TimeoutError (message : string)
| ThrownError (message : string).

(** [SyscallError.fromResponse]; it is only called on error responses. *)
Definition fromResponse (response : Response) (syscall : option string)
  : JsError :=
  match response with
  | ErrorResponse _ code message => SyscallError code message syscall
  | _ => SyscallError "" "" syscall
  end.

(** Failures raised by the transport itself, as opposed to failures the
    remote side reports. *)
Definition is_transport_error (e : JsError) : bool :=
  match e with
  | ConnectionError _ _ | TimeoutError _ => true
  | _ => false
  end.

(* ================================================================== *)
(** * JavaScript values the transport relies on *)
(* ================================================================== *)

(** [String(n)] for a non-negative integer below 1e21: its decimal digits. *)
Definition String_of_number (n : N) : string :=
  NilEmpty.string_of_uint (N.to_uint n).

(** [nextId] is a JavaScript number, that is an IEEE-754 double.  Adding 1
    is exact up to 2^53; at 2^53 the sum 2^53 + 1 is not representable and
    rounds (ties to even) back to 2^53. *)
Definition MAX_EXACT : N := 9007199254740992.

Definition number_succ (n : N) : N :=
  if (n <? MAX_EXACT)%N then (n + 1)%N else n.

(** Promises: settled at most once. *)
Inductive Promise (A : Type) :=
| Pending
| Fulfilled (v : A)
| Rejected (e : JsError).
Arguments Pending {A}.
Arguments Fulfilled {A} v.
Arguments Rejected {A} e.

Fixpoint list_set {A} (n : nat) (x : A) (l : list A) : list A :=
  match l, n with
  | [], _ => []
  | _ :: t, O => x :: t
  | h :: t, S n' => h :: list_set n' x t
  end.

Definition settle {A} (p : nat) (v : Promise A) (ps : list (Promise A))
  : list (Promise A) :=
  match nth_error ps p with
  | Some Pending => list_set p v ps
  | _ => ps
  end.

(** ** [Map<string, V>]: insertion ordered, one entry per key *)

Section JsMap.
Context {V : Type}.

Fixpoint Map_get (k : string) (m : list (string * V)) : option V :=
  match m with
  | [] => None
  | (k', v) :: t => if String.eqb k k' then Some v else Map_get k t
  end.

(** [set] keeps the position of an existing key and appends a new one. *)
Fixpoint Map_set (k : string) (v : V) (m : list (string * V))
  : list (string * V) :=
  match m with
  | [] => [(k, v)]
  | (k', v') :: t =>
      if String.eqb k k' then (k, v) :: t else (k', v') :: Map_set k v t
  end.

Definition Map_delete (k : string) (m : list (string * V))
  : list (string * V) :=
  filter (fun kv => negb (String.eqb k (fst kv))) m.
End JsMap.

(** ** Strings: [indexOf], [slice], [trim] *)

Definition newline : ascii := "010"%char.

(** [s.indexOf(c)], -1 when absent. *)
Fixpoint indexOf (s : string) (c : ascii) : Z :=
  match s with
  | EmptyString => (-1)%Z
  | String a t =>
      if Ascii.eqb a c then 0%Z
      else let i := indexOf t c in
           if (i =? -1)%Z then (-1)%Z else (i + 1)%Z
  end.

(** [s.slice(a, b)] and [s.slice(a)] for indices within the string. *)
Definition slice (s : string) (a b : Z) : string :=
  substring (Z.to_nat a) (Z.to_nat (b - a)) s.

Definition slice_from (s : string) (a : Z) : string :=
  substring (Z.to_nat a) (String.length s - Z.to_nat a) s.

(** White space and line terminators removed by [trim], among the code
    units a [string] can hold: TAB, LF, VT, FF, CR, SP and NBSP. *)
Definition is_whitespace (c : ascii) : bool :=
  let n := nat_of_ascii c in
  (((9 <=? n) && (n <=? 13)) || (n =? 32) || (n =? 160))%nat.

Fixpoint trimStart (s : string) : string :=
  match s with
  | EmptyString => EmptyString
  | String a t => if is_whitespace a then trimStart t else s
  end.

Fixpoint trimEnd (s : string) : string :=
  match s with
  | EmptyString => EmptyString
  | String a t =>
      match trimEnd t with
      | EmptyString => if is_whitespace a then EmptyString
                       else String a EmptyString
      | t' => String a t'
      end
  end.

Definition trim (s : string) : string := trimEnd (trimStart s).

(** Truthiness of a string: non-empty. *)
Definition truthy (s : string) : bool :=
  match s with EmptyString => false | _ => true end.

(* ================================================================== *)
(** * transport.ts: state *)
(* ================================================================== *)

Definition DEFAULT_SOCKET_PATH : string := "/tmp/monk.sock".
Definition DEFAULT_TIMEOUT : N := 5000.
Definition DEFAULT_SEND_TIMEOUT : N := 30000.

(** [socket.data]. *)
Record SocketData := mkSocketData { buffer : string }.

(** A [PendingRequest] holds two closures, [resolve] and [reject].  [send]
    installs the two settling functions of its promise; [stream] installs a
    no-op [resolve] and its [errorHandler].  [sink] names which pair the
    entry holds: the promise, or the generator frame of the stream. *)
Inductive Sink :=
| BatchSink (p : nat)
| StreamSink (s : nat).

Record PendingRequest := mkPending {
  sink : Sink;
  responses : list Response;
  timer : option nat
}.

(** The value of the property [this.onResponse].  It starts as the method
    of the class; every running [stream] replaces it by a closure that
    intercepts one id and passes everything else to the value it found. *)
Inductive Handler :=
| OnResponseMethod
| StreamOverride (s : nat) (id : string) (originalOnResponse : Handler).

Inductive IteratorResult :=
| IterValue (value : Response)
| IterDone.

(** Where the body of the async generator [stream] is suspended. *)
Inductive GenState :=
| NotStarted
| AwaitingResolver
| Resuming (result : IteratorResult)
| AtYield (response : Response)
| Completed (thrown : option JsError).

(** The frame of one [stream] call: its local variables [queue],
    [resolver] (is it non-null), [error], [done], [originalOnResponse],
    the suspension point, and what its consumer has received so far. *)
Record StreamFrame := mkStream {
  s_request : Request;
  queue : list Response;
  resolver : bool;
  s_error : option JsError;
  s_done : bool;
  s_original : Handler;
  gen : GenState;
  yielded : list Response
}.

(** What an armed timer does when it fires. *)
Inductive TimerAction :=
| SendTimer (id : string) (p : nat) (ms : N)
| ConnectTimer (attempt : nat).

(** One [connectWithTimeout] call: the promise it returns, its timer and
    the socket [Bun.connect] is opening for it.  The [connect] call that
    awaits this promise continues in the microtask that follows its
    settling, before any other callback runs, so the continuation is merged
    into the settling. *)
Record Attempt := mkAttempt {
  a_path : string;
  a_timeout : N;
  a_timer : nat;
  a_promise : Promise unit;
  a_data : SocketData
}.

(** Calls into the socket layer. *)
Inductive Effect :=
| BunConnect (attempt : nat) (path : string)
| SocketWrite (sock : nat) (line : string)
| SocketEnd (sock : nat).

(** Whether [socket.write] returns or throws is decided by the socket. *)
Inductive WriteOutcome :=
| WriteOk
| WriteThrows (message : string).

Record World := mkWorld {
  (* fields of the Transport instance *)
  state : ConnectionState;
  socket : option nat;
  pending : list (string * PendingRequest);
  nextId : N;
  onResponse_prop : Handler;
  (* runtime objects its closures refer to *)
  promises : list (Promise (list Response));
  timers : list (nat * TimerAction);
  next_timer : nat;
  streams : list StreamFrame;
  attempts : list Attempt;
  trace : list Effect
}.

(** [new Transport()]. *)
Definition initial : World :=
  mkWorld Disconnected None [] 1 OnResponseMethod [] [] 0 [] [] [].

Definition set_state (x : ConnectionState) (w : World) : World :=
  mkWorld x (socket w) (pending w) (nextId w) (onResponse_prop w)
          (promises w) (timers w) (next_timer w) (streams w) (attempts w)
          (trace w).
Definition set_socket (x : option nat) (w : World) : World :=
  mkWorld (state w) x (pending w) (nextId w) (onResponse_prop w)
          (promises w) (timers w) (next_timer w) (streams w) (attempts w)
          (trace w).
Definition set_pending (x : list (string * PendingRequest)) (w : World)
  : World :=
  mkWorld (state w) (socket w) x (nextId w) (onResponse_prop w)
          (promises w) (timers w) (next_timer w) (streams w) (attempts w)
          (trace w).
Definition set_nextId (x : N) (w : World) : World :=
  mkWorld (state w) (socket w) (pending w) x (onResponse_prop w)
          (promises w) (timers w) (next_timer w) (streams w) (attempts w)
          (trace w).
Definition set_onResponse (x : Handler) (w : World) : World :=
  mkWorld (state w) (socket w) (pending w) (nextId w) x
          (promises w) (timers w) (next_timer w) (streams w) (attempts w)
          (trace w).
Definition set_promises (x : list (Promise (list Response))) (w : World)
  : World :=
  mkWorld (state w) (socket w) (pending w) (nextId w) (onResponse_prop w)
          x (timers w) (next_timer w) (streams w) (attempts w) (trace w).
Definition set_timers (x : list (nat * TimerAction)) (w : World) : World :=
  mkWorld (state w) (socket w) (pending w) (nextId w) (onResponse_prop w)
          (promises w) x (next_timer w) (streams w) (attempts w) (trace w).
Definition set_next_timer (x : nat) (w : World) : World :=
  mkWorld (state w) (socket w) (pending w) (nextId w) (onResponse_prop w)
          (promises w) (timers w) x (streams w) (attempts w) (trace w).
Definition set_streams (x : list StreamFrame) (w : World) : World :=
  mkWorld (state w) (socket w) (pending w) (nextId w) (onResponse_prop w)
          (promises w) (timers w) (next_timer w) x (attempts w) (trace w).
Definition set_attempts (x : list Attempt) (w : World) : World :=
  mkWorld (state w) (socket w) (pending w) (nextId w) (onResponse_prop w)
          (promises w) (timers w) (next_timer w) (streams w) x (trace w).
Definition emit (e : Effect) (w : World) : World :=
  mkWorld (state w) (socket w) (pending w) (nextId w) (onResponse_prop w)
          (promises w) (timers w) (next_timer w) (streams w) (attempts w)
          (trace w ++ [e]).

(** ** Runtime primitives *)

Definition promise_of (p : nat) (w : World)
  : option (Promise (list Response)) :=
  nth_error (promises w) p.

Definition promise_resolve (p : nat) (v : list Response) (w : World) : World :=
  set_promises (settle p (Fulfilled v) (promises w)) w.

Definition promise_reject (p : nat) (e : JsError) (w : World) : World :=
  set_promises (settle p (Rejected e) (promises w)) w.

Fixpoint timer_lookup (t : nat) (l : list (nat * TimerAction))
  : option TimerAction :=
  match l with
  | [] => None
  | (t', a) :: r => if Nat.eqb t t' then Some a else timer_lookup t r
  end.

Definition clearTimeout (t : nat) (w : World) : World :=
  set_timers (filter (fun ta => negb (Nat.eqb t (fst ta))) (timers w)) w.

Definition clear_timer (t : option nat) (w : World) : World :=
  match t with
  | Some t => clearTimeout t w
  | None => w
  end.

(** [setTimeout(action, ms)]: the handle is fresh. *)
Definition setTimeout (a : TimerAction) (w : World) : nat * World :=
  (next_timer w,
   set_next_timer (S (next_timer w))
     (set_timers (timers w ++ [(next_timer w, a)]) w)).

Definition update_stream (s : nat) (f : StreamFrame -> StreamFrame)
  (w : World) : World :=
  match nth_error (streams w) s with
  | Some fr => set_streams (list_set s (f fr) (streams w)) w
  | None => w
  end.

Definition update_attempt (a : nat) (f : Attempt -> Attempt) (w : World)
  : World :=
  match nth_error (attempts w) a with
  | Some at_ => set_attempts (list_set a (f at_) (attempts w)) w
  | None => w
  end.

(* ================================================================== *)
(** * transport.ts: the Transport class *)
(* ================================================================== *)

Definition is_some {A} (o : option A) : bool :=
  match o with Some _ => true | None => false end.

(** ** Closures of [stream] *)

(** [handler], the closure that receives the responses of one stream. *)
Definition handler (response : Response) (fr : StreamFrame) : StreamFrame :=
  let done := if isTerminal response then true else s_done fr in
  if resolver fr then
    mkStream (s_request fr) (queue fr) false (s_error fr) done
             (s_original fr) (Resuming (IterValue response)) (yielded fr)
  else
    mkStream (s_request fr) (queue fr ++ [response]) false (s_error fr) done
             (s_original fr) (gen fr) (yielded fr).

(** [errorHandler], installed as the [reject] of the stream's entry. *)
Definition errorHandler (err : JsError) (fr : StreamFrame) : StreamFrame :=
  if resolver fr then
    mkStream (s_request fr) (queue fr) false (Some err) (s_done fr)
             (s_original fr) (Resuming IterDone) (yielded fr)
  else
    mkStream (s_request fr) (queue fr) false (Some err) (s_done fr)
             (s_original fr) (gen fr) (yielded fr).

(** [pending.resolve(responses)] and [pending.reject(error)]. *)
Definition resolve_entry (e : PendingRequest) (rs : list Response)
  (w : World) : World :=
  match sink e with
  | BatchSink p => promise_resolve p rs w
  | StreamSink _ => w
  end.

Definition reject_entry (e : PendingRequest) (err : JsError) (w : World)
  : World :=
  match sink e with
  | BatchSink p => promise_reject p err w
  | StreamSink s => update_stream s (errorHandler err) w
  end.

(** ** Accessors *)

Definition getState (w : World) : ConnectionState := state w.

Definition isConnected (w : World) : bool := state_eqb (state w) Connected.

Definition generateId (w : World) : string * World :=
  (String_of_number (nextId w), set_nextId (number_succ (nextId w)) w).

(** ** Connection lifecycle *)

Definition or_default {A} (o : option A) (d : A) : A :=
  match o with Some x => x | None => d end.

(** [connect] up to its [await], with [connectWithTimeout] up to the call
    of [Bun.connect].  It returns the error thrown at once, or the attempt
    it is now waiting for. *)
Definition connect (options : ConnectOptions) (w : World)
  : World * (JsError + nat) :=
  if negb (state_eqb (state w) Disconnected) then
    (w, inl (ConnectionError "EISCONN" "Already connected or connecting"))
  else
    let path := or_default (socketPath options) DEFAULT_SOCKET_PATH in
    let ms := or_default (timeout options) DEFAULT_TIMEOUT in
    let w1 := set_state Connecting w in
    let a := length (attempts w1) in
    let '(t, w2) := setTimeout (ConnectTimer a) w1 in
    let w3 := set_attempts
                (attempts w2 ++ [mkAttempt path ms t Pending (mkSocketData "")])
                w2 in
    (emit (BunConnect a path) w3, inr a).

(** The promise of attempt [a] is resolved; when this settles it, the
    awaiting [connect] continues with [this.state = 'connected']. *)
Definition attempt_resolve (a : nat) (w : World) : World :=
  match nth_error (attempts w) a with
  | Some at_ =>
      match a_promise at_ with
      | Pending =>
          set_state Connected
            (update_attempt a
               (fun x => mkAttempt (a_path x) (a_timeout x) (a_timer x)
                                   (Fulfilled tt) (a_data x)) w)
      | _ => w
      end
  | None => w
  end.

(** The promise of attempt [a] is rejected; when this settles it, the
    [catch] of the awaiting [connect] sets [this.state = 'disconnected']
    and rethrows. *)
Definition attempt_reject (a : nat) (err : JsError) (w : World) : World :=
  match nth_error (attempts w) a with
  | Some at_ =>
      match a_promise at_ with
      | Pending =>
          set_state Disconnected
            (update_attempt a
               (fun x => mkAttempt (a_path x) (a_timeout x) (a_timer x)
                                   (Rejected err) (a_data x)) w)
      | _ => w
      end
  | None => w
  end.

Definition attempt_timer (a : nat) (w : World) : option nat :=
  option_map a_timer (nth_error (attempts w) a).

(** The [open] callback of the socket of attempt [a]. *)
Definition socket_open (a : nat) (w : World) : World :=
  attempt_resolve a (set_socket (Some a) (clear_timer (attempt_timer a w) w)).

(** The [error] and [connectError] callbacks and the [catch] of
    [Bun.connect]: the same three statements. *)
Definition socket_error (a : nat) (message : string) (w : World) : World :=
  attempt_reject a (ConnectionError "ECONNREFUSED" message)
    (clear_timer (attempt_timer a w) w).

(** The loop shared by [close] and [onClose]: every entry of the map, in
    insertion order, has its timer cleared, is rejected and is deleted. *)
Definition reject_one (w : World) (kv : string * PendingRequest) : World :=
  let w1 := clear_timer (timer (snd kv)) w in
  let w2 := reject_entry (snd kv)
              (ConnectionError "ECONNRESET" "Connection closed") w1 in
  set_pending (Map_delete (fst kv) (pending w2)) w2.

Definition reject_all (w : World) : World :=
  fold_left reject_one (pending w) w.

Definition close (w : World) : World :=
  let w1 := match socket w with
            | Some s => set_socket None (emit (SocketEnd s) w)
            | None => w
            end in
  reject_all (set_state Disconnected w1).

Definition onClose (w : World) : World :=
  reject_all (set_state Disconnected (set_socket None w)).

(** ** Dispatch *)

(** The method [onResponse]. *)
Definition onResponse (response : Response) (w : World) : World :=
  match Map_get (response_id response) (pending w) with
  | None => w
  | Some e =>
      let e' := mkPending (sink e) (responses e ++ [response]) (timer e) in
      let w1 := set_pending (Map_set (response_id response) e' (pending w)) w in
      if isTerminal response then
        let w2 := clear_timer (timer e') w1 in
        let w3 := set_pending
                    (Map_delete (response_id response) (pending w2)) w2 in
        resolve_entry e' (responses e') w3
      else w1
  end.

(** Calling a value of [this.onResponse]. *)
Fixpoint call_handler (h : Handler) (response : Response) (w : World)
  : World :=
  match h with
  | OnResponseMethod => onResponse response w
  | StreamOverride s id original =>
      if String.eqb (response_id response) id
      then update_stream s (handler response) w
      else call_handler original response w
  end.

(** [this.onResponse(response)]. *)
Definition dispatch (response : Response) (w : World) : World :=
  call_handler (onResponse_prop w) response w.

(** ** Timers *)

(** The text of a timeout error; delays are whole milliseconds. *)
Definition timeout_message (what : string) (ms : N) : string :=
  what ++ " timed out after " ++ String_of_number ms ++ "ms".

(** Timer [t] fires: nothing if it was cleared, else its callback runs. *)
Definition fire (t : nat) (w : World) : World :=
  match timer_lookup t (timers w) with
  | None => w
  | Some act =>
      let w0 := clearTimeout t w in
      match act with
      | SendTimer id p ms =>
          let w1 := set_pending (Map_delete id (pending w0)) w0 in
          promise_reject p
            (TimeoutError (timeout_message ("Request " ++ id) ms)) w1
      | ConnectTimer a =>
          match nth_error (attempts w0) a with
          | Some at_ =>
              attempt_reject a
                (TimeoutError
                   (timeout_message ("Connection to " ++ a_path at_)
                                    (a_timeout at_))) w0
          | None => w0
          end
      end
  end.

(** ** Send, stream and receive *)

Section WithJSON.

(** [JSON.stringify] on requests, and [JSON.parse] followed by the cast to
    [Response]: [None] when parsing throws [SyntaxError] or yields a value
    whose use as a response throws, both caught by [onData]. *)
Variable stringify : Request -> string.
Variable parse : string -> option Response.

Definition frame_of (request : Request) : string :=
  stringify request ++ String newline EmptyString.

Definition not_connected (w : World) : bool :=
  negb (is_some (socket w)) || negb (state_eqb (state w) Connected).

(** [send]: the error of the state check, or the promise it returns. *)
Definition send (request : Request) (ms : N) (wr : WriteOutcome) (w : World)
  : World * (JsError + nat) :=
  if not_connected w then
    (w, inl (ConnectionError "ENOTCONN" "Not connected"))
  else
    let p := length (promises w) in
    let w1 := set_promises (promises w ++ [Pending]) w in
    let '(t, w2) := setTimeout (SendTimer (request_id request) p ms) w1 in
    let e := mkPending (BatchSink p) [] (Some t) in
    let w3 := set_pending (Map_set (request_id request) e (pending w2)) w2 in
    match wr with
    | WriteOk =>
        (emit (SocketWrite (or_default (socket w3) 0) (frame_of request)) w3,
         inr p)
    | WriteThrows message =>
        let w4 := set_pending
                    (Map_delete (request_id request) (pending w3)) w3 in
        let w5 := clear_timer (timer e) w4 in
        (promise_reject p (ConnectionError "EIO" message) w5, inr p)
    end.

(** Calling [stream] creates the generator object; nothing runs yet. *)
Definition stream (request : Request) (w : World) : World * nat :=
  (set_streams
     (streams w ++
        [mkStream request [] false None false OnResponseMethod NotStarted []])
     w,
   length (streams w)).

Definition set_gen (g : GenState) (fr : StreamFrame) : StreamFrame :=
  mkStream (s_request fr) (queue fr) (resolver fr) (s_error fr) (s_done fr)
           (s_original fr) g (yielded fr).

Definition do_yield (response : Response) (fr : StreamFrame) : StreamFrame :=
  mkStream (s_request fr) (queue fr) (resolver fr) (s_error fr) (s_done fr)
           (s_original fr) (AtYield response) (yielded fr ++ [response]).

(** The [finally] block, then completion with [thrown]. *)
Definition run_finally (s : nat) (thrown : option JsError) (w : World)
  : World :=
  match nth_error (streams w) s with
  | None => w
  | Some fr =>
      let w1 := set_onResponse (s_original fr) w in
      let w2 := set_pending
                  (Map_delete (request_id (s_request fr)) (pending w1)) w1 in
      update_stream s (set_gen (Completed thrown)) w2
  end.

(** After the loop: [if (error) throw error], then [finally]. *)
Definition leave_loop (s : nat) (w : World) : World :=
  match nth_error (streams w) s with
  | None => w
  | Some fr => run_finally s (s_error fr) w
  end.

(** The head of [while (!done && !error)], up to the next suspension. *)
Definition loop_head (s : nat) (w : World) : World :=
  match nth_error (streams w) s with
  | None => w
  | Some fr =>
      if negb (s_done fr) && negb (is_some (s_error fr)) then
        match queue fr with
        | response :: rest =>
            update_stream s
              (fun fr => do_yield response
                 (mkStream (s_request fr) rest (resolver fr) (s_error fr)
                           (s_done fr) (s_original fr) (gen fr) (yielded fr)))
              w
        | [] =>
            update_stream s
              (fun fr => mkStream (s_request fr) (queue fr) true (s_error fr)
                           (s_done fr) (s_original fr) AwaitingResolver
                           (yielded fr))
              w
        end
      else leave_loop s w
  end.

(** The first [next()]: the body from its start to its first suspension. *)
Definition start (s : nat) (wr : WriteOutcome) (w : World) : World :=
  match nth_error (streams w) s with
  | None => w
  | Some fr =>
      if not_connected w then
        update_stream s
          (set_gen (Completed
                      (Some (ConnectionError "ENOTCONN" "Not connected")))) w
      else
        let id := request_id (s_request fr) in
        let w1 := set_pending
                    (Map_set id (mkPending (StreamSink s) [] None)
                             (pending w)) w in
        let original := onResponse_prop w1 in
        let w2 := update_stream s
                    (fun fr => mkStream (s_request fr) [] false None false
                                 original (gen fr) (yielded fr)) w1 in
        let w3 := set_onResponse (StreamOverride s id original) w2 in
        match wr with
        | WriteOk =>
            loop_head s
              (emit (SocketWrite (or_default (socket w3) 0)
                                 (frame_of (s_request fr))) w3)
        | WriteThrows message =>
            run_finally s (Some (ThrownError message)) w3
        end
  end.

(** The consumer calls [next()] on a generator that is not running, as
    [for await] does: it pulls again only after it has received a value. *)
Definition next (s : nat) (wr : WriteOutcome) (w : World) : World :=
  match nth_error (streams w) s with
  | None => w
  | Some fr =>
      match gen fr with
      | NotStarted => start s wr w
      | AtYield response =>
          if isTerminal response then leave_loop s w else loop_head s w
      | _ => w
      end
  end.

(** The microtask that continues the body after its [await]. *)
Definition resume (s : nat) (w : World) : World :=
  match nth_error (streams w) s with
  | None => w
  | Some fr =>
      match gen fr with
      | Resuming IterDone => leave_loop s w
      | Resuming (IterValue value) => update_stream s (do_yield value) w
      | _ => w
      end
  end.

(** The consumer abandons the iteration with [return()]. *)
Definition gen_return (s : nat) (w : World) : World :=
  match nth_error (streams w) s with
  | None => w
  | Some fr =>
      match gen fr with
      | NotStarted => update_stream s (set_gen (Completed None)) w
      | AtYield _ => run_finally s None w
      | _ => w
      end
  end.

(** The [while] loop of [onData].  Every turn removes at least the
    delimiter from the buffer; [fuel] bounds the number of turns and
    [None] means it ran out. *)
Fixpoint onData_loop (fuel : nat) (sd : SocketData) (w : World)
  : option (SocketData * World) :=
  match fuel with
  | O => None
  | S fuel' =>
      let newlineIdx := indexOf (buffer sd) newline in
      if (newlineIdx =? -1)%Z then Some (sd, w)
      else
        let line := slice (buffer sd) 0 newlineIdx in
        let sd' := mkSocketData (slice_from (buffer sd) (newlineIdx + 1)) in
        let w' := if truthy (trim line) then
                    match parse line with
                    | Some response => dispatch response w
                    | None => w
                    end
                  else w in
        onData_loop fuel' sd' w'
  end.

(** [onData(socket, data)], with [data.toString()] given as [chunk]. *)
Definition onData (sd : SocketData) (chunk : string) (w : World)
  : option (SocketData * World) :=
  let sd1 := mkSocketData (buffer sd ++ chunk) in
  onData_loop (S (String.length (buffer sd1))) sd1 w.

(** The [data] callback of the socket of attempt [a]. *)
Definition socket_data (a : nat) (chunk : string) (w : World) : World :=
  match nth_error (attempts w) a with
  | None => w
  | Some at_ =>
      match onData (a_data at_) chunk w with
      | Some (sd, w') =>
          update_attempt a
            (fun x => mkAttempt (a_path x) (a_timeout x) (a_timer x)
                                (a_promise x) sd) w'
      | None => w
      end
  end.

(** ** Everything that can happen to a transport *)

Inductive Event :=
| EvGenerateId
| EvConnect (options : ConnectOptions)
| EvClose
| EvSend (request : Request) (ms : N) (wr : WriteOutcome)
| EvStream (request : Request)
| EvNext (s : nat) (wr : WriteOutcome)
| EvReturn (s : nat)
| EvResume (s : nat)
| EvTimer (t : nat)
| EvSocketOpen (a : nat)
| EvSocketData (a : nat) (chunk : string)
| EvSocketClose (a : nat)
| EvSocketError (a : nat) (message : string).

(** Socket callbacks only come from sockets [Bun.connect] has created. *)
Definition step (w : World) (ev : Event) : World :=
  match ev with
  | EvGenerateId => snd (generateId w)
  | EvConnect options => fst (connect options w)
  | EvClose => close w
  | EvSend request ms wr => fst (send request ms wr w)
  | EvStream request => fst (stream request w)
  | EvNext s wr => next s wr w
  | EvReturn s => gen_return s w
  | EvResume s => resume s w
  | EvTimer t => fire t w
  | EvSocketOpen a =>
      if (a <? length (attempts w))%nat then socket_open a w else w
  | EvSocketData a chunk => socket_data a chunk w
  | EvSocketClose a =>
      if (a <? length (attempts w))%nat then onClose w else w
  | EvSocketError a message =>
      if (a <? length (attempts w))%nat then socket_error a message w else w
  end.

Definition run (w : World) (evs : list Event) : World :=
  fold_left step evs w.

Definition reachable (w : World) : Prop :=
  exists evs, w = run initial evs.

End WithJSON.

(* ================================================================== *)
(** * client.ts: OSClient.call *)
(* ================================================================== *)

(** What [call] does with the list its [await transport.send(...)]
    delivers: the error it throws or the data it returns. *)
Definition call_result (name : string) (responses : list Response)
  : JsError + JsValue :=
  match responses with
  | [] => inl (SyscallError "EIO" "No response received" (Some name))
  | response :: _ =>
      if isError response then inl (fromResponse response (Some name))
      else if isOk response then
        match response with
        | OkResponse _ (Some d) => inr d
        | _ => inr "{}"
        end
      else if isItem response then
        match response with
        | ItemResponse _ d => inr d
        | _ => inr "{}"
        end
      else inl (SyscallError "EIO"
                  ("Unexpected response op: " ++ op_name (op response))
                  (Some name))
  end.

(* ================================================================== *)
(** * Vocabulary of the properties *)
(* ================================================================== *)

(** [h] holds an override that intercepts the responses of [id]. *)
Fixpoint intercepts (id : string) (h : Handler) : bool :=
  match h with
  | OnResponseMethod => false
  | StreamOverride _ id' original =>
      String.eqb id id' || intercepts id original
  end.

(** Dispatching a list of responses, first to last. *)
Definition deliver (msgs : list Response) (w : World) : World :=
  fold_left (fun w r => dispatch r w) msgs w.

(** The responses that carry [id]. *)
Definition for_id (id : string) (msgs : list Response) : list Response :=
  filter (fun r => String.eqb (response_id r) id) msgs.

(** A list up to and including its first terminal response. *)
Fixpoint upto_terminal (msgs : list Response) : list Response :=
  match msgs with
  | [] => []
  | r :: rest => if isTerminal r then [r] else r :: upto_terminal rest
  end.

(** Batch promises and timers named by the routing table. *)
Definition batch_promise (kv : string * PendingRequest) : list nat :=
  match sink (snd kv) with
  | BatchSink p => [p]
  | StreamSink _ => []
  end.

Definition entry_timer (kv : string * PendingRequest) : list nat :=
  match timer (snd kv) with
  | Some t => [t]
  | None => []
  end.

(** Handles are allocated by counters, so a world built by the transport
    names no promise and no timer beyond them; and a [Map] holds a key
    once. *)
Definition well_formed (w : World) : Prop :=
  Forall (fun p => p < length (promises w)) (flat_map batch_promise (pending w))
  /\ Forall (fun t => t < next_timer w) (flat_map entry_timer (pending w))
  /\ Forall (fun ta => fst ta < next_timer w) (timers w)
  /\ NoDup (map fst (pending w)).

(** The waiter that [send] registered under [id] is still in place: its
    entry holds promise [p], timer [t] and the responses [acc] collected so
    far; the promise is pending and the timer armed; no other entry names
    that promise or that timer, and no stream intercepts [id]. *)
Definition waiting (id : string) (p t : nat) (ms : N) (acc : list Response)
  (w : World) : Prop :=
  Map_get id (pending w) = Some (mkPending (BatchSink p) acc (Some t))
  /\ promise_of p w = Some Pending
  /\ timer_lookup t (timers w) = Some (SendTimer id p ms)
  /\ (forall k e, k <> id -> Map_get k (pending w) = Some e ->
                  sink e <> BatchSink p /\ timer e <> Some t)
  /\ intercepts id (onResponse_prop w) = false.

(** No entry of the routing table leads to promise [p]. *)
Definition unreferenced (p : nat) (w : World) : Prop :=
  forall k e, In (k, e) (pending w) -> sink e <> BatchSink p.

(** The failure [close] and [onClose] hand to every waiter. *)
Definition connection_closed : JsError :=
  ConnectionError "ECONNRESET" "Connection closed".

(** ** The invariant of the routing table

    What every transport built from [new Transport()] satisfies, stated on
    the routing table, the promises, the armed timers and the timer
    counter.  With [prot = Some (p1, t1)] it also says that promise [p1] is
    pending, that the table does not lead to it, and that no timer but
    [t1] rejects it. *)
Record Inv4 (prot : option (nat * nat))
  (pd : list (string * PendingRequest))
  (pr : list (Promise (list Response)))
  (tm : list (nat * TimerAction)) (nt : nat) : Prop := mkInv4 {
  inv_timer_bound :
    forall k e t, In (k, e) pd -> timer e = Some t -> t < nt;
  inv_timers_bound :
    forall t a, In (t, a) tm -> t < nt;
  inv_keys :
    NoDup (map fst pd);
  inv_pending :
    forall k e p, In (k, e) pd -> sink e = BatchSink p ->
                  nth_error pr p = Some Pending;
  inv_owner :
    forall k e k' e' p,
      In (k, e) pd -> In (k', e') pd ->
      sink e = BatchSink p -> sink e' = BatchSink p -> k = k';
  inv_timer_key :
    forall t id q ms k e,
      In (t, SendTimer id q ms) tm -> In (k, e) pd ->
      sink e = BatchSink q -> k = id;
  inv_timer_promise :
    forall t id q ms, In (t, SendTimer id q ms) tm -> q < length pr;
  inv_timer_unique :
    forall t id q ms t' id' ms',
      In (t, SendTimer id q ms) tm -> In (t', SendTimer id' q ms') tm ->
      t = t';
  inv_protected :
    forall p1 t1,
      prot = Some (p1, t1) ->
      nth_error pr p1 = Some Pending
      /\ (forall k e, In (k, e) pd -> sink e <> BatchSink p1)
      /\ (forall t id ms, In (t, SendTimer id p1 ms) tm -> t = t1)
}.

Definition inv (prot : option (nat * nat)) (w : World) : Prop :=
  Inv4 prot (pending w) (promises w) (timers w) (next_timer w).

(** The events that leave [prot] alone: all but the firing of its timer. *)
Definition spares (prot : option (nat * nat)) (ev : Event) : Prop :=
  forall p1 t1, prot = Some (p1, t1) -> ev <> EvTimer t1.

(** ** Frames of a byte stream, as the specification words them *)

Fixpoint no_newline (s : string) : bool :=
  match s with
  | EmptyString => true
  | String a t => negb (Ascii.eqb a newline) && no_newline t
  end.

Fixpoint join_frames (frames : list string) : string :=
  match frames with
  | [] => EmptyString
  | f :: rest => f ++ String newline (join_frames rest)
  end.

Fixpoint blank (s : string) : bool :=
  match s with
  | EmptyString => true
  | String a t => is_whitespace a && blank t
  end.

(** The messages of a list of frames: blank frames are skipped and frames
    that do not parse are discarded. *)
Fixpoint messages (parse : string -> option Response) (frames : list string)
  : list Response :=
  match frames with
  | [] => []
  | f :: rest =>
      if blank f then messages parse rest
      else match parse f with
           | Some r => r :: messages parse rest
           | None => messages parse rest
           end
  end.

(** ** Successive [generateId] calls *)

Definition after_calls (k : N) (w : World) : World :=
  N.iter k (fun w => snd (generateId w)) w.

(** The id returned by the call that follows [k] earlier calls. *)
Definition id_of_call (k : N) (w : World) : string :=
  fst (generateId (after_calls k w)).

(** The ids handed out along a run, oldest first. *)
Section Ids.
Variable stringify : Request -> string.
Variable parse : string -> option Response.

Fixpoint ids_of_run (w : World) (evs : list Event) : list string :=
  match evs with
  | [] => []
  | EvGenerateId :: rest =>
      fst (generateId w) :: ids_of_run (snd (generateId w)) rest
  | ev :: rest => ids_of_run (step stringify parse w ev) rest
  end.

Definition is_generateId (ev : Event) : bool :=
  match ev with EvGenerateId => true | _ => false end.
End Ids.

(** ** A concrete wire for the examples *)

Definition dq : string := String (ascii_of_nat 34) EmptyString.

Definition json_field (k v : string) : string :=
  dq ++ k ++ dq ++ ":" ++ dq ++ v ++ dq.

(** Requests without arguments, as [JSON.stringify] renders them. *)
Definition demo_stringify (r : Request) : string :=
  "{" ++ json_field "id" (request_id r) ++ "," ++ json_field "call" (call r)
      ++ "," ++ dq ++ "args" ++ dq ++ ":[]}".

Definition frame_ok (id : string) : string :=
  "{" ++ json_field "id" id ++ "," ++ json_field "op" "ok" ++ "}".
Definition frame_done (id : string) : string :=
  "{" ++ json_field "id" id ++ "," ++ json_field "op" "done" ++ "}".
Definition frame_item (id d : string) : string :=
  "{" ++ json_field "id" id ++ "," ++ json_field "op" "item" ++ ","
      ++ dq ++ "data" ++ dq ++ ":" ++ d ++ "}".
Definition frame_error (id code message : string) : string :=
  "{" ++ json_field "id" id ++ "," ++ json_field "op" "error" ++ ","
      ++ json_field "code" code ++ "," ++ json_field "message" message ++ "}".

(** [JSON.parse] restricted to the frames the examples use. *)
Definition demo_table : list (string * Response) :=
  [ (frame_ok "1", OkResponse "1" None);
    (frame_ok "2", OkResponse "2" None);
    (frame_done "1", DoneResponse "1");
    (frame_item "1" "{}", ItemResponse "1" "{}");
    (frame_item "1" "[1]", ItemResponse "1" "[1]");
    (frame_item "1" "[2]", ItemResponse "1" "[2]");
    (frame_item "1" "[3]", ItemResponse "1" "[3]");
    (frame_error "1" "ENOENT" "not found",
     ErrorResponse "1" "ENOENT" "not found") ].

Definition demo_parse (line : string) : option Response :=
  Map_get line demo_table.

Definition nl : string := String newline EmptyString.

Definition ping (id : string) : Request := mkRequest id "ping" [].

(** A transport whose [connect] has completed on socket 0. *)
Definition connected0 : World :=
  run demo_stringify demo_parse initial
      [EvConnect (mkConnectOptions None None); EvSocketOpen 0].

(** Three items and the closing [done] of exchange 1, in one chunk. *)
Definition four_frames : string :=
  (frame_item "1" "[1]" ++ nl ++ frame_item "1" "[2]" ++ nl
   ++ frame_item "1" "[3]" ++ nl ++ frame_done "1" ++ nl)%string.

Definition four_messages : list Response :=
  [ItemResponse "1" "[1]"; ItemResponse "1" "[2]"; ItemResponse "1" "[3]";
   DoneResponse "1"].

(** [connected0] with [send({id: "1", call: "ping", args: []})] in flight:
    promise 0, timer 1. *)
Definition sent1 : World :=
  fst (send demo_stringify (ping "1") DEFAULT_SEND_TIMEOUT WriteOk connected0).

(** A [connect] with a 100 ms timeout whose timer has fired. *)
Definition timed_out : World :=
  run demo_stringify demo_parse initial
      [EvConnect (mkConnectOptions None (Some 100%N)); EvTimer 0].



(* ================================================================== *)
(** * client.ts: the calls built on the transport *)
(* ================================================================== *)


(** What the caller of [call] has once the promise of [send] is in state
    [p]: nothing yet, the rejection of [send], or the result of [call]. *)
Definition call_outcome (name : string)
  (p : option (Promise (list Response))) : option (JsError + JsValue) :=
  match p with
  | Some (Fulfilled responses) => Some (call_result name responses)
  | Some (Rejected e) => Some (inl e)
  | _ => None
  end.

(** [exists], given how its [stat] ended. *)
Definition exists_result (stat : JsError + JsValue) : JsError + bool :=
  match stat with
  | inr _ => inr true
  | inl (SyscallError code message syscall) =>
      if String.eqb code "ENOENT" then inr false
      else inl (SyscallError code message syscall)
  | inl err => inl err
  end.

Section Consumers.

(** [Buffer.from(bytes, 'base64')] as a value, and as its bytes. *)
Variable decode_value : JsValue -> JsValue.
Variable decode_bytes : JsValue -> list Byte.byte.

(** The body of the [for await] loop of [iterate] on one response: the
    error it throws, or the values it yields. *)
Definition iterate_one (name : string) (response : Response)
  : JsError + list JsValue :=
  if isError response then inl (fromResponse response (Some name))
  else
    inr ((if isItem response then
            match response with
            | ItemResponse _ d => [d]
            | _ => []
            end
          else [])
         ++ (if isData response then
               match response with
               | DataResponse _ b => [decode_value b]
               | _ => []
               end
             else [])).

(** [iterate] over a transport stream that yields [responses] and then ends
    as [ending] says: the values it yields and how it ends itself. *)
Fixpoint iterate (name : string) (responses : list Response)
  (ending : option JsError) : list JsValue * option JsError :=
  match responses with
  | [] => ([], ending)
  | response :: rest =>
      match iterate_one name response with
      | inl err => ([], Some err)
      | inr here =>
          let '(values, e) := iterate name rest ending in
          (here ++ values, e)
      end
  end.

(** [collect]: the array of everything [iterate] yields, unless it throws. *)
Definition collect (name : string) (responses : list Response)
  (ending : option JsError) : JsError + list JsValue :=
  match iterate name responses ending with
  | (values, None) => inr values
  | (_, Some err) => inl err
  end.

(** The [for await] loop of [read]: the chunks pushed, in order. *)
Fixpoint read_chunks (responses : list Response) (ending : option JsError)
  (chunks : list (list Byte.byte)) : JsError + list (list Byte.byte) :=
  match responses with
  | [] => match ending with
          | Some err => inl err
          | None => inr chunks
          end
  | response :: rest =>
      if isError response then inl (fromResponse response (Some "file:read"))
      else
        read_chunks rest ending
          (if isData response then
             match response with
             | DataResponse _ b => chunks ++ [decode_bytes b]
             | _ => chunks
             end
           else chunks)
  end.

(** The bytes of [chunk] written into [result] from index [offset] on. *)
Fixpoint write_at (result chunk : list Byte.byte) (offset : nat)
  : list Byte.byte :=
  match chunk with
  | [] => result
  | b :: rest => write_at (list_set offset b result) rest (S offset)
  end.

(** [result.set(chunk, offset)]: [None] stands for the [RangeError] thrown
    when the chunk does not fit. *)
Definition Uint8Array_set (result chunk : list Byte.byte) (offset : nat)
  : option (list Byte.byte) :=
  if (offset + length chunk <=? length result)%nat
  then Some (write_at result chunk offset)
  else None.

(** The second loop of [read]: every chunk is copied at the running
    offset. *)
Fixpoint copy_chunks (chunks : list (list Byte.byte))
  (result : list Byte.byte) (offset : nat) : option (list Byte.byte) :=
  match chunks with
  | [] => Some result
  | chunk :: rest =>
      match Uint8Array_set result chunk offset with
      | Some result' => copy_chunks rest result' (offset + length chunk)
      | None => None
      end
  end.

(** "Concatenate chunks". *)
Definition concatenate (chunks : list (list Byte.byte))
  : option (list Byte.byte) :=
  let totalLength := fold_left (fun sum chunk => sum + length chunk) chunks 0 in
  copy_chunks chunks (repeat Byte.x00 totalLength) 0.

(** [read], over a transport stream as for [iterate]; [None] stands for a
    [RangeError] of the copy. *)
Definition read (responses : list Response) (ending : option JsError)
  : option (JsError + list Byte.byte) :=
  match read_chunks responses ending [] with
  | inl err => Some (inl err)
  | inr chunks => option_map inr (concatenate chunks)
  end.

End Consumers.

(* ================================================================== *)
(** * Vocabulary of the further properties *)
(* ================================================================== *)

(** What happens to one stream: a response for its id is dispatched, its
    consumer pulls, or the body continues after its [await]. *)
Inductive StreamEvent :=
| Arrives (m : Response)
| Pulls
| Continues.

Definition stream_step (stringify : Request -> string) (s : nat)
  (w : World) (ev : StreamEvent) : World :=
  match ev with
  | Arrives m => dispatch m w
  | Pulls => next stringify s WriteOk w
  | Continues => resume s w
  end.

Definition stream_run (stringify : Request -> string) (s : nat)
  (w : World) (evs : list StreamEvent) : World :=
  fold_left (stream_step stringify s) evs w.

Fixpoint arrivals (evs : list StreamEvent) : list Response :=
  match evs with
  | [] => []
  | Arrives m :: rest => m :: arrivals rest
  | _ :: rest => arrivals rest
  end.

(** The response handed to a consumer that has not been resumed yet. *)
Definition in_flight (g : GenState) : list Response :=
  match g with
  | Resuming (IterValue v) => [v]
  | _ => []
  end.

(** The responses a stream has received and not lost: those handed to the
    consumer, the one on its way, those queued. *)
Definition accounted (fr : StreamFrame) : list Response :=
  yielded fr ++ in_flight (gen fr) ++ queue fr.

(** Stream [s] runs for [id]: its override is the current handler, its
    entry is in the table, and its frame is that of a running body. *)
Definition streaming (s : nat) (id : string) (w : World) (fr : StreamFrame)
  : Prop :=
  nth_error (streams w) s = Some fr
  /\ request_id (s_request fr) = id
  /\ onResponse_prop w = StreamOverride s id (s_original fr)
  /\ (resolver fr = true <-> gen fr = AwaitingResolver)
  /\ (gen fr = AwaitingResolver -> queue fr = [])
  /\ gen fr <> NotStarted
  /\ (forall e, gen fr <> Completed e).

(** No terminal response has reached the stream and no error: the flags
    of the loop are clear and nothing terminal is queued or on its way. *)
Definition open_stream (fr : StreamFrame) : Prop :=
  s_done fr = false
  /\ s_error fr = None
  /\ gen fr <> Resuming IterDone
  /\ (forall v, gen fr = AtYield v -> isTerminal v = false)
  /\ Forall (fun r => isTerminal r = false) (in_flight (gen fr) ++ queue fr).

(** The events of a stream that bring it responses of its own id. *)
Definition own_event (id : string) (ev : StreamEvent) : Prop :=
  forall m, ev = Arrives m -> response_id m = id.

Definition quiet_event (id : string) (ev : StreamEvent) : Prop :=
  forall m, ev = Arrives m -> response_id m = id /\ isTerminal m = false.

(** Stream [s] has completed: its body is over and its consumer has
    received [got]. *)
Definition completed (s : nat) (w : World) (got : list Response) : Prop :=
  exists fr e,
    nth_error (streams w) s = Some fr
    /\ gen fr = Completed e /\ resolver fr = false /\ yielded fr = got.

(** What the responses collected so far for a request look like, and what a
    fulfilled promise holds. *)
Definition collected (id : string) (rs : list Response) : Prop :=
  Forall (fun r => response_id r = id /\ isTerminal r = false) rs.

Definition complete_exchange (rs : list Response) : Prop :=
  exists id pre last,
    rs = pre ++ [last]
    /\ collected id pre
    /\ response_id last = id
    /\ isTerminal last = true.

(** The second invariant of reachable worlds: entries hold the non-terminal
    responses of their key, and fulfilled promises hold complete
    exchanges. *)
Record Inv5 (pd : list (string * PendingRequest))
  (pr : list (Promise (list Response))) : Prop := mkInv5 {
  inv_collected :
    forall k e, In (k, e) pd -> collected k (responses e);
  inv_fulfilled :
    forall p rs, nth_error pr p = Some (Fulfilled rs) -> complete_exchange rs
}.

Definition inv5 (w : World) : Prop := Inv5 (pending w) (promises w).

(** A stream on id "1" whose consumer has pulled once and waits. *)
Definition streaming1 : World :=
  next demo_stringify 0 WriteOk (fst (stream (ping "1") connected0)).

Definition frame1 : StreamFrame :=
  mkStream (ping "1") [] true None false OnResponseMethod AwaitingResolver [].

(** [streaming1] after an item has arrived and been handed over. *)
Definition yielding1 : World :=
  stream_run demo_stringify 0 streaming1
    [Arrives (ItemResponse "1" "[1]"); Continues].

Definition frame1_item : StreamFrame :=
  mkStream (ping "1") [] false None false OnResponseMethod
           (AtYield (ItemResponse "1" "[1]")) [ItemResponse "1" "[1]"].

(** [yielding1] with a second stream, on id "2", started by its first
    pull while the first stream is at its yield. *)
Definition two_streams : World :=
  next demo_stringify 1 WriteOk (fst (stream (ping "2") yielding1)).

Definition frame2 : StreamFrame :=
  mkStream (ping "2") [] true None false
           (StreamOverride 0 "1" OnResponseMethod) AwaitingResolver [].

(** What a response carries for the consumer of [iterate], and the bytes
    it carries for [read]. *)
Definition payload (decode_value : JsValue -> JsValue) (r : Response)
  : list JsValue :=
  match r with
  | ItemResponse _ d => [d]
  | DataResponse _ b => [decode_value b]
  | _ => []
  end.

Definition data_chunk (decode_bytes : JsValue -> list Byte.byte)
  (r : Response) : list (list Byte.byte) :=
  match r with
  | DataResponse _ b => [decode_bytes b]
  | _ => []
  end.

(** Stream [s] has ended with [thrown] ([None]: it returned), its consumer
    having received [got]. *)
Definition ends_with (s : nat) (thrown : option JsError) (w : World)
  (got : list Response) : Prop :=
  exists fr,
    nth_error (streams w) s = Some fr
    /\ gen fr = Completed thrown /\ resolver fr = false /\ yielded fr = got.

(** From [w] to [w'] the stream [s] of frame [fr] has ended with [thrown]
    and given up its registration: its entry is deleted, the handler it
    had found is back, nothing was written, and the generator ignores its
    consumer from now on. *)
Definition released (stringify : Request -> string) (s : nat) (id : string)
  (fr : StreamFrame) (thrown : option JsError) (w w' : World) : Prop :=
  ends_with s thrown w' (yielded fr)
  /\ pending w' = Map_delete id (pending w)
  /\ onResponse_prop w' = s_original fr
  /\ trace w' = trace w
  /\ promises w' = promises w
  /\ (forall wr, next stringify s wr w' = w')
  /\ resume s w' = w'
  /\ gen_return s w' = w'.



(* ================================================================== *)
(** * Properties *)
(* ================================================================== *)

(** ** Lists, promises and maps *)

Lemma list_set_length {A} (n : nat) (x : A) (l : list A) :
  length (list_set n x l) = length l.
Proof.
  revert n; induction l as [|h t IH]; intros [|n]; simpl; auto.
Qed.

Lemma nth_error_list_set_eq {A} (n : nat) (x : A) (l : list A) :
  n < length l -> nth_error (list_set n x l) n = Some x.
Proof.
  revert n; induction l as [|h t IH]; intros [|n] H; simpl in *; try lia; auto.
  apply IH; lia.
Qed.

Lemma nth_error_list_set_neq {A} (n m : nat) (x : A) (l : list A) :
  n <> m -> nth_error (list_set n x l) m = nth_error l m.
Proof.
  revert n m; induction l as [|h t IH]; intros [|n] [|m] H; simpl; auto.
  congruence.
Qed.

Lemma settle_length {A} (p : nat) (v : Promise A) (ps : list (Promise A)) :
  length (settle p v ps) = length ps.
Proof.
  unfold settle. destruct (nth_error ps p) as [[| |]|]; auto.
  apply list_set_length.
Qed.

Lemma settle_pending {A} (p : nat) (v : Promise A) (ps : list (Promise A)) :
  nth_error ps p = Some Pending -> nth_error (settle p v ps) p = Some v.
Proof.
  intros H. unfold settle. rewrite H.
  apply nth_error_list_set_eq. apply nth_error_Some. congruence.
Qed.

Lemma settle_other {A} (p q : nat) (v : Promise A) (ps : list (Promise A)) :
  p <> q -> nth_error (settle p v ps) q = nth_error ps q.
Proof.
  intros H. unfold settle. destruct (nth_error ps p) as [[| |]|]; auto.
  apply nth_error_list_set_neq; auto.
Qed.

(** A settled promise keeps its outcome. *)
Lemma settle_settled {A} (p q : nat) (v x : Promise A)
  (ps : list (Promise A)) :
  nth_error ps q = Some x -> x <> Pending ->
  nth_error (settle p v ps) q = Some x.
Proof.
  intros H Hx. destruct (Nat.eq_dec p q) as [->|Hne].
  - unfold settle. rewrite H. destruct x; congruence.
  - rewrite settle_other; auto.
Qed.

Lemma Map_get_set_eq {V} (k : string) (v : V) (m : list (string * V)) :
  Map_get k (Map_set k v m) = Some v.
Proof.
  induction m as [|[k' v'] t IH]; simpl.
  - now rewrite String.eqb_refl.
  - destruct (String.eqb k k') eqn:E; simpl; rewrite ?String.eqb_refl, ?E; auto.
Qed.

Lemma Map_get_set_neq {V} (k k' : string) (v : V) (m : list (string * V)) :
  k <> k' -> Map_get k' (Map_set k v m) = Map_get k' m.
Proof.
  intros H. induction m as [|[k0 v0] t IH]; simpl.
  - apply String.eqb_neq in H. rewrite String.eqb_sym in H. now rewrite H.
  - destruct (String.eqb k k0) eqn:E; simpl.
    + apply String.eqb_eq in E; subst k0.
      assert (String.eqb k' k = false) as -> by (apply String.eqb_neq; congruence).
      reflexivity.
    + destruct (String.eqb k' k0); auto.
Qed.

Lemma Map_get_delete_eq {V} (k : string) (m : list (string * V)) :
  Map_get k (Map_delete k m) = None.
Proof.
  unfold Map_delete. induction m as [|[k' v'] t IH]; simpl; auto.
  destruct (String.eqb k k') eqn:E; simpl; auto. now rewrite E.
Qed.

Lemma Map_get_delete_neq {V} (k k' : string) (m : list (string * V)) :
  k <> k' -> Map_get k' (Map_delete k m) = Map_get k' m.
Proof.
  intros H. unfold Map_delete. induction m as [|[k0 v0] t IH]; simpl; auto.
  destruct (String.eqb k k0) eqn:E; simpl.
  - apply String.eqb_eq in E; subst k0.
    assert (String.eqb k' k = false) as -> by (apply String.eqb_neq; congruence).
    exact IH.
  - destruct (String.eqb k' k0); auto.
Qed.

(** [set] on a present key changes no key and no position. *)
Lemma Map_set_keys {V} (k : string) (v v0 : V) (m : list (string * V)) :
  Map_get k m = Some v0 -> map fst (Map_set k v m) = map fst m.
Proof.
  induction m as [|[k' v'] t IH]; simpl; [discriminate|].
  destruct (String.eqb k k') eqn:E; simpl; intros H.
  - apply String.eqb_eq in E. now subst.
  - now rewrite IH.
Qed.

Lemma Map_get_In {V} (k : string) (v : V) (m : list (string * V)) :
  Map_get k m = Some v -> In (k, v) m.
Proof.
  induction m as [|[k' v'] t IH]; simpl; [discriminate|].
  destruct (String.eqb k k') eqn:E; intros H.
  - apply String.eqb_eq in E. inversion H; subst. now left.
  - right. auto.
Qed.

Lemma world_eta (w : World) :
  mkWorld (state w) (socket w) (pending w) (nextId w) (onResponse_prop w)
          (promises w) (timers w) (next_timer w) (streams w) (attempts w)
          (trace w) = w.
Proof. now destruct w. Qed.


(** ** Dispatch *)

Lemma call_handler_not_intercepted (h : Handler) (r : Response) (w : World) :
  intercepts (response_id r) h = false ->
  call_handler h r w = onResponse r w.
Proof.
  induction h as [|s id h IH]; simpl; auto.
  intros H. apply orb_false_iff in H as [H1 H2]. rewrite H1. auto.
Qed.

Lemma dispatch_not_intercepted (r : Response) (w : World) :
  intercepts (response_id r) (onResponse_prop w) = false ->
  dispatch r w = onResponse r w.
Proof. apply call_handler_not_intercepted. Qed.

Lemma clear_timer_promises (t : option nat) (w : World) :
  promises (clear_timer t w) = promises w.
Proof. now destruct t. Qed.

Lemma clear_timer_pending (t : option nat) (w : World) :
  pending (clear_timer t w) = pending w.
Proof. now destruct t. Qed.

Lemma Map_delete_set {V} (k : string) (v : V) (m : list (string * V)) :
  Map_delete k (Map_set k v m) = Map_delete k m.
Proof.
  unfold Map_delete. induction m as [|[k' v'] t IH]; simpl.
  - now rewrite String.eqb_refl.
  - destruct (String.eqb k k') eqn:E; simpl.
    + now rewrite String.eqb_refl.
    + now rewrite E, IH.
Qed.

Lemma onResponse_absent (r : Response) (w : World) :
  Map_get (response_id r) (pending w) = None -> onResponse r w = w.
Proof. unfold onResponse. now intros ->. Qed.

Lemma onResponse_nonterminal (r : Response) (e : PendingRequest) (w : World) :
  Map_get (response_id r) (pending w) = Some e -> isTerminal r = false ->
  onResponse r w =
  set_pending
    (Map_set (response_id r)
       (mkPending (sink e) (responses e ++ [r]) (timer e)) (pending w)) w.
Proof. unfold onResponse. now intros -> ->. Qed.

Lemma onResponse_terminal (r : Response) (e : PendingRequest) (w : World) :
  Map_get (response_id r) (pending w) = Some e -> isTerminal r = true ->
  onResponse r w =
  resolve_entry e (responses e ++ [r])
    (set_pending (Map_delete (response_id r) (pending w))
       (clear_timer (timer e) w)).
Proof.
  unfold onResponse. intros -> ->. cbn [sink responses timer].
  unfold resolve_entry. cbn [sink].
  destruct (timer e);
    cbn [clear_timer clearTimeout set_pending set_timers pending state socket
         nextId onResponse_prop promises timers next_timer streams attempts
         trace];
    rewrite Map_delete_set; reflexivity.
Qed.

(** ** State errors (C8) *)

(** C8.  State-error preconditions are checked before any I/O.  [connect]
    in a state other than disconnected fails at once with "Already
    connected or connecting" and changes nothing, so in particular not the
    state.  [send] in a state other than connected fails at once with "Not
    connected" and changes nothing: no frame is written and no waiter is
    registered.  Calling [stream] only creates the generator; its first
    pull in a state other than connected completes it with "Not connected";
    the routing table, the socket trace, the state and the response handler
    stay as they were. *)
Theorem state_errors_precede_io :
  (forall options w,
      state w <> Disconnected ->
      connect options w =
      (w, inl (ConnectionError "EISCONN" "Already connected or connecting")))
  /\ (forall stringify request ms wr w,
      state w <> Connected ->
      send stringify request ms wr w =
      (w, inl (ConnectionError "ENOTCONN" "Not connected")))
  /\ (forall request w,
      fst (stream request w)
      = set_streams
          (streams w ++
             [mkStream request [] false None false OnResponseMethod
                       NotStarted []]) w)
  /\ (forall stringify s wr w fr,
      state w <> Connected ->
      nth_error (streams w) s = Some fr ->
      gen fr = NotStarted ->
      let w' := next stringify s wr w in
      w' = set_streams
             (list_set s
                (set_gen
                   (Completed
                      (Some (ConnectionError "ENOTCONN" "Not connected"))) fr)
                (streams w)) w
      /\ pending w' = pending w
      /\ trace w' = trace w
      /\ state w' = state w
      /\ onResponse_prop w' = onResponse_prop w).
Proof.
  split; [|split; [|split]].
  - intros options w H. unfold connect.
    destruct (state w); simpl; congruence.
  - intros stringify request ms wr w H. unfold send, not_connected.
    destruct (state w); simpl; rewrite ?orb_true_r; congruence.
  - reflexivity.
  - intros stringify s wr w fr H Hs Hg.
    assert (next stringify s wr w =
            set_streams
              (list_set s
                 (set_gen
                    (Completed
                       (Some (ConnectionError "ENOTCONN" "Not connected"))) fr)
                 (streams w)) w) as E.
    { unfold next. rewrite Hs, Hg. unfold start. rewrite Hs.
      assert (not_connected w = true) as ->.
      { unfold not_connected. destruct (state w); simpl;
          rewrite ?orb_true_r; congruence. }
      unfold update_stream. now rewrite Hs. }
    cbv zeta. rewrite E. repeat split.
Qed.

Lemma state_errors_precede_io_witness :
  connect (mkConnectOptions None None) connected0 =
  (connected0,
   inl (ConnectionError "EISCONN" "Already connected or connecting"))
  /\ send demo_stringify (ping "1") 30000 WriteOk initial =
     (initial, inl (ConnectionError "ENOTCONN" "Not connected"))
  /\ pending (next demo_stringify 0 WriteOk
                (fst (stream (ping "1") initial))) = [].
Proof.
  destruct state_errors_precede_io as (H1 & H2 & _ & H3).
  split; [|split].
  - apply H1. discriminate.
  - apply H2. discriminate.
  - apply (H3 demo_stringify 0 WriteOk (fst (stream (ping "1") initial))
              (mkStream (ping "1") [] false None false OnResponseMethod
                        NotStarted []));
      [discriminate | reflexivity | reflexivity].
Defined.

(** ** Error responses (C1) *)

Lemma promises_after_terminal (r : Response) (e : PendingRequest) (p : nat)
  (w : World) :
  Map_get (response_id r) (pending w) = Some e ->
  isTerminal r = true ->
  sink e = BatchSink p ->
  promises (onResponse r w) =
  settle p (Fulfilled (responses e ++ [r])) (promises w)
  /\ pending (onResponse r w) = Map_delete (response_id r) (pending w).
Proof.
  intros He Ht Hs. rewrite (onResponse_terminal r e w He Ht).
  unfold resolve_entry, promise_resolve. rewrite Hs.
  cbn [promises pending set_promises set_pending].
  now rewrite clear_timer_promises.
Qed.

(** The transport does not reject on an error response. *)
Lemma send_resolves_on_error_response :
  let w := socket_data demo_parse 0
             (frame_error "1" "ENOENT" "not found" ++ nl)%string sent1 in
  promise_of 0 sent1 = Some Pending
  /\ promise_of 0 w = Some (Fulfilled [ErrorResponse "1" "ENOENT" "not found"])
  /\ forall e, promise_of 0 w <> Some (Rejected e).
Proof.
  cbv zeta. split; [reflexivity|]. split; [vm_compute; reflexivity|].
  intros e. vm_compute. discriminate.
Qed.

(** C1, amended.  When the remote answers a pending id with an error
    response, [send] resolves: its promise is fulfilled with the responses
    collected for that id, the error response last, and the waiter leaves
    the routing table.  The failure is raised one layer up: when that error
    response is the first response of the exchange, [OSClient.call] throws a
    [SyscallError] carrying the remote code and message, which is neither a
    [ConnectionError] nor a [TimeoutError]. *)
Theorem error_response_resolves_send_and_fails_call :
  forall w e p id code message,
    Map_get id (pending w) = Some e ->
    sink e = BatchSink p ->
    promise_of p w = Some Pending ->
    intercepts id (onResponse_prop w) = false ->
    let m := ErrorResponse id code message in
    let w' := dispatch m w in
    promise_of p w' = Some (Fulfilled (responses e ++ [m]))
    /\ Map_get id (pending w') = None
    /\ (responses e = [] ->
        forall name,
          call_result name (responses e ++ [m]) =
          inl (SyscallError code message (Some name)))
    /\ (forall name,
          is_transport_error (SyscallError code message (Some name)) = false).
Proof.
  intros w e p id code message He Hs Hp Hi m w'.
  assert (Hd : w' = onResponse m w)
    by (apply dispatch_not_intercepted; exact Hi).
  destruct (promises_after_terminal m e p w He eq_refl Hs) as [Hps Hpd].
  repeat split.
  - unfold promise_of. rewrite Hd, Hps. now apply settle_pending.
  - rewrite Hd, Hpd. apply Map_get_delete_eq.
  - intros -> name. reflexivity.
Qed.

Lemma error_response_resolves_send_and_fails_call_witness :
  promise_of 0 (dispatch (ErrorResponse "1" "ENOENT" "not found") sent1) =
  Some (Fulfilled [ErrorResponse "1" "ENOENT" "not found"])
  /\ call_result "file:stat" [ErrorResponse "1" "ENOENT" "not found"] =
     inl (SyscallError "ENOENT" "not found" (Some "file:stat")).
Proof.
  destruct (error_response_resolves_send_and_fails_call
              sent1 (mkPending (BatchSink 0) [] (Some 1)) 0 "1"
              "ENOENT" "not found" eq_refl eq_refl eq_refl eq_refl)
    as (H1 & _ & H3 & _).
  split; [exact H1 | exact (H3 eq_refl "file:stat")].
Defined.

(** ** Connect timeout (C9) *)

(** After the timeout the late [open] installs the socket of the dead
    attempt. *)
Lemma late_open_installs_socket :
  state timed_out = Disconnected
  /\ socket timed_out = None
  /\ state (socket_open 0 timed_out) = Disconnected
  /\ socket (socket_open 0 timed_out) = Some 0.
Proof. repeat split. Qed.

Lemma attempt_timer_of (a : nat) (w : World) (at_ : Attempt) :
  nth_error (attempts w) a = Some at_ ->
  attempt_timer a w = Some (a_timer at_).
Proof. unfold attempt_timer. now intros ->. Qed.

Lemma socket_open_settled (a : nat) (w : World) (at_ : Attempt) :
  nth_error (attempts w) a = Some at_ ->
  a_promise at_ <> Pending ->
  state (socket_open a w) = state w
  /\ attempts (socket_open a w) = attempts w
  /\ socket (socket_open a w) = Some a
  /\ pending (socket_open a w) = pending w.
Proof.
  intros Ha Hp. unfold socket_open.
  rewrite (attempt_timer_of a w at_ Ha). unfold attempt_resolve.
  cbn [clear_timer clearTimeout set_socket set_timers attempts].
  rewrite Ha. destruct (a_promise at_); [congruence| |]; repeat split.
Qed.

(** C9, amended.  When the timer of a connect attempt fires before the
    stream opens, the attempt fails with a timeout error and the state
    returns to disconnected.  If the attempt completes later, the outcome of
    [connect] and the state do not change, so the state stays disconnected;
    but the transport has no notion of which attempt is current, and the
    late [open] stores the socket of that attempt in the transport. *)
Theorem connect_timeout_then_late_open :
  (forall w a at_,
      nth_error (attempts w) a = Some at_ ->
      a_promise at_ = Pending ->
      timer_lookup (a_timer at_) (timers w) = Some (ConnectTimer a) ->
      let failure :=
        TimeoutError
          (timeout_message ("Connection to " ++ a_path at_) (a_timeout at_)) in
      let w1 := fire (a_timer at_) w in
      let w2 := socket_open a w1 in
      state w1 = Disconnected
      /\ option_map a_promise (nth_error (attempts w1) a)
         = Some (Rejected failure)
      /\ socket w1 = socket w
      /\ state w2 = Disconnected
      /\ attempts w2 = attempts w1
      /\ socket w2 = Some a)
  /\ (forall w a at_,
      nth_error (attempts w) a = Some at_ ->
      a_promise at_ <> Pending ->
      state (socket_open a w) = state w
      /\ attempts (socket_open a w) = attempts w
      /\ socket (socket_open a w) = Some a
      /\ pending (socket_open a w) = pending w).
Proof.
  split; [|intros w a at_; apply socket_open_settled].
  intros w a at_ Ha Hp Ht failure w1 w2.
  assert (Hlt : a < length (attempts w))
    by (apply nth_error_Some; congruence).
  assert (E : w1 =
              set_state Disconnected
                (set_attempts
                   (list_set a
                      (mkAttempt (a_path at_) (a_timeout at_) (a_timer at_)
                                 (Rejected failure) (a_data at_))
                      (attempts w))
                   (clearTimeout (a_timer at_) w))).
  { unfold w1, fire. rewrite Ht.
    cbn [attempts clearTimeout set_timers]. rewrite Ha.
    unfold attempt_reject. cbn [attempts clearTimeout set_timers].
    rewrite Ha, Hp. unfold update_attempt.
    cbn [attempts clearTimeout set_timers]. now rewrite Ha. }
  assert (Ha1 : nth_error (attempts w1) a =
                Some (mkAttempt (a_path at_) (a_timeout at_) (a_timer at_)
                                (Rejected failure) (a_data at_))).
  { rewrite E. cbn [attempts set_state set_attempts].
    now apply nth_error_list_set_eq. }
  destruct (socket_open_settled a w1 _ Ha1) as (S1 & S2 & S3 & _);
    [cbn; discriminate|].
  assert (Hst : state w1 = Disconnected) by (now rewrite E).
  repeat split.
  - exact Hst.
  - now rewrite Ha1.
  - now rewrite E.
  - unfold w2. now rewrite S1.
  - exact S2.
  - exact S3.
Qed.

Lemma connect_timeout_then_late_open_witness :
  state timed_out = Disconnected
  /\ socket (socket_open 0 timed_out) = Some 0.
Proof.
  destruct connect_timeout_then_late_open as [H _].
  destruct (H (fst (connect (mkConnectOptions None (Some 100%N)) initial)) 0
              (mkAttempt "/tmp/monk.sock" 100 0 Pending (mkSocketData ""))
              eq_refl eq_refl eq_refl)
    as (H1 & _ & _ & _ & _ & H6).
  split; [exact H1 | exact H6].
Defined.

(** ** Streams (C2) *)

(** A terminal response that has been yielded ends the sequence at the next
    pull, and without an error unless the connection was closed meanwhile. *)
Lemma stream_ends_after_terminal (stringify : Request -> string)
  (s : nat) (wr : WriteOutcome) (w : World) (fr : StreamFrame)
  (r : Response) :
  nth_error (streams w) s = Some fr ->
  gen fr = AtYield r ->
  isTerminal r = true ->
  option_map gen (nth_error (streams (next stringify s wr w)) s)
  = Some (Completed (s_error fr)).
Proof.
  intros Hs Hg Ht. unfold next. rewrite Hs, Hg, Ht.
  unfold leave_loop, run_finally. rewrite Hs. unfold update_stream.
  cbn [streams set_pending set_onResponse]. rewrite Hs.
  cbn [streams set_streams].
  rewrite nth_error_list_set_eq; [reflexivity|].
  apply nth_error_Some. congruence.
Qed.

(** When every response reaches the stream while its consumer is waiting in
    the [await], the four responses come out in order and the sequence ends
    without error. *)
Lemma stream_lockstep_yields_all :
  let R := run demo_stringify demo_parse in
  let w := R connected0
             [EvStream (ping "1"); EvNext 0 WriteOk;
              EvSocketData 0 (frame_item "1" "[1]" ++ nl)%string;
              EvResume 0; EvNext 0 WriteOk;
              EvSocketData 0 (frame_item "1" "[2]" ++ nl)%string;
              EvResume 0; EvNext 0 WriteOk;
              EvSocketData 0 (frame_item "1" "[3]" ++ nl)%string;
              EvResume 0; EvNext 0 WriteOk;
              EvSocketData 0 (frame_done "1" ++ nl)%string;
              EvResume 0; EvNext 0 WriteOk] in
  option_map yielded (nth_error (streams w) 0) = Some four_messages
  /\ option_map gen (nth_error (streams w) 0) = Some (Completed None)
  /\ pending w = [].
Proof. vm_compute. repeat split. Qed.

(** C2, on the code.  The consumer has pulled once and waits; the three
    items and the [done] then arrive in one chunk.  The first item wakes the
    consumer; the second, the third and the [done] are queued, and [done]
    sets the flag of the loop.  The consumer receives the first item, pulls
    again, and the loop ends at its head: the sequence is over, without
    error, after a single value, with three responses left in the queue. *)
Theorem stream_drops_queued_responses :
  let R := run demo_stringify demo_parse in
  let w := R connected0
             [EvStream (ping "1"); EvNext 0 WriteOk;
              EvSocketData 0 four_frames;
              EvResume 0; EvNext 0 WriteOk] in
  option_map yielded (nth_error (streams w) 0) = Some [ItemResponse "1" "[1]"]
  /\ option_map gen (nth_error (streams w) 0) = Some (Completed None)
  /\ option_map queue (nth_error (streams w) 0)
     = Some [ItemResponse "1" "[2]"; ItemResponse "1" "[3]"; DoneResponse "1"]
  /\ messages demo_parse
       [frame_item "1" "[1]"; frame_item "1" "[2]"; frame_item "1" "[3]";
        frame_done "1"] = four_messages.
Proof. vm_compute. repeat split. Qed.

(** ** Framing (C5) *)

Lemma indexOf_ge (s : string) (c : ascii) : (-1 <= indexOf s c)%Z.
Proof.
  induction s as [|a t IH]; simpl; [lia|].
  destruct (Ascii.eqb a c); [lia|].
  destruct (Z.eqb_spec (indexOf t c) (-1)); lia.
Qed.

Lemma indexOf_absent (s : string) :
  no_newline s = true -> indexOf s newline = (-1)%Z.
Proof.
  induction s as [|a t IH]; simpl; auto.
  intros H. apply andb_true_iff in H as [Ha Ht].
  apply negb_true_iff in Ha. rewrite Ha, (IH Ht). reflexivity.
Qed.

Lemma indexOf_frame (f rest : string) :
  no_newline f = true ->
  indexOf (f ++ String newline rest) newline = Z.of_nat (String.length f).
Proof.
  induction f as [|a t IH]; intros H.
  - reflexivity.
  - cbn [String.append no_newline String.length indexOf] in *.
    apply andb_true_iff in H as [Ha Ht]. apply negb_true_iff in Ha.
    rewrite Ha, (IH Ht).
    destruct (Z.eqb_spec (Z.of_nat (String.length t)) (-1)); lia.
Qed.

Lemma substring_all (s : string) : substring 0 (String.length s) s = s.
Proof. induction s as [|a t IH]; simpl; congruence. Qed.

Lemma substring_prefix (f x : string) :
  substring 0 (String.length f) (f ++ x) = f.
Proof.
  induction f as [|a t IH]; simpl.
  - now destruct x.
  - now rewrite IH.
Qed.

Lemma append_length (a b : string) :
  String.length (a ++ b) = String.length a + String.length b.
Proof. induction a as [|c t IH]; simpl; auto. Qed.

Lemma substring_suffix (f x : string) :
  substring (String.length f) (String.length (f ++ x) - String.length f)
            (f ++ x) = x.
Proof.
  induction f as [|a t IH]; cbn [String.append String.length].
  - rewrite Nat.sub_0_r. apply substring_all.
  - cbn [substring]. replace (S (String.length (t ++ x)) - S (String.length t))
      with (String.length (t ++ x) - String.length t) by lia.
    exact IH.
Qed.

Lemma slice_frame (f rest : string) :
  slice (f ++ String newline rest) 0 (Z.of_nat (String.length f)) = f.
Proof.
  unfold slice. rewrite Z.sub_0_r, Nat2Z.id. apply substring_prefix.
Qed.

Lemma append_assoc (a b c : string) : ((a ++ b) ++ c = a ++ (b ++ c))%string.
Proof. induction a as [|x t IH]; simpl; congruence. Qed.

Lemma slice_from_frame (f rest : string) :
  slice_from (f ++ String newline rest) (Z.of_nat (String.length f) + 1) = rest.
Proof.
  unfold slice_from.
  replace (Z.to_nat (Z.of_nat (String.length f) + 1))
    with (String.length (f ++ String newline EmptyString))
    by (rewrite append_length; simpl; lia).
  replace (f ++ String newline rest)%string
    with ((f ++ String newline EmptyString) ++ rest)%string
    by (rewrite append_assoc; reflexivity).
  apply substring_suffix.
Qed.

Lemma trimStart_blank (s : string) :
  blank s = true -> trimStart s = EmptyString.
Proof.
  induction s as [|a t IH]; simpl; auto.
  intros H. apply andb_true_iff in H as [-> Ht]. auto.
Qed.

Lemma trimEnd_truthy (s : string) :
  blank s = false -> truthy (trimEnd s) = true.
Proof.
  induction s as [|a t IH]; simpl; [discriminate|].
  intros H. destruct (trimEnd t) eqn:E; [|reflexivity].
  destruct (is_whitespace a) eqn:Ea; [|reflexivity].
  simpl in H. specialize (IH H). discriminate.
Qed.

Lemma trimStart_not_blank (s : string) :
  blank s = false -> blank (trimStart s) = false.
Proof.
  induction s as [|a t IH]; simpl; auto.
  destruct (is_whitespace a) eqn:Ea; simpl; auto.
  intros _. now rewrite Ea.
Qed.

(** [line.trim()] is falsy exactly on empty and white-space-only lines. *)
Lemma truthy_trim (s : string) : truthy (trim s) = negb (blank s).
Proof.
  unfold trim. destruct (blank s) eqn:E; simpl.
  - now rewrite trimStart_blank.
  - apply trimEnd_truthy. now apply trimStart_not_blank.
Qed.

Lemma join_frames_length (frames : list string) :
  length frames <= String.length (join_frames frames).
Proof.
  induction frames as [|f t IH]; simpl; [lia|].
  rewrite append_length. simpl. lia.
Qed.

Lemma onData_loop_frames (parse : string -> option Response)
  (frames : list string) (rest : string) :
  forallb no_newline frames = true ->
  no_newline rest = true ->
  forall fuel w,
    length frames < fuel ->
    onData_loop parse fuel (mkSocketData (join_frames frames ++ rest)) w =
    Some (mkSocketData rest, deliver (messages parse frames) w).
Proof.
  intros Hf Hr. induction frames as [|f t IH]; intros fuel w Hfuel.
  - destruct fuel as [|fuel]; [simpl in Hfuel; lia|].
    cbn [onData_loop buffer join_frames String.append].
    now rewrite (indexOf_absent rest Hr).
  - destruct fuel as [|fuel]; [simpl in Hfuel; lia|].
    cbn [forallb] in Hf. apply andb_true_iff in Hf as [Hf1 Hft].
    cbn [onData_loop buffer join_frames].
    rewrite append_assoc. cbn [String.append].
    rewrite (indexOf_frame f _ Hf1).
    assert ((Z.of_nat (String.length f) =? -1)%Z = false) as ->
      by (apply Z.eqb_neq; lia).
    rewrite slice_frame, slice_from_frame, truthy_trim.
    cbn [length] in Hfuel.
    rewrite (IH Hft); [|lia].
    cbn [messages]. destruct (blank f); cbn [negb]; [reflexivity|].
    destruct (parse f); reflexivity.
Qed.

(** Every text is a run of complete frames followed by a partial one. *)
Lemma frames_exist (s : string) :
  exists frames rest,
    s = (join_frames frames ++ rest)%string
    /\ forallb no_newline frames = true
    /\ no_newline rest = true.
Proof.
  induction s as [|a t (frames & rest & E & Hf & Hr)].
  - exists [], EmptyString. repeat split.
  - destruct (Ascii.eqb a newline) eqn:Ea.
    + apply Ascii.eqb_eq in Ea. subst a.
      exists (EmptyString :: frames), rest. subst t. repeat split; auto.
    + destruct frames as [|f fs].
      * exists [], (String a rest). subst t. cbn. rewrite Ea. auto.
      * exists (String a f :: fs), rest. subst t.
        cbn in Hf |- *. rewrite Ea. auto.
Qed.

(** And in one way only. *)
Lemma frames_unique (frames1 frames2 : list string) (rest1 rest2 : string) :
  forallb no_newline frames1 = true -> no_newline rest1 = true ->
  forallb no_newline frames2 = true -> no_newline rest2 = true ->
  (join_frames frames1 ++ rest1 = join_frames frames2 ++ rest2)%string ->
  frames1 = frames2 /\ rest1 = rest2.
Proof.
  intros H1 R1 H2 R2 E.
  assert (G : forall fuel w,
             length frames1 < fuel -> length frames2 < fuel ->
             Some (mkSocketData rest1,
                   deliver (messages (fun _ => None) frames1) w)
             = Some (mkSocketData rest2,
                     deliver (messages (fun _ => None) frames2) w)).
  { intros fuel w L1 L2.
    rewrite <- (onData_loop_frames (fun _ => None) frames1 rest1 H1 R1 fuel w L1).
    rewrite <- (onData_loop_frames (fun _ => None) frames2 rest2 H2 R2 fuel w L2).
    now rewrite E. }
  assert (rest1 = rest2) as <-.
  { specialize (G (S (length frames1 + length frames2)) initial).
    assert (X : forall a b : SocketData * World, Some a = Some b ->
                buffer (fst a) = buffer (fst b)) by (intros; congruence).
    apply (X _ _ (G ltac:(lia) ltac:(lia))). }
  split; [|reflexivity].
  clear G. revert frames2 H2 E.
  induction frames1 as [|f1 t1 IH]; intros [|f2 t2] H2 E; auto.
  - exfalso. cbn in E, H2. apply andb_true_iff in H2 as [Hf2 _].
    assert (indexOf rest1 newline = (-1)%Z) as A by now apply indexOf_absent.
    rewrite E, append_assoc in A. cbn [String.append] in A.
    rewrite indexOf_frame in A; auto. lia.
  - exfalso. cbn in E, H1. apply andb_true_iff in H1 as [Hf1 _].
    assert (indexOf rest1 newline = (-1)%Z) as A by now apply indexOf_absent.
    rewrite <- E, append_assoc in A. cbn [String.append] in A.
    rewrite indexOf_frame in A; auto. lia.
  - cbn in H1, H2, E.
    apply andb_true_iff in H1 as [Hf1 Ht1].
    apply andb_true_iff in H2 as [Hf2 Ht2].
    rewrite !append_assoc in E. cbn [String.append] in E.
    assert (f1 = f2) as <-.
    { rewrite <- (slice_frame f1 (join_frames t1 ++ rest1)).
      rewrite <- (slice_frame f2 (join_frames t2 ++ rest1)).
      assert (Z.of_nat (String.length f1) = Z.of_nat (String.length f2)) as L.
      { rewrite <- (indexOf_frame f1 (join_frames t1 ++ rest1) Hf1).
        rewrite <- (indexOf_frame f2 (join_frames t2 ++ rest1) Hf2).
        now rewrite E. }
      now rewrite E, L. }
    f_equal. apply IH; auto.
    rewrite <- (slice_from_frame f1 (join_frames t1 ++ rest1)).
    rewrite <- (slice_from_frame f1 (join_frames t2 ++ rest1)).
    now rewrite E.
Qed.

(** C5.  [onData] appends the chunk to the buffer and always returns.  The
    text so obtained is, in exactly one way, a sequence of complete frames,
    each closed by a newline and holding none, followed by a partial frame
    without newline.  [onData] dispatches, first to last, the message of
    every frame that is not blank and that parses; blank frames are
    skipped, frames that do not parse are dropped, and the frames after them
    are handled as usual.  The buffer is left holding the partial frame. *)
Theorem onData_frames (parse : string -> option Response)
  (sd : SocketData) (chunk : string) (w : World) :
  (exists frames rest,
      (buffer sd ++ chunk = join_frames frames ++ rest)%string
      /\ forallb no_newline frames = true
      /\ no_newline rest = true)
  /\ (forall frames rest,
      (buffer sd ++ chunk = join_frames frames ++ rest)%string ->
      forallb no_newline frames = true ->
      no_newline rest = true ->
      onData parse sd chunk w =
      Some (mkSocketData rest, deliver (messages parse frames) w)).
Proof.
  split.
  - apply frames_exist.
  - intros frames rest E Hf Hr. unfold onData. cbn [buffer]. rewrite E.
    apply onData_loop_frames; auto.
    pose proof (join_frames_length frames).
    rewrite append_length. lia.
Qed.

(** A partial frame left in the buffer is completed by the chunk, which
    also brings a blank frame, a frame that does not parse and a second
    message; the two messages are dispatched in order. *)
Lemma onData_frames_witness :
  onData demo_parse (mkSocketData "{")
         (substring 1 100 (frame_ok "1") ++ nl ++ "  " ++ nl ++ "{oops" ++ nl
          ++ frame_ok "2" ++ nl ++ "{")%string
         sent1
  = Some (mkSocketData "{",
          dispatch (OkResponse "2" None) (dispatch (OkResponse "1" None) sent1)).
Proof.
  destruct (onData_frames demo_parse (mkSocketData "{")
              (substring 1 100 (frame_ok "1") ++ nl ++ "  " ++ nl ++ "{oops"
               ++ nl ++ frame_ok "2" ++ nl ++ "{")%string sent1)
    as [_ H].
  exact (H [frame_ok "1"; "  "%string; "{oops"%string; frame_ok "2"]
           "{"%string eq_refl eq_refl eq_refl).
Defined.

(** ** What a dispatch can change *)

Lemma dispatch_cases (m : Response) (w : World) :
  dispatch m w = onResponse m w
  \/ exists s, dispatch m w = update_stream s (handler m) w.
Proof.
  unfold dispatch. generalize (onResponse_prop w) as h.
  induction h as [|s id h IH]; simpl; auto.
  destruct (String.eqb (response_id m) id); eauto.
Qed.

Lemma update_stream_fields (s : nat) (f : StreamFrame -> StreamFrame)
  (w : World) :
  pending (update_stream s f w) = pending w
  /\ promises (update_stream s f w) = promises w
  /\ timers (update_stream s f w) = timers w
  /\ onResponse_prop (update_stream s f w) = onResponse_prop w
  /\ nextId (update_stream s f w) = nextId w.
Proof. unfold update_stream. destruct (nth_error (streams w) s); auto. Qed.

Lemma timer_lookup_filter (t t' : nat) (l : list (nat * TimerAction)) :
  t <> t' ->
  timer_lookup t (filter (fun ta => negb (Nat.eqb t' (fst ta))) l)
  = timer_lookup t l.
Proof.
  intros H. induction l as [|[t0 a] r IH]; simpl; auto.
  destruct (Nat.eqb_spec t' t0); simpl.
  - subst t0. destruct (Nat.eqb_spec t t'); [congruence | exact IH].
  - destruct (Nat.eqb t t0); auto.
Qed.

Lemma timer_lookup_cleared (t : nat) (l : list (nat * TimerAction)) :
  timer_lookup t (filter (fun ta => negb (Nat.eqb t (fst ta))) l) = None.
Proof.
  induction l as [|[t0 a] r IH]; simpl; auto.
  destruct (Nat.eqb t t0) eqn:E; simpl; auto. now rewrite E.
Qed.

Lemma clear_timer_lookup_other (t : nat) (o : option nat) (w : World) :
  o <> Some t ->
  timer_lookup t (timers (clear_timer o w)) = timer_lookup t (timers w).
Proof.
  destruct o as [t'|]; simpl; auto. intros H.
  apply timer_lookup_filter. congruence.
Qed.

Lemma onResponse_hook (r : Response) (w : World) :
  onResponse_prop (onResponse r w) = onResponse_prop w.
Proof.
  unfold onResponse. destruct (Map_get (response_id r) (pending w)); auto.
  destruct (isTerminal r); auto.
  unfold resolve_entry. cbn [sink timer].
  destruct (sink p); destruct (timer p); reflexivity.
Qed.

Lemma resolve_entry_fields (e : PendingRequest) (rs : list Response)
  (w : World) :
  pending (resolve_entry e rs w) = pending w
  /\ timers (resolve_entry e rs w) = timers w.
Proof. unfold resolve_entry. destruct (sink e); auto. Qed.

Lemma onResponse_pending_other (k : string) (r : Response) (w : World) :
  response_id r <> k ->
  Map_get k (pending (onResponse r w)) = Map_get k (pending w).
Proof.
  intros H.
  destruct (Map_get (response_id r) (pending w)) as [e|] eqn:He.
  - destruct (isTerminal r) eqn:Ht.
    + rewrite (onResponse_terminal r e w He Ht).
      rewrite (proj1 (resolve_entry_fields _ _ _)). cbn [pending set_pending].
      now apply Map_get_delete_neq.
    + rewrite (onResponse_nonterminal r e w He Ht). cbn [pending set_pending].
      now apply Map_get_set_neq.
  - now rewrite onResponse_absent.
Qed.

(** Entries are only extended or deleted: what is found afterwards was
    there before, with the same sink and the same timer. *)
Lemma onResponse_entry_kept (k : string) (r : Response) (w : World)
  (e' : PendingRequest) :
  Map_get k (pending (onResponse r w)) = Some e' ->
  exists e, Map_get k (pending w) = Some e
            /\ sink e' = sink e /\ timer e' = timer e.
Proof.
  destruct (String.eqb_spec (response_id r) k) as [E|N].
  - subst k. destruct (Map_get (response_id r) (pending w)) as [e|] eqn:He.
    + destruct (isTerminal r) eqn:Ht.
      * rewrite (onResponse_terminal r e w He Ht).
        rewrite (proj1 (resolve_entry_fields _ _ _)).
        cbn [pending set_pending]. rewrite Map_get_delete_eq. discriminate.
      * rewrite (onResponse_nonterminal r e w He Ht).
        cbn [pending set_pending]. rewrite Map_get_set_eq.
        intros [= <-]. exists e. auto.
    + rewrite onResponse_absent; auto. rewrite He. discriminate.
  - rewrite onResponse_pending_other; auto. intros H. exists e'. auto.
Qed.

Lemma onResponse_promise_other (p : nat) (r : Response) (w : World) :
  (forall e, Map_get (response_id r) (pending w) = Some e ->
             sink e <> BatchSink p) ->
  promise_of p (onResponse r w) = promise_of p w.
Proof.
  intros H. unfold promise_of.
  destruct (Map_get (response_id r) (pending w)) as [e|] eqn:He.
  - destruct (isTerminal r) eqn:Ht.
    + rewrite (onResponse_terminal r e w He Ht). unfold resolve_entry.
      specialize (H e eq_refl).
      destruct (sink e) as [q|q]; cbn [promises set_pending];
        unfold promise_resolve; cbn [promises set_promises set_pending];
        rewrite ?clear_timer_promises; auto.
      apply settle_other. congruence.
    + now rewrite (onResponse_nonterminal r e w He Ht).
  - now rewrite onResponse_absent.
Qed.

Lemma onResponse_timer_other (t : nat) (r : Response) (w : World) :
  (forall e, Map_get (response_id r) (pending w) = Some e ->
             timer e <> Some t) ->
  timer_lookup t (timers (onResponse r w)) = timer_lookup t (timers w).
Proof.
  intros H.
  destruct (Map_get (response_id r) (pending w)) as [e|] eqn:He.
  - destruct (isTerminal r) eqn:Ht.
    + rewrite (onResponse_terminal r e w He Ht).
      rewrite (proj2 (resolve_entry_fields _ _ _)). cbn [timers set_pending].
      apply clear_timer_lookup_other. auto.
    + now rewrite (onResponse_nonterminal r e w He Ht).
  - now rewrite onResponse_absent.
Qed.

(** A settled promise is not changed by any dispatch. *)
Lemma onResponse_settled (q : nat) (x : Promise (list Response))
  (r : Response) (w : World) :
  promise_of q w = Some x -> x <> Pending ->
  promise_of q (onResponse r w) = Some x.
Proof.
  intros Hq Hx. unfold promise_of in *.
  destruct (Map_get (response_id r) (pending w)) as [e|] eqn:He.
  - destruct (isTerminal r) eqn:Ht.
    + rewrite (onResponse_terminal r e w He Ht). unfold resolve_entry.
      destruct (sink e) as [p|s]; cbn [promises set_pending];
        unfold promise_resolve; cbn [promises set_promises set_pending];
        rewrite ?clear_timer_promises; auto.
      now apply settle_settled.
    + now rewrite (onResponse_nonterminal r e w He Ht).
  - now rewrite onResponse_absent.
Qed.

Lemma dispatch_settled (q : nat) (x : Promise (list Response))
  (m : Response) (w : World) :
  promise_of q w = Some x -> x <> Pending ->
  promise_of q (dispatch m w) = Some x.
Proof.
  intros Hq Hx. destruct (dispatch_cases m w) as [-> | [s ->]].
  - now apply onResponse_settled.
  - unfold promise_of.
    now rewrite (proj1 (proj2 (update_stream_fields s _ w))).
Qed.

Lemma deliver_settled (q : nat) (x : Promise (list Response))
  (msgs : list Response) (w : World) :
  promise_of q w = Some x -> x <> Pending ->
  promise_of q (deliver msgs w) = Some x.
Proof.
  revert w. induction msgs as [|m t IH]; intros w Hq Hx; simpl; auto.
  apply IH; auto. now apply dispatch_settled.
Qed.

(** ** A waiter registered by [send] *)

Lemma waiting_other (id : string) (p t : nat) (ms : N) (acc : list Response)
  (m : Response) (w : World) :
  waiting id p t ms acc w -> response_id m <> id ->
  waiting id p t ms acc (dispatch m w).
Proof.
  intros (H1 & H2 & H3 & H4 & H5) Hne.
  destruct (dispatch_cases m w) as [-> | [s ->]].
  - assert (Hk : forall e, Map_get (response_id m) (pending w) = Some e ->
                           sink e <> BatchSink p /\ timer e <> Some t)
      by (intros e He; apply (H4 _ _ Hne He)).
    repeat split.
    + rewrite onResponse_pending_other; auto.
    + rewrite onResponse_promise_other; auto. intros e He. apply (Hk e He).
    + rewrite onResponse_timer_other; auto. intros e He. apply (Hk e He).
    + destruct (onResponse_entry_kept _ _ _ _ H0) as (e0 & He0 & Hs & _).
      rewrite Hs. apply (H4 _ _ H He0).
    + destruct (onResponse_entry_kept _ _ _ _ H0) as (e0 & He0 & _ & Ht).
      rewrite Ht. apply (H4 _ _ H He0).
    + now rewrite onResponse_hook.
  - destruct (update_stream_fields s (handler m) w) as (E1 & E2 & E3 & E4 & _).
    unfold waiting, promise_of. rewrite E1, E2, E3, E4.
    repeat split; auto; eapply H4; eauto.
Qed.

Lemma waiting_nonterminal (id : string) (p t : nat) (ms : N)
  (acc : list Response) (m : Response) (w : World) :
  waiting id p t ms acc w -> response_id m = id -> isTerminal m = false ->
  waiting id p t ms (acc ++ [m]) (dispatch m w).
Proof.
  intros (H1 & H2 & H3 & H4 & H5) <- Ht.
  rewrite dispatch_not_intercepted by exact H5.
  rewrite (onResponse_nonterminal m _ w H1 Ht). cbn [sink responses timer].
  repeat split; cbn [pending set_pending] in *; auto.
  - apply Map_get_set_eq.
  - rewrite Map_get_set_neq in H0 by congruence. apply (H4 _ _ H H0).
  - rewrite Map_get_set_neq in H0 by congruence. apply (H4 _ _ H H0).
Qed.

Lemma waiting_terminal (id : string) (p t : nat) (ms : N)
  (acc : list Response) (m : Response) (w : World) :
  waiting id p t ms acc w -> response_id m = id -> isTerminal m = true ->
  promise_of p (dispatch m w) = Some (Fulfilled (acc ++ [m]))
  /\ Map_get id (pending (dispatch m w)) = None
  /\ timer_lookup t (timers (dispatch m w)) = None.
Proof.
  intros (H1 & H2 & H3 & H4 & H5) <- Ht.
  rewrite dispatch_not_intercepted by exact H5.
  rewrite (onResponse_terminal m _ w H1 Ht).
  unfold resolve_entry, promise_resolve, promise_of.
  cbn [sink responses timer clear_timer clearTimeout promises pending timers
       set_promises set_pending set_timers].
  repeat split.
  - now apply settle_pending.
  - apply Map_get_delete_eq.
  - apply timer_lookup_cleared.
Qed.

Lemma timer_lookup_fresh (t : nat) (a : TimerAction)
  (l : list (nat * TimerAction)) :
  Forall (fun ta => fst ta < t) l ->
  timer_lookup t (l ++ [(t, a)]) = Some a.
Proof.
  induction 1 as [|[t0 a0] r H0 HF IH]; simpl.
  - now rewrite Nat.eqb_refl.
  - simpl in H0. destruct (Nat.eqb_spec t t0); [lia | exact IH].
Qed.

Lemma well_formed_entry (w : World) (k : string) (e : PendingRequest) :
  well_formed w -> Map_get k (pending w) = Some e ->
  (forall p, sink e = BatchSink p -> p < length (promises w))
  /\ (forall t, timer e = Some t -> t < next_timer w).
Proof.
  intros (W1 & W2 & _ & _) He. apply Map_get_In in He.
  rewrite Forall_forall in W1, W2. split.
  - intros p Hp. apply W1. apply in_flat_map. exists (k, e). split; auto.
    unfold batch_promise. cbn [snd]. rewrite Hp. now left.
  - intros t Ht. apply W2. apply in_flat_map. exists (k, e). split; auto.
    unfold entry_timer. cbn [snd]. rewrite Ht. now left.
Qed.

(** What a successful [send] leaves behind. *)
Lemma send_waiting (stringify : Request -> string) (request : Request)
  (ms : N) (w w1 : World) (p : nat) :
  well_formed w ->
  intercepts (request_id request) (onResponse_prop w) = false ->
  send stringify request ms WriteOk w = (w1, inr p) ->
  p = length (promises w)
  /\ waiting (request_id request) p (next_timer w) ms [] w1
  /\ map fst (pending w1) = map fst (Map_set (request_id request)
                                       (mkPending (BatchSink p) [] None)
                                       (pending w))
  /\ trace w1 = trace w ++ [SocketWrite (or_default (socket w) 0)
                                        (frame_of stringify request)].
Proof.
  intros W Hi. unfold send.
  destruct (not_connected w); [discriminate|].
  cbn [setTimeout]. intros [= <- <-].
  split; [reflexivity|]. split; [|split].
  - repeat split;
      cbn [pending promises timers onResponse_prop emit set_pending
           set_next_timer set_timers set_promises] in *; auto.
    + apply Map_get_set_eq.
    + unfold promise_of. cbn [promises emit set_pending set_next_timer
                              set_timers set_promises].
      rewrite nth_error_app2, Nat.sub_diag by lia. reflexivity.
    + apply timer_lookup_fresh. apply W.
    + rewrite Map_get_set_neq in H0 by congruence.
      destruct (well_formed_entry w k e W H0) as [Hp _].
      intros E. specialize (Hp _ E). lia.
    + rewrite Map_get_set_neq in H0 by congruence.
      destruct (well_formed_entry w k e W H0) as [_ Ht].
      intros E. specialize (Ht _ E). lia.
  - cbn [pending emit set_pending set_next_timer set_timers set_promises].
    generalize (pending w) as m. induction m as [|[k v] r IH]; simpl; auto.
    destruct (String.eqb (request_id request) k); simpl; congruence.
  - reflexivity.
Qed.


Lemma waiting_deliver_closed (id : string) (p t : nat) (ms : N)
  (msgs : list Response) :
  forall (acc : list Response) (w : World),
    waiting id p t ms acc w ->
    existsb isTerminal (for_id id msgs) = true ->
    promise_of p (deliver msgs w)
    = Some (Fulfilled (acc ++ upto_terminal (for_id id msgs))).
Proof.
  induction msgs as [|m rest IH]; intros acc w Hw Hex.
  - discriminate.
  - cbn [deliver fold_left for_id filter] in *.
    destruct (String.eqb_spec (response_id m) id) as [E|N].
    + cbn [existsb upto_terminal] in *. destruct (isTerminal m) eqn:Ht.
      * destruct (waiting_terminal id p t ms acc m w Hw E Ht) as (Hp & _).
        apply (deliver_settled p _ rest _ Hp). discriminate.
      * cbn [orb] in Hex.
        replace (acc ++ m :: upto_terminal
                   (filter (fun r => String.eqb (response_id r) id) rest))
          with ((acc ++ [m]) ++ upto_terminal (for_id id rest))
          by (rewrite <- app_assoc; reflexivity).
        apply IH; auto. now apply waiting_nonterminal.
    + apply IH; auto. now apply waiting_other.
Qed.



(** ** Batch exchanges (C3) *)


Lemma well_formed_connected0 : well_formed connected0.
Proof. repeat split; constructor. Qed.


(** ** Request timeout (C4) *)




(** ** Request ids (C7) *)

Ltac break_match :=
  match goal with
  | |- context [match ?x with _ => _ end] => destruct x eqn:?
  | |- context [if ?x then _ else _] => destruct x eqn:?
  end.

Lemma update_stream_nextId (s : nat) (f : StreamFrame -> StreamFrame)
  (w : World) : nextId (update_stream s f w) = nextId w.
Proof. apply update_stream_fields. Qed.

Lemma update_attempt_nextId (a : nat) (f : Attempt -> Attempt) (w : World) :
  nextId (update_attempt a f w) = nextId w.
Proof. unfold update_attempt. now destruct (nth_error (attempts w) a). Qed.

Lemma clear_timer_nextId (t : option nat) (w : World) :
  nextId (clear_timer t w) = nextId w.
Proof. now destruct t. Qed.

Lemma reject_entry_nextId (e : PendingRequest) (err : JsError) (w : World) :
  nextId (reject_entry e err w) = nextId w.
Proof.
  unfold reject_entry. destruct (sink e); auto using update_stream_nextId.
Qed.

Lemma reject_all_nextId (w : World) : nextId (reject_all w) = nextId w.
Proof.
  unfold reject_all. generalize (pending w) as l. intros l. revert w.
  induction l as [|kv l IH]; intros w; simpl; auto.
  rewrite IH. unfold reject_one. cbn [nextId set_pending].
  now rewrite reject_entry_nextId, clear_timer_nextId.
Qed.

Lemma onResponse_nextId (r : Response) (w : World) :
  nextId (onResponse r w) = nextId w.
Proof.
  unfold onResponse, resolve_entry.
  repeat break_match; cbn; rewrite ?clear_timer_nextId; auto.
Qed.

Lemma dispatch_nextId (r : Response) (w : World) :
  nextId (dispatch r w) = nextId w.
Proof.
  destruct (dispatch_cases r w) as [-> | [s ->]].
  - apply onResponse_nextId.
  - apply update_stream_nextId.
Qed.

Lemma onData_loop_nextId (parse : string -> option Response) (fuel : nat) :
  forall sd w sd' w',
    onData_loop parse fuel sd w = Some (sd', w') -> nextId w' = nextId w.
Proof.
  induction fuel as [|fuel IH]; intros sd w sd' w'; simpl; [discriminate|].
  destruct (indexOf (buffer sd) newline =? -1)%Z.
  - now intros [= _ <-].
  - intros H. apply IH in H. rewrite H.
    repeat break_match; auto using dispatch_nextId.
Qed.

Lemma attempt_settle_nextId (a : nat) (err : JsError) (w : World) :
  nextId (attempt_resolve a w) = nextId w
  /\ nextId (attempt_reject a err w) = nextId w.
Proof.
  unfold attempt_resolve, attempt_reject.
  split; repeat break_match; cbn; auto using update_attempt_nextId.
Qed.

Lemma run_finally_nextId (s : nat) (thrown : option JsError) (w : World) :
  nextId (run_finally s thrown w) = nextId w.
Proof.
  unfold run_finally. break_match; auto. now rewrite update_stream_nextId.
Qed.

Lemma leave_loop_nextId (s : nat) (w : World) :
  nextId (leave_loop s w) = nextId w.
Proof. unfold leave_loop. break_match; auto using run_finally_nextId. Qed.

Lemma loop_head_nextId (s : nat) (w : World) :
  nextId (loop_head s w) = nextId w.
Proof.
  unfold loop_head.
  repeat break_match; auto using leave_loop_nextId, update_stream_nextId.
Qed.

(** Only [generateId] writes [nextId]. *)
Lemma step_nextId (stringify : Request -> string)
  (parse : string -> option Response) (w : World) (ev : Event) :
  is_generateId ev = false ->
  nextId (step stringify parse w ev) = nextId w.
Proof.
  destruct ev; cbn [is_generateId step]; intros H; try discriminate.
  - unfold connect, setTimeout.
    destruct (negb (state_eqb (state w) Disconnected)); reflexivity.
  - unfold close. rewrite reject_all_nextId. now destruct (socket w).
  - unfold send, setTimeout, promise_reject.
    destruct (not_connected w); [reflexivity|]. destruct wr; reflexivity.
  - reflexivity.
  - unfold next, start.
    repeat break_match;
      rewrite ?loop_head_nextId, ?leave_loop_nextId, ?run_finally_nextId,
        ?update_stream_nextId; cbn;
      rewrite ?update_stream_nextId; reflexivity.
  - unfold gen_return.
    repeat break_match;
      rewrite ?run_finally_nextId, ?update_stream_nextId; reflexivity.
  - unfold resume.
    repeat break_match;
      rewrite ?leave_loop_nextId, ?update_stream_nextId; reflexivity.
  - unfold fire, promise_reject.
    repeat break_match; cbn;
      rewrite ?(proj2 (attempt_settle_nextId _ _ _)); reflexivity.
  - break_match; auto. unfold socket_open.
    rewrite (proj1 (attempt_settle_nextId a (ThrownError "") _)).
    cbn. apply clear_timer_nextId.
  - unfold socket_data. repeat break_match; auto.
    rewrite update_attempt_nextId.
    eapply onData_loop_nextId. unfold onData in *. eassumption.
  - break_match; auto. unfold onClose. now rewrite reject_all_nextId.
  - break_match; auto. unfold socket_error.
    rewrite (proj2 (attempt_settle_nextId _ _ _)). apply clear_timer_nextId.
Qed.

Lemma number_succ_le (n : N) : (n <= number_succ n)%N.
Proof. unfold number_succ. destruct (N.ltb_spec n MAX_EXACT); lia. Qed.

Lemma nextId_after_calls (k : N) (w : World) :
  (nextId w <= MAX_EXACT)%N ->
  nextId (after_calls k w) = N.min (nextId w + k) MAX_EXACT.
Proof.
  intros Hw. unfold after_calls.
  induction k as [|k IH] using N.peano_ind.
  - cbn. lia.
  - rewrite N.iter_succ. cbn [generateId snd nextId set_nextId] in *.
    rewrite IH. unfold number_succ.
    destruct (N.ltb_spec (N.min (nextId w + k) MAX_EXACT) MAX_EXACT); lia.
Qed.

Lemma id_of_call_initial (k : N) :
  id_of_call k initial = String_of_number (N.min (1 + k) MAX_EXACT).
Proof.
  unfold id_of_call. cbn [generateId fst].
  rewrite nextId_after_calls; [reflexivity|].
  cbn. unfold MAX_EXACT. lia.
Qed.

Lemma String_of_number_inj (a b : N) :
  String_of_number a = String_of_number b -> a = b.
Proof.
  unfold String_of_number. intros H.
  apply Unsigned.to_uint_inj.
  assert (E : NilEmpty.uint_of_string (NilEmpty.string_of_uint (N.to_uint a))
              = NilEmpty.uint_of_string (NilEmpty.string_of_uint (N.to_uint b)))
    by (now rewrite H).
  rewrite !NilEmpty.usu in E. congruence.
Qed.

(** The counter stops at 2^53: the call after 2^53 - 1 earlier ones and the
    call after 2^53 earlier ones return the same id. *)
Lemma generateId_repeats_at_2_53 :
  id_of_call 9007199254740991 initial = "9007199254740992"
  /\ id_of_call 9007199254740992 initial = "9007199254740992".
Proof.
  rewrite !id_of_call_initial. split; vm_compute; reflexivity.
Qed.

Lemma ids_of_run_counter (stringify : Request -> string)
  (parse : string -> option Response) (evs : list Event) :
  forall w,
    (nextId w + N.of_nat (length (filter is_generateId evs)) <= MAX_EXACT)%N ->
    ids_of_run stringify parse w evs
    = map (fun i => String_of_number (nextId w + N.of_nat i))
          (seq 0 (length (filter is_generateId evs))).
Proof.
  induction evs as [|ev evs IH]; intros w Hle; [reflexivity|].
  destruct (is_generateId ev) eqn:E.
  - destruct ev; try discriminate.
    cbn [ids_of_run filter is_generateId length seq map] in *.
    rewrite N.add_0_r. f_equal.
    rewrite IH; cbn [generateId snd nextId set_nextId]; unfold number_succ;
      destruct (N.ltb_spec (nextId w) MAX_EXACT); try lia.
    rewrite <- seq_shift, map_map. apply map_ext. intros i. f_equal. lia.
  - assert (X : ids_of_run stringify parse w (ev :: evs)
                = ids_of_run stringify parse (step stringify parse w ev) evs)
      by (destruct ev; try discriminate; reflexivity).
    rewrite X. cbn [filter]. rewrite E.
    rewrite IH; rewrite (step_nextId stringify parse w ev E); auto.
    cbn [filter] in Hle. now rewrite E in Hle.
Qed.

(** C7, amended.  On a new transport the call of [generateId] that follows
    [k] earlier calls returns the decimal string of [k + 1], for every
    [k < 2^53]: the first 2^53 ids are "1", "2", "3", ... and no two of them
    are equal.  This holds whatever else happens to the transport between
    the calls, since no other operation writes the counter, which never
    decreases: it is not reset by [close] or by a reconnect. *)
Theorem generateId_counts_up_to_2_53 :
  (forall k, (k < MAX_EXACT)%N ->
             id_of_call k initial = String_of_number (k + 1))
  /\ (forall i j, (i < j)%N -> (j < MAX_EXACT)%N ->
                  id_of_call i initial <> id_of_call j initial)
  /\ (forall stringify parse evs,
        (N.of_nat (length (filter is_generateId evs)) < MAX_EXACT)%N ->
        ids_of_run stringify parse initial evs
        = map (fun i => String_of_number (N.of_nat i))
              (seq 1 (length (filter is_generateId evs))))
  /\ (forall stringify parse w ev,
        is_generateId ev = false ->
        nextId (step stringify parse w ev) = nextId w)
  /\ (forall stringify parse w ev,
        (nextId w <= nextId (step stringify parse w ev))%N).
Proof.
  split; [|split; [|split; [|split]]].
  - intros k Hk. rewrite id_of_call_initial. f_equal. lia.
  - intros i j Hij Hj E. rewrite !id_of_call_initial in E.
    apply String_of_number_inj in E. lia.
  - intros stringify parse evs Hle.
    rewrite ids_of_run_counter by (cbn [nextId initial]; lia).
    rewrite <- seq_shift, map_map. apply map_ext.
    intros i. cbn [nextId initial]. f_equal. lia.
  - apply step_nextId.
  - intros stringify parse w ev. destruct (is_generateId ev) eqn:E.
    + destruct ev; try discriminate. apply number_succ_le.
    + rewrite step_nextId by exact E. lia.
Qed.

Lemma generateId_counts_up_to_2_53_witness :
  id_of_call 2 initial = "3"
  /\ id_of_call 1 initial <> id_of_call 2 initial
  /\ ids_of_run demo_stringify demo_parse initial
       [EvGenerateId; EvConnect (mkConnectOptions None None); EvSocketOpen 0;
        EvGenerateId; EvClose; EvConnect (mkConnectOptions None None);
        EvGenerateId]
     = ["1"; "2"; "3"].
Proof.
  destruct generateId_counts_up_to_2_53 as (H1 & H2 & H3 & _).
  split; [|split].
  - exact (H1 2%N eq_refl).
  - exact (H2 1%N 2%N eq_refl eq_refl).
  - exact (H3 demo_stringify demo_parse
              [EvGenerateId; EvConnect (mkConnectOptions None None);
               EvSocketOpen 0; EvGenerateId; EvClose;
               EvConnect (mkConnectOptions None None); EvGenerateId]
              eq_refl).
Defined.

(** ** Teardown (C6) *)

Lemma reject_entry_frame (e : PendingRequest) (err : JsError) (w : World) :
  pending (reject_entry e err w) = pending w
  /\ timers (reject_entry e err w) = timers w
  /\ state (reject_entry e err w) = state w
  /\ socket (reject_entry e err w) = socket w
  /\ trace (reject_entry e err w) = trace w.
Proof.
  unfold reject_entry, update_stream.
  destruct (sink e); [|destruct (nth_error (streams w) s)]; repeat split.
Qed.

Lemma reject_one_frame (w : World) (kv : string * PendingRequest) :
  pending (reject_one w kv) = Map_delete (fst kv) (pending w)
  /\ timers (reject_one w kv) = timers (clear_timer (timer (snd kv)) w)
  /\ state (reject_one w kv) = state w
  /\ socket (reject_one w kv) = socket w
  /\ trace (reject_one w kv) = trace w.
Proof.
  unfold reject_one. cbn [pending timers state socket trace set_pending].
  destruct (reject_entry_frame (snd kv) connection_closed
              (clear_timer (timer (snd kv)) w)) as (E1 & E2 & E3 & E4 & E5).
  unfold connection_closed in *. rewrite E1, E2, E3, E4, E5.
  destruct (timer (snd kv)); repeat split.
Qed.

Lemma reject_fold_frame (l : list (string * PendingRequest)) :
  forall w,
    pending (fold_left reject_one l w)
    = fold_left (fun m kv => Map_delete (fst kv) m) l (pending w)
    /\ state (fold_left reject_one l w) = state w
    /\ socket (fold_left reject_one l w) = socket w
    /\ trace (fold_left reject_one l w) = trace w.
Proof.
  induction l as [|kv l IH]; intros w; cbn [fold_left]; auto.
  destruct (IH (reject_one w kv)) as (E1 & E2 & E3 & E4).
  destruct (reject_one_frame w kv) as (F1 & _ & F3 & F4 & F5).
  rewrite E1, E2, E3, E4, F1, F3, F4, F5. auto.
Qed.

Lemma delete_all {V} (l m : list (string * V)) :
  (forall kv, In kv m -> In (fst kv) (map fst l)) ->
  fold_left (fun m kv => Map_delete (fst kv) m) l m = [].
Proof.
  revert m. induction l as [|a l IH]; intros m H; cbn [fold_left].
  - destruct m as [|kv m]; auto. destruct (H kv (or_introl eq_refl)).
  - apply IH. intros kv Hkv. unfold Map_delete in Hkv.
    apply filter_In in Hkv as [Hin Hne].
    destruct (H kv Hin) as [E|Hl]; auto.
    rewrite <- E, String.eqb_refl in Hne. discriminate.
Qed.

Lemma reject_all_pending (w : World) : pending (reject_all w) = [].
Proof.
  unfold reject_all. rewrite (proj1 (reject_fold_frame _ _)).
  apply delete_all. intros kv H. now apply in_map.
Qed.

Lemma reject_one_promises (w : World) (kv : string * PendingRequest) :
  promises (reject_one w kv)
  = match sink (snd kv) with
    | BatchSink p => settle p (Rejected connection_closed) (promises w)
    | StreamSink _ => promises w
    end.
Proof.
  unfold reject_one, reject_entry, promise_reject.
  cbn [promises set_pending].
  destruct (sink (snd kv)); cbn [promises set_promises].
  - now rewrite clear_timer_promises.
  - rewrite (proj1 (proj2 (update_stream_fields _ _ _))).
    now rewrite clear_timer_promises.
Qed.


Lemma reject_fold_unreferenced (p : nat) (l : list (string * PendingRequest)) :
  forall w,
    (forall kv, In kv l -> sink (snd kv) <> BatchSink p) ->
    promise_of p (fold_left reject_one l w) = promise_of p w.
Proof.
  induction l as [|kv l IH]; intros w H; cbn [fold_left]; auto.
  rewrite IH by (intros kv' Hk; apply H; now right).
  unfold promise_of. rewrite reject_one_promises.
  specialize (H kv (or_introl eq_refl)).
  destruct (sink (snd kv)) as [q|]; auto. apply settle_other. congruence.
Qed.


Lemma timer_lookup_filter_none (t : nat) (f : nat * TimerAction -> bool)
  (l : list (nat * TimerAction)) :
  timer_lookup t l = None -> timer_lookup t (filter f l) = None.
Proof.
  induction l as [|[t0 a] r IH]; simpl; auto.
  destruct (Nat.eqb t t0) eqn:E; [discriminate|].
  intros H. destruct (f (t0, a)); simpl; rewrite ?E; auto.
Qed.


Lemma errorHandler_idempotent (err : JsError) (fr : StreamFrame) :
  errorHandler err (errorHandler err fr) = errorHandler err fr.
Proof. unfold errorHandler. destruct (resolver fr); reflexivity. Qed.

Lemma update_stream_lookup (s s' : nat) (f : StreamFrame -> StreamFrame)
  (w : World) (fr : StreamFrame) :
  nth_error (streams w) s = Some fr ->
  nth_error (streams (update_stream s' f w)) s
  = Some (if Nat.eqb s s' then f fr else fr).
Proof.
  intros H. unfold update_stream.
  destruct (Nat.eqb_spec s s') as [<-|N].
  - rewrite H. cbn [streams set_streams].
    apply nth_error_list_set_eq. apply nth_error_Some. congruence.
  - destruct (nth_error (streams w) s'); auto.
    cbn [streams set_streams]. rewrite nth_error_list_set_neq; auto.
Qed.

Lemma reject_one_stream (s : nat) (fr : StreamFrame) (w : World)
  (kv : string * PendingRequest) :
  nth_error (streams w) s = Some fr ->
  nth_error (streams (reject_one w kv)) s
  = Some (match sink (snd kv) with
          | StreamSink s' =>
              if Nat.eqb s s' then errorHandler connection_closed fr else fr
          | BatchSink _ => fr
          end).
Proof.
  intros H. unfold reject_one, reject_entry. cbn [streams set_pending].
  assert (H' : nth_error (streams (clear_timer (timer (snd kv)) w)) s = Some fr)
    by (destruct (timer (snd kv)); exact H).
  destruct (sink (snd kv)) as [p|s'].
  - exact H'.
  - now apply update_stream_lookup.
Qed.

Lemma reject_fold_stream (s : nat) (fr : StreamFrame)
  (l : list (string * PendingRequest)) :
  forall w,
    nth_error (streams w) s = Some fr
    \/ nth_error (streams w) s = Some (errorHandler connection_closed fr) ->
    (nth_error (streams (fold_left reject_one l w)) s = Some fr
     \/ nth_error (streams (fold_left reject_one l w)) s
        = Some (errorHandler connection_closed fr))
    /\ ((nth_error (streams w) s = Some (errorHandler connection_closed fr)
         \/ exists kv, In kv l /\ sink (snd kv) = StreamSink s) ->
        nth_error (streams (fold_left reject_one l w)) s
        = Some (errorHandler connection_closed fr)).
Proof.
  induction l as [|a l IH]; intros w H; cbn [fold_left].
  - split; auto. intros [E|(kv & [] & _)]. exact E.
  - assert (St : nth_error (streams (reject_one w a)) s = Some fr
                 \/ nth_error (streams (reject_one w a)) s
                    = Some (errorHandler connection_closed fr)).
    { destruct H as [H|H]; rewrite (reject_one_stream s _ w a H);
        destruct (sink (snd a)) as [p|s']; auto;
        destruct (Nat.eqb s s'); auto.
      rewrite errorHandler_idempotent. auto. }
    destruct (IH _ St) as [I1 I2]. split; auto.
    intros [E|(kv & [->|Hin] & Hs)]; apply I2.
    + left. rewrite (reject_one_stream s _ w a E).
      destruct (sink (snd a)) as [p|s']; auto.
      destruct (Nat.eqb s s'); auto. now rewrite errorHandler_idempotent.
    + left. destruct H as [H|H]; rewrite (reject_one_stream s _ w kv H), Hs,
        Nat.eqb_refl; auto using errorHandler_idempotent.
      now rewrite errorHandler_idempotent.
    + right. eauto.
Qed.



Lemma close_unfold (w : World) :
  close w =
  fold_left reject_one (pending w)
    (set_state Disconnected
       match socket w with
       | Some s => set_socket None (emit (SocketEnd s) w)
       | None => w
       end).
Proof. unfold close, reject_all. now destruct (socket w). Qed.


Lemma close_result (w : World) :
  state (close w) = Disconnected
  /\ socket (close w) = None
  /\ pending (close w) = []
  /\ trace (close w)
     = trace w ++ match socket w with Some s => [SocketEnd s] | None => [] end.
Proof.
  split; [|split; [|split]].
  - rewrite close_unfold. now rewrite (proj1 (proj2 (reject_fold_frame _ _))).
  - rewrite close_unfold.
    rewrite (proj1 (proj2 (proj2 (reject_fold_frame _ _)))).
    destruct (socket w) eqn:E; cbn; auto.
  - unfold close. apply reject_all_pending.
  - rewrite close_unfold.
    rewrite (proj2 (proj2 (proj2 (reject_fold_frame _ _)))).
    destruct (socket w); cbn; auto using app_nil_r.
Qed.



(** ** Two sends with one id (C10) *)

Lemma Map_get_of_In {V} (k : string) (v : V) (m : list (string * V)) :
  NoDup (map fst m) -> In (k, v) m -> Map_get k m = Some v.
Proof.
  induction m as [|[k' v'] t IH]; simpl; intros Hnd Hin; [destruct Hin|].
  inversion Hnd as [|? ? Hnot Hnd']; subst.
  destruct Hin as [E|Hin].
  - inversion E; subst. now rewrite String.eqb_refl.
  - destruct (String.eqb_spec k k') as [->|N]; auto.
    exfalso. apply Hnot. apply (in_map fst) in Hin. exact Hin.
Qed.

Lemma In_Map_set_inv {V} (k id : string) (e v : V) (m : list (string * V)) :
  In (k, e) (Map_set id v m) -> (k, e) = (id, v) \/ In (k, e) m.
Proof.
  induction m as [|[k' v'] t IH]; simpl.
  - intros [E|[]]. left. now symmetry.
  - destruct (String.eqb id k'); simpl; intros [E|Hin];
      try (left; now symmetry); auto.
    destruct (IH Hin); auto.
Qed.

(** In a map, [set] leaves nothing of the entry it replaces. *)
Lemma In_Map_set_unique {V} (k id : string) (e v : V) (m : list (string * V)) :
  NoDup (map fst m) ->
  In (k, e) (Map_set id v m) ->
  (k = id /\ e = v) \/ (k <> id /\ In (k, e) m).
Proof.
  induction m as [|[k' v'] t IH]; simpl; intros Hnd.
  - intros [E|[]]. inversion E. auto.
  - inversion Hnd as [|? ? Hnot Hnd']; subst.
    destruct (String.eqb_spec id k') as [<-|N]; simpl.
    + intros [E|Hin]; [inversion E; auto|].
      right. split; auto. intros ->. apply Hnot.
      apply (in_map fst) in Hin. exact Hin.
    + intros [E|Hin].
      * inversion E; subst. right. split; auto.
      * destruct (IH Hnd' Hin) as [?|[? ?]]; auto.
Qed.

Lemma In_Map_delete {V} (k id : string) (e : V) (m : list (string * V)) :
  In (k, e) (Map_delete id m) -> k <> id /\ In (k, e) m.
Proof.
  unfold Map_delete. intros H. apply filter_In in H as [Hin Hne].
  split; auto. intros ->. cbn in Hne. rewrite String.eqb_refl in Hne.
  discriminate.
Qed.

Lemma onResponse_entry_from (k : string) (r : Response) (w : World)
  (e' : PendingRequest) :
  In (k, e') (pending (onResponse r w)) ->
  exists e, In (k, e) (pending w) /\ sink e' = sink e.
Proof.
  destruct (Map_get (response_id r) (pending w)) as [e0|] eqn:He.
  - destruct (isTerminal r) eqn:Ht.
    + rewrite (onResponse_terminal r e0 w He Ht).
      rewrite (proj1 (resolve_entry_fields _ _ _)). cbn [pending set_pending].
      intros H. apply In_Map_delete in H as [_ H]. eauto.
    + rewrite (onResponse_nonterminal r e0 w He Ht). cbn [pending set_pending].
      intros H. apply In_Map_set_inv in H as [E|H]; eauto.
      inversion E; subst. exists e0. split; auto. now apply Map_get_In.
  - rewrite onResponse_absent by exact He. eauto.
Qed.

(** A promise that the routing table does not lead to is out of the reach
    of every dispatch. *)
Lemma unreferenced_dispatch (p : nat) (m : Response) (w : World) :
  unreferenced p w ->
  unreferenced p (dispatch m w)
  /\ promise_of p (dispatch m w) = promise_of p w.
Proof.
  intros U. destruct (dispatch_cases m w) as [-> | [s ->]].
  - split.
    + intros k e' Hin.
      destruct (onResponse_entry_from _ _ _ _ Hin) as (e & He & ->).
      apply (U _ _ He).
    + apply onResponse_promise_other. intros e He.
      apply (U _ _ (Map_get_In _ _ _ He)).
  - destruct (update_stream_fields s (handler m) w) as (E1 & E2 & _).
    unfold unreferenced, promise_of. rewrite E1, E2. auto.
Qed.

Lemma unreferenced_deliver (p : nat) (msgs : list Response) :
  forall w,
    unreferenced p w -> promise_of p (deliver msgs w) = promise_of p w.
Proof.
  induction msgs as [|m rest IH]; intros w U; [reflexivity|].
  cbn [deliver fold_left].
  destruct (unreferenced_dispatch p m w U) as [U' E].
  fold (deliver rest (dispatch m w)). now rewrite IH.
Qed.

Lemma unreferenced_close (p : nat) (w : World) :
  unreferenced p w -> promise_of p (close w) = promise_of p w.
Proof.
  intros U. rewrite close_unfold.
  rewrite reject_fold_unreferenced.
  - unfold promise_of. now destruct (socket w).
  - intros [k e] Hin. apply (U _ _ Hin).
Qed.

Lemma timer_lookup_app (t : nat) (a : TimerAction)
  (l l' : list (nat * TimerAction)) :
  timer_lookup t l = Some a -> timer_lookup t (l ++ l') = Some a.
Proof.
  induction l as [|[t0 a0] r IH]; simpl; [discriminate|].
  destruct (Nat.eqb t t0); auto.
Qed.

Lemma timer_lookup_In (t : nat) (a : TimerAction)
  (l : list (nat * TimerAction)) :
  timer_lookup t l = Some a -> In (t, a) l.
Proof.
  induction l as [|[t0 a0] r IH]; simpl; [discriminate|].
  destruct (Nat.eqb_spec t t0) as [->|N]; intros H; auto.
  inversion H. auto.
Qed.

Lemma send_ok_fields (stringify : Request -> string) (request : Request)
  (ms : N) (w w1 : World) (p : nat) :
  send stringify request ms WriteOk w = (w1, inr p) ->
  p = length (promises w)
  /\ pending w1
     = Map_set (request_id request)
         (mkPending (BatchSink p) [] (Some (next_timer w))) (pending w)
  /\ promises w1 = promises w ++ [Pending]
  /\ timers w1
     = timers w ++ [(next_timer w, SendTimer (request_id request) p ms)]
  /\ onResponse_prop w1 = onResponse_prop w
  /\ streams w1 = streams w.
Proof.
  unfold send. destruct (not_connected w); [discriminate|].
  cbn [setTimeout]. intros [= <- <-]. repeat split.
Qed.


(** ** The invariant of reachable worlds *)

Lemma NoDup_keys_filter {V} (f : string * V -> bool) (l : list (string * V)) :
  NoDup (map fst l) -> NoDup (map fst (filter f l)).
Proof.
  induction l as [|a l IH]; simpl; intros H; [constructor|].
  inversion H as [|? ? Hnot Hnd]; subst.
  destruct (f a); simpl; auto. constructor; auto.
  intros Hin. apply Hnot. apply in_map_iff in Hin as (x & E & Hx).
  apply filter_In in Hx as [Hx _]. apply in_map_iff. eauto.
Qed.

Lemma In_keys_Map_set {V} (k k' : string) (v : V) (m : list (string * V)) :
  In k' (map fst (Map_set k v m)) -> k' = k \/ In k' (map fst m).
Proof.
  induction m as [|[k0 v0] t IH]; simpl.
  - intros [E|[]]. auto.
  - destruct (String.eqb_spec k k0) as [->|N]; simpl; intros [E|Hin]; auto.
    destruct (IH Hin); auto.
Qed.

Lemma NoDup_Map_set {V} (k : string) (v : V) (m : list (string * V)) :
  NoDup (map fst m) -> NoDup (map fst (Map_set k v m)).
Proof.
  induction m as [|[k0 v0] t IH]; simpl; intros H.
  - repeat constructor. intros [].
  - inversion H as [|? ? Hnot Hnd]; subst.
    destruct (String.eqb_spec k k0) as [->|N]; simpl.
    + constructor; auto.
    + constructor; auto. intros Hin.
      apply In_keys_Map_set in Hin as [E|Hin]; auto.
Qed.

Section Invariant.
Variable prot : option (nat * nat).

(** Entries may disappear or collect responses, timers may disappear. *)
Lemma Inv4_weaken pd pd' pr tm tm' nt :
  Inv4 prot pd pr tm nt ->
  NoDup (map fst pd') ->
  (forall k e', In (k, e') pd' ->
                exists e, In (k, e) pd
                          /\ sink e' = sink e /\ timer e' = timer e) ->
  incl tm' tm ->
  Inv4 prot pd' pr tm' nt.
Proof.
  intros I Hnd Hpd Htm. constructor.
  - intros k e' t Hin Ht. destruct (Hpd k e' Hin) as (e & He & _ & Et).
    rewrite Et in Ht. eapply inv_timer_bound; eauto.
  - intros t a Hin. eapply inv_timers_bound; eauto.
  - exact Hnd.
  - intros k e' p Hin Hs. destruct (Hpd k e' Hin) as (e & He & Es & _).
    rewrite Es in Hs. eapply inv_pending; eauto.
  - intros k e1 k' e2 p H1 H2 S1 S2.
    destruct (Hpd k e1 H1) as (x1 & X1 & E1 & _).
    destruct (Hpd k' e2 H2) as (x2 & X2 & E2 & _).
    rewrite E1 in S1. rewrite E2 in S2.
    eapply (inv_owner _ _ _ _ _ I); eauto.
  - intros t id q ms k e' Ht Hin Hs.
    destruct (Hpd k e' Hin) as (e & He & Es & _). rewrite Es in Hs.
    eapply (inv_timer_key _ _ _ _ _ I); eauto.
  - intros t id q ms Ht. eapply inv_timer_promise; eauto.
  - intros t id q ms t' id' ms' H1 H2.
    eapply (inv_timer_unique _ _ _ _ _ I); eauto.
  - intros p1 t1 E. destruct (inv_protected _ _ _ _ _ I p1 t1 E) as (A & B & C).
    repeat split; auto.
    + intros k e' Hin. destruct (Hpd k e' Hin) as (e & He & Es & _).
      rewrite Es. eauto.
    + intros t id ms Hin. eauto.
Qed.

Lemma Inv4_delete k pd pr tm nt :
  Inv4 prot pd pr tm nt -> Inv4 prot (Map_delete k pd) pr tm nt.
Proof.
  intros I. apply (Inv4_weaken pd _ pr tm tm nt I).
  - apply NoDup_keys_filter. eapply inv_keys; eauto.
  - intros k' e' Hin. apply In_Map_delete in Hin as [_ Hin]. eauto.
  - apply incl_refl.
Qed.

Lemma Inv4_clear f pd pr tm nt :
  Inv4 prot pd pr tm nt -> Inv4 prot pd pr (filter f tm) nt.
Proof.
  intros I. apply (Inv4_weaken pd pd pr tm _ nt I).
  - eapply inv_keys; eauto.
  - eauto.
  - intros x Hx. apply filter_In in Hx. tauto.
Qed.

(** A response is appended to the entry under [k]. *)
Lemma Inv4_touch k e rs pd pr tm nt :
  Inv4 prot pd pr tm nt ->
  Map_get k pd = Some e ->
  Inv4 prot (Map_set k (mkPending (sink e) rs (timer e)) pd) pr tm nt.
Proof.
  intros I He. apply (Inv4_weaken pd _ pr tm tm nt I).
  - apply NoDup_Map_set. eapply inv_keys; eauto.
  - intros k' e' Hin. apply In_Map_set_inv in Hin as [E|Hin]; eauto.
    inversion E; subst. exists e. split; auto. now apply Map_get_In.
  - apply incl_refl.
Qed.

(** A promise the table does not lead to is settled. *)
Lemma Inv4_settle p v pd pr tm nt :
  Inv4 prot pd pr tm nt ->
  (forall k e, In (k, e) pd -> sink e <> BatchSink p) ->
  (forall p1 t1, prot = Some (p1, t1) -> p <> p1) ->
  Inv4 prot pd (settle p v pr) tm nt.
Proof.
  intros I Hun Hprot. constructor.
  - eapply inv_timer_bound; eauto.
  - eapply inv_timers_bound; eauto.
  - eapply inv_keys; eauto.
  - intros k e q Hin Hs. rewrite settle_other.
    + eapply inv_pending; eauto.
    + intros ->. apply (Hun k e Hin Hs).
  - eapply inv_owner; eauto.
  - eapply inv_timer_key; eauto.
  - intros t id q ms Hin. rewrite settle_length.
    eapply inv_timer_promise; eauto.
  - eapply inv_timer_unique; eauto.
  - intros p1 t1 E. destruct (inv_protected _ _ _ _ _ I p1 t1 E) as (A & B & C).
    repeat split; auto. rewrite settle_other; auto. apply (Hprot p1 t1 E).
Qed.

(** The entry under [k] goes and the promise it led to is settled. *)
Lemma Inv4_complete k p v pd pr tm nt :
  Inv4 prot pd pr tm nt ->
  (forall k' e', In (k', e') pd -> sink e' = BatchSink p -> k' = k) ->
  (forall p1 t1, prot = Some (p1, t1) -> p <> p1) ->
  Inv4 prot (Map_delete k pd) (settle p v pr) tm nt.
Proof.
  intros I Hk Hprot. apply Inv4_settle; auto using Inv4_delete.
  intros k' e' Hin Hs. apply In_Map_delete in Hin as [Hne Hin].
  apply Hne. eauto.
Qed.

(** [send] registers a waiter with a new promise and a new timer. *)
Lemma Inv4_send id ms pd pr tm nt :
  Inv4 prot pd pr tm nt ->
  Inv4 prot
    (Map_set id (mkPending (BatchSink (length pr)) [] (Some nt)) pd)
    (pr ++ [Pending])
    (tm ++ [(nt, SendTimer id (length pr) ms)])
    (S nt).
Proof.
  intros I.
  assert (Old : forall k e p, In (k, e) pd -> sink e = BatchSink p ->
                              p < length pr).
  { intros k e p Hin Hs. apply nth_error_Some.
    rewrite (inv_pending _ _ _ _ _ I k e p Hin Hs). discriminate. }
  assert (Ent : forall k e,
             In (k, e) (Map_set id (mkPending (BatchSink (length pr)) []
                                              (Some nt)) pd) ->
             (k = id /\ e = mkPending (BatchSink (length pr)) [] (Some nt))
             \/ (k <> id /\ In (k, e) pd)).
  { intros k e. apply In_Map_set_unique. eapply inv_keys; eauto. }
  constructor.
  - intros k e t Hin Ht. destruct (Ent k e Hin) as [[_ ->]|[_ Hin']].
    + inversion Ht. lia.
    + pose proof (inv_timer_bound _ _ _ _ _ I k e t Hin' Ht). lia.
  - intros t a Hin. apply in_app_or in Hin as [Hin|[E|[]]].
    + pose proof (inv_timers_bound _ _ _ _ _ I t a Hin). lia.
    + inversion E. lia.
  - apply NoDup_Map_set. eapply inv_keys; eauto.
  - intros k e p Hin Hs. destruct (Ent k e Hin) as [[_ ->]|[_ Hin']].
    + inversion Hs. rewrite nth_error_app2, Nat.sub_diag by lia. reflexivity.
    + rewrite nth_error_app1 by eauto. eapply inv_pending; eauto.
  - intros k e k' e' p H1 H2 S1 S2.
    destruct (Ent k e H1) as [[-> ->]|[N1 H1']];
      destruct (Ent k' e' H2) as [[-> ->]|[N2 H2']]; auto.
    + inversion S1; subst. pose proof (Old _ _ _ H2' S2). lia.
    + inversion S2; subst. pose proof (Old _ _ _ H1' S1). lia.
    + eapply (inv_owner _ _ _ _ _ I); eauto.
  - intros t id' q ms' k e Ht Hin Hs.
    apply in_app_or in Ht as [Ht|[E|[]]];
      destruct (Ent k e Hin) as [[-> ->]|[N Hin']].
    + inversion Hs; subst.
      pose proof (inv_timer_promise _ _ _ _ _ I _ _ _ _ Ht). lia.
    + eapply (inv_timer_key _ _ _ _ _ I); eauto.
    + now inversion E.
    + inversion E; subst. pose proof (Old _ _ _ Hin' Hs). lia.
  - intros t id' q ms' Ht. rewrite length_app. cbn.
    apply in_app_or in Ht as [Ht|[E|[]]].
    + pose proof (inv_timer_promise _ _ _ _ _ I _ _ _ _ Ht). lia.
    + inversion E. lia.
  - intros t id1 q ms1 t' id2 ms2 H1 H2.
    apply in_app_or in H1 as [H1|[E1|[]]];
      apply in_app_or in H2 as [H2|[E2|[]]].
    + eapply (inv_timer_unique _ _ _ _ _ I); eauto.
    + inversion E2; subst.
      pose proof (inv_timer_promise _ _ _ _ _ I _ _ _ _ H1). lia.
    + inversion E1; subst.
      pose proof (inv_timer_promise _ _ _ _ _ I _ _ _ _ H2). lia.
    + inversion E1. inversion E2. congruence.
  - intros p1 t1 E. destruct (inv_protected _ _ _ _ _ I p1 t1 E) as (A & B & C).
    assert (p1 < length pr) by (apply nth_error_Some; congruence).
    repeat split.
    + rewrite nth_error_app1; auto.
    + intros k e Hin. destruct (Ent k e Hin) as [[_ ->]|[_ Hin']]; eauto.
      cbn. intros [= ?]. lia.
    + intros t id' ms' Hin. apply in_app_or in Hin as [Hin|[X|[]]]; eauto.
      inversion X. lia.
Qed.

(** [stream] registers its entry: no promise, no timer. *)
Lemma Inv4_stream id s pd pr tm nt :
  Inv4 prot pd pr tm nt ->
  Inv4 prot (Map_set id (mkPending (StreamSink s) [] None) pd) pr tm nt.
Proof.
  intros I.
  assert (Ent : forall k e,
             In (k, e) (Map_set id (mkPending (StreamSink s) [] None) pd) ->
             e = mkPending (StreamSink s) [] None \/ In (k, e) pd).
  { intros k e Hin. apply In_Map_set_inv in Hin as [E|Hin]; auto.
    inversion E. auto. }
  constructor.
  - intros k e t Hin Ht. destruct (Ent k e Hin) as [->|Hin']; [discriminate|].
    eapply inv_timer_bound; eauto.
  - eapply inv_timers_bound; eauto.
  - apply NoDup_Map_set. eapply inv_keys; eauto.
  - intros k e p Hin Hs. destruct (Ent k e Hin) as [->|Hin']; [discriminate|].
    eapply inv_pending; eauto.
  - intros k e k' e' p H1 H2 S1 S2.
    destruct (Ent k e H1) as [->|H1']; [discriminate|].
    destruct (Ent k' e' H2) as [->|H2']; [discriminate|].
    eapply (inv_owner _ _ _ _ _ I); eauto.
  - intros t id' q ms k e Ht Hin Hs.
    destruct (Ent k e Hin) as [->|Hin']; [discriminate|].
    eapply (inv_timer_key _ _ _ _ _ I); eauto.
  - eapply inv_timer_promise; eauto.
  - eapply inv_timer_unique; eauto.
  - intros p1 t1 E. destruct (inv_protected _ _ _ _ _ I p1 t1 E) as (A & B & C).
    repeat split; auto.
    intros k e Hin. destruct (Ent k e Hin) as [->|Hin']; [discriminate|eauto].
Qed.

(** [connect] arms its timer. *)
Lemma Inv4_connect a pd pr tm nt :
  Inv4 prot pd pr tm nt ->
  Inv4 prot pd pr (tm ++ [(nt, ConnectTimer a)]) (S nt).
Proof.
  intros I. constructor.
  - intros k e t Hin Ht.
    pose proof (inv_timer_bound _ _ _ _ _ I k e t Hin Ht). lia.
  - intros t x Hin. apply in_app_or in Hin as [Hin|[E|[]]].
    + pose proof (inv_timers_bound _ _ _ _ _ I t x Hin). lia.
    + inversion E. lia.
  - eapply inv_keys; eauto.
  - eapply inv_pending; eauto.
  - eapply inv_owner; eauto.
  - intros t id q ms k e Ht Hin Hs.
    apply in_app_or in Ht as [Ht|[E|[]]]; [|discriminate].
    eapply (inv_timer_key _ _ _ _ _ I); eauto.
  - intros t id q ms Ht.
    apply in_app_or in Ht as [Ht|[E|[]]]; [|discriminate].
    eapply inv_timer_promise; eauto.
  - intros t id q ms t' id' ms' H1 H2.
    apply in_app_or in H1 as [H1|[E|[]]]; [|discriminate].
    apply in_app_or in H2 as [H2|[E|[]]]; [|discriminate].
    eapply (inv_timer_unique _ _ _ _ _ I); eauto.
  - intros p1 t1 E. destruct (inv_protected _ _ _ _ _ I p1 t1 E) as (A & B & C).
    repeat split; auto.
    intros t id ms Hin. apply in_app_or in Hin as [Hin|[X|[]]]; eauto.
    discriminate.
Qed.

End Invariant.

Section InvariantSteps.
Variable prot : option (nat * nat).
Variable stringify : Request -> string.
Variable parse : string -> option Response.

Lemma inv_update_stream s f w :
  inv prot w -> inv prot (update_stream s f w).
Proof.
  intros I. unfold update_stream.
  destruct (nth_error (streams w) s); exact I.
Qed.

Lemma inv_update_attempt a f w :
  inv prot w -> inv prot (update_attempt a f w).
Proof.
  intros I. unfold update_attempt.
  destruct (nth_error (attempts w) a); exact I.
Qed.

Lemma inv_clear_timer t w : inv prot w -> inv prot (clear_timer t w).
Proof.
  intros I. destruct t as [t|]; [|exact I]. apply Inv4_clear. exact I.
Qed.

Lemma inv_attempt_resolve a w : inv prot w -> inv prot (attempt_resolve a w).
Proof.
  intros I. unfold attempt_resolve.
  destruct (nth_error (attempts w) a) as [x|]; [|exact I].
  destruct (a_promise x); try exact I.
  apply (inv_update_attempt a _ w I).
Qed.

Lemma inv_attempt_reject a err w :
  inv prot w -> inv prot (attempt_reject a err w).
Proof.
  intros I. unfold attempt_reject.
  destruct (nth_error (attempts w) a) as [x|]; [|exact I].
  destruct (a_promise x); try exact I.
  apply (inv_update_attempt a _ w I).
Qed.

(** The protected promise is not the promise of any entry. *)
Lemma inv_entry_not_protected w k e p :
  inv prot w -> In (k, e) (pending w) -> sink e = BatchSink p ->
  forall p1 t1, prot = Some (p1, t1) -> p <> p1.
Proof.
  intros I Hin Hs p1 t1 E ->.
  destruct (inv_protected _ _ _ _ _ I p1 t1 E) as (_ & B & _).
  apply (B k e Hin Hs).
Qed.

(** An entry completes: its timer is cleared, its key deleted, and its
    promise, if it has one, settled. *)
Lemma inv_entry_completes w k e v :
  inv prot w -> In (k, e) (pending w) ->
  Inv4 prot (Map_delete k (pending w))
       match sink e with
       | BatchSink p => settle p v (promises w)
       | StreamSink _ => promises w
       end
       (timers (clear_timer (timer e) w)) (next_timer w).
Proof.
  intros I Hin.
  pose proof (inv_clear_timer (timer e) w I) as Ic. unfold inv in Ic.
  rewrite clear_timer_pending, clear_timer_promises in Ic.
  replace (next_timer (clear_timer (timer e) w)) with (next_timer w) in Ic
    by (now destruct (timer e)).
  destruct (sink e) as [p|s] eqn:Hs.
  - apply Inv4_complete; auto.
    + intros k' e' Hin' Hs'.
      apply (inv_owner _ _ _ _ _ I k' e' k e p Hin' Hin Hs' Hs).
    + apply (inv_entry_not_protected w k e p I Hin Hs).
  - now apply Inv4_delete.
Qed.

Lemma inv_reject_one w kv :
  inv prot w -> In kv (pending w) -> inv prot (reject_one w kv).
Proof.
  intros I Hin. destruct kv as [k e].
  pose proof (inv_entry_completes w k e (Rejected connection_closed) I Hin)
    as C.
  unfold inv.
  destruct (reject_one_frame w (k, e)) as (E1 & E2 & _).
  rewrite E1, E2, reject_one_promises. cbn [fst snd].
  replace (next_timer (reject_one w (k, e))) with (next_timer w); [exact C|].
  unfold reject_one, reject_entry, update_stream. cbn [snd].
  destruct (sink e); destruct (timer e); cbn;
    try destruct (nth_error _ _); reflexivity.
Qed.

Lemma inv_reject_fold l :
  forall w,
    inv prot w -> NoDup (map fst l) -> incl l (pending w) ->
    inv prot (fold_left reject_one l w).
Proof.
  induction l as [|a l IH]; intros w I Hnd Hincl; cbn [fold_left]; auto.
  inversion Hnd as [|? ? Hnot Hnd']; subst.
  apply IH; auto.
  - apply inv_reject_one; auto. apply Hincl. now left.
  - intros x Hx. rewrite (proj1 (reject_one_frame w a)).
    unfold Map_delete. apply filter_In. split.
    + apply Hincl. now right.
    + apply negb_true_iff. apply String.eqb_neq. intros E.
      apply Hnot. rewrite E. now apply in_map.
Qed.

Lemma inv_reject_all w : inv prot w -> inv prot (reject_all w).
Proof.
  intros I. apply inv_reject_fold; auto.
  - eapply inv_keys; eauto.
  - apply incl_refl.
Qed.

Lemma inv_close w : inv prot w -> inv prot (close w).
Proof.
  intros I. unfold close. apply inv_reject_all.
  destruct (socket w); exact I.
Qed.

Lemma inv_onClose w : inv prot w -> inv prot (onClose w).
Proof. intros I. unfold onClose. apply inv_reject_all. exact I. Qed.

Lemma inv_onResponse r w : inv prot w -> inv prot (onResponse r w).
Proof.
  intros I.
  destruct (Map_get (response_id r) (pending w)) as [e|] eqn:He.
  - destruct (isTerminal r) eqn:Ht.
    + rewrite (onResponse_terminal r e w He Ht).
      pose proof (inv_entry_completes w (response_id r) e
                    (Fulfilled (responses e ++ [r])) I (Map_get_In _ _ _ He))
        as C.
      unfold inv, resolve_entry, promise_resolve.
      destruct (sink e); destruct (timer e); exact C.
    + rewrite (onResponse_nonterminal r e w He Ht).
      apply (Inv4_touch prot _ e _ _ _ _ _ I He).
  - now rewrite onResponse_absent.
Qed.

Lemma inv_dispatch r w : inv prot w -> inv prot (dispatch r w).
Proof.
  intros I. destruct (dispatch_cases r w) as [-> | [s ->]].
  - now apply inv_onResponse.
  - now apply inv_update_stream.
Qed.

Lemma inv_onData_loop fuel :
  forall sd w sd' w',
    onData_loop parse fuel sd w = Some (sd', w') ->
    inv prot w -> inv prot w'.
Proof.
  induction fuel as [|fuel IH]; intros sd w sd' w'; simpl; [discriminate|].
  destruct (indexOf (buffer sd) newline =? -1)%Z.
  - now intros [= _ <-].
  - intros H I. apply (IH _ _ _ _ H).
    destruct (truthy _); auto. destruct (parse _); auto using inv_dispatch.
Qed.

Lemma inv_socket_data a chunk w :
  inv prot w -> inv prot (socket_data parse a chunk w).
Proof.
  intros I. unfold socket_data.
  destruct (nth_error (attempts w) a) as [x|]; auto.
  destruct (onData parse (a_data x) chunk w) as [[sd w']|] eqn:E; auto.
  apply inv_update_attempt. unfold onData in E.
  apply (inv_onData_loop _ _ _ _ _ E I).
Qed.

Lemma inv_connect options w :
  inv prot w -> inv prot (fst (connect options w)).
Proof.
  intros I. unfold connect, setTimeout.
  destruct (negb (state_eqb (state w) Disconnected)); [exact I|].
  apply (Inv4_connect prot _ _ _ _ _ I).
Qed.

Lemma inv_send request ms wr w :
  inv prot w -> inv prot (fst (send stringify request ms wr w)).
Proof.
  intros I. unfold send, setTimeout.
  destruct (not_connected w); [exact I|].
  pose proof (Inv4_send prot (request_id request) ms _ _ _ _ I) as S.
  destruct wr as [|message]; [exact S|].
  unfold inv, promise_reject.
  cbn [fst pending promises timers next_timer set_promises set_pending
       set_timers set_next_timer clear_timer clearTimeout timer].
  apply Inv4_complete.
  - apply Inv4_clear. exact S.
  - intros k e Hin Hs.
    apply In_Map_set_unique in Hin; [|eapply inv_keys; eauto].
    destruct Hin as [[-> _]|[_ Hin]]; auto.
    assert (length (promises w) < length (promises w)); [|lia].
    apply nth_error_Some.
    rewrite (inv_pending _ _ _ _ _ I k e _ Hin Hs). discriminate.
  - intros p1 t1 E Heq.
    destruct (inv_protected _ _ _ _ _ I _ t1 E) as (A & _).
    assert (p1 < length (promises w)); [|lia].
    apply nth_error_Some. congruence.
Qed.

Lemma inv_run_finally s thrown w :
  inv prot w -> inv prot (run_finally s thrown w).
Proof.
  intros I. unfold run_finally.
  destruct (nth_error (streams w) s) as [fr|]; auto.
  apply inv_update_stream. apply Inv4_delete. exact I.
Qed.

Lemma inv_leave_loop s w : inv prot w -> inv prot (leave_loop s w).
Proof.
  intros I. unfold leave_loop.
  destruct (nth_error (streams w) s); auto using inv_run_finally.
Qed.

Lemma inv_loop_head s w : inv prot w -> inv prot (loop_head s w).
Proof.
  intros I. unfold loop_head.
  destruct (nth_error (streams w) s) as [fr|]; auto.
  destruct (negb (s_done fr) && negb (is_some (s_error fr)));
    [|now apply inv_leave_loop].
  destruct (queue fr); now apply inv_update_stream.
Qed.

Lemma inv_start s wr w : inv prot w -> inv prot (start stringify s wr w).
Proof.
  intros I. unfold start.
  destruct (nth_error (streams w) s) as [fr|]; auto.
  destruct (not_connected w); [now apply inv_update_stream|].
  assert (J : inv prot
                (set_onResponse
                   (StreamOverride s (request_id (s_request fr))
                      (onResponse_prop w))
                   (update_stream s
                      (fun fr0 => mkStream (s_request fr0) [] false None false
                                    (onResponse_prop w) (gen fr0) (yielded fr0))
                      (set_pending
                         (Map_set (request_id (s_request fr))
                            (mkPending (StreamSink s) [] None) (pending w))
                         w)))).
  { assert (K : inv prot
                  (set_pending
                     (Map_set (request_id (s_request fr))
                        (mkPending (StreamSink s) [] None) (pending w)) w))
      by (apply (Inv4_stream prot _ s _ _ _ _ I)).
    exact (inv_update_stream s _ _ K). }
  destruct wr.
  - apply inv_loop_head. exact J.
  - apply inv_run_finally. exact J.
Qed.

Lemma inv_next s wr w : inv prot w -> inv prot (next stringify s wr w).
Proof.
  intros I. unfold next.
  destruct (nth_error (streams w) s) as [fr|]; auto.
  destruct (gen fr); auto using inv_start.
  destruct (isTerminal response); auto using inv_leave_loop, inv_loop_head.
Qed.

Lemma inv_resume s w : inv prot w -> inv prot (resume s w).
Proof.
  intros I. unfold resume.
  destruct (nth_error (streams w) s) as [fr|]; auto.
  destruct (gen fr); auto.
  destruct result; auto using inv_leave_loop, inv_update_stream.
Qed.

Lemma inv_gen_return s w : inv prot w -> inv prot (gen_return s w).
Proof.
  intros I. unfold gen_return.
  destruct (nth_error (streams w) s) as [fr|]; auto.
  destruct (gen fr); auto using inv_run_finally, inv_update_stream.
Qed.

Lemma inv_fire t w :
  spares prot (EvTimer t) -> inv prot w -> inv prot (fire t w).
Proof.
  intros Sp I. unfold fire.
  destruct (timer_lookup t (timers w)) as [act|] eqn:Ht; auto.
  apply timer_lookup_In in Ht.
  destruct act as [id p ms|a].
  - unfold inv, promise_reject.
    cbn [pending promises timers next_timer set_promises set_pending
         set_timers clearTimeout].
    apply Inv4_complete.
    + apply Inv4_clear. exact I.
    + intros k e Hin Hs.
      apply (inv_timer_key _ _ _ _ _ I t id p ms k e Ht Hin Hs).
    + intros p1 t1 E ->.
      destruct (inv_protected _ _ _ _ _ I _ t1 E) as (_ & _ & C).
      apply (Sp _ t1 E). f_equal. eapply C. exact Ht.
  - assert (J : inv prot (clearTimeout t w)) by (apply Inv4_clear; exact I).
    destruct (nth_error (attempts (clearTimeout t w)) a);
      auto using inv_attempt_reject.
Qed.

Lemma inv_socket_open a w : inv prot w -> inv prot (socket_open a w).
Proof.
  intros I. unfold socket_open. apply inv_attempt_resolve.
  apply (inv_clear_timer (attempt_timer a w) w I).
Qed.

Lemma inv_socket_error a message w :
  inv prot w -> inv prot (socket_error a message w).
Proof.
  intros I. unfold socket_error. apply inv_attempt_reject.
  apply (inv_clear_timer (attempt_timer a w) w I).
Qed.

(** Every event keeps the invariant, the firing of the timer of the
    protected promise apart. *)
Lemma inv_step w ev :
  spares prot ev -> inv prot w -> inv prot (step stringify parse w ev).
Proof.
  intros Sp I. destruct ev; cbn [step].
  - exact I.
  - now apply inv_connect.
  - now apply inv_close.
  - now apply inv_send.
  - exact I.
  - now apply inv_next.
  - now apply inv_gen_return.
  - now apply inv_resume.
  - now apply inv_fire.
  - destruct (a <? length (attempts w))%nat; auto using inv_socket_open.
  - now apply inv_socket_data.
  - destruct (a <? length (attempts w))%nat; auto using inv_onClose.
  - destruct (a <? length (attempts w))%nat; auto using inv_socket_error.
Qed.

Lemma inv_run evs :
  forall w,
    Forall (spares prot) evs -> inv prot w ->
    inv prot (run stringify parse w evs).
Proof.
  induction evs as [|ev evs IH]; intros w Sp I; [exact I|].
  inversion Sp; subst. cbn [run fold_left]. apply IH; auto.
  now apply inv_step.
Qed.

End InvariantSteps.

Lemma inv_initial : inv None initial.
Proof.
  constructor; cbn; try (intros; contradiction); try constructor.
  all: discriminate.
Qed.

(** Every transport that can be built satisfies the invariant. *)
Lemma reachable_inv (stringify : Request -> string)
  (parse : string -> option Response) (w : World) :
  reachable stringify parse w -> inv None w.
Proof.
  intros [evs ->]. apply inv_run; [|exact inv_initial].
  apply Forall_forall. intros ev _ p1 t1. discriminate.
Qed.

Lemma inv_well_formed (prot : option (nat * nat)) (w : World) :
  inv prot w -> well_formed w.
Proof.
  intros I. repeat split.
  - apply Forall_forall. intros p Hin.
    apply in_flat_map in Hin as ([k e] & Hin & Hp).
    unfold batch_promise in Hp. cbn [snd] in Hp.
    destruct (sink e) as [q|] eqn:Hs; [|destruct Hp].
    destruct Hp as [<-|[]]. apply nth_error_Some.
    rewrite (inv_pending _ _ _ _ _ I k e q Hin Hs). discriminate.
  - apply Forall_forall. intros t Hin.
    apply in_flat_map in Hin as ([k e] & Hin & Ht).
    unfold entry_timer in Ht. cbn [snd] in Ht.
    destruct (timer e) as [t'|] eqn:Hs; [|destruct Ht].
    destruct Ht as [<-|[]]. eapply inv_timer_bound; eauto.
  - apply Forall_forall. intros [t a] Hin. eapply inv_timers_bound; eauto.
  - eapply inv_keys; eauto.
Qed.

Lemma reachable_well_formed (stringify : Request -> string)
  (parse : string -> option Response) (w : World) :
  reachable stringify parse w -> well_formed w.
Proof. intros H. eapply inv_well_formed, reachable_inv, H. Qed.

(** ** Teardown, on reachable worlds (C6) *)



(** ** The earlier of two waiters (C10) *)

(** C10.  Let id X have a pending waiter registered by a [send]: promise
    [p1], timer [t1].  A second [send] with the same id replaces the entry
    in place: the table has the same keys as before and X now leads to the
    new waiter, with a new promise and a new timer.  The table no longer
    leads to [p1]: whatever responses are dispatched, [p1] stays pending,
    while the responses for X are collected by the new waiter and resolve
    the new promise.  More generally [p1] stays pending along every sequence
    of events in which its own timer does not fire: nothing else settles
    it, and [close] does not reach it either.  When the
    timer of the earlier waiter fires, it rejects [p1] with the timeout
    error and deletes the entry keyed by X, which is the entry of the later
    waiter: the later promise is still pending, its timer still armed, and
    no dispatch reaches it any more. *)
Theorem duplicate_id_overwrites_waiter :
  forall stringify request ms2 w w2 p2 p1 t1 ms1 acc,
    inv None w ->
    waiting (request_id request) p1 t1 ms1 acc w ->
    send stringify request ms2 WriteOk w = (w2, inr p2) ->
    let id := request_id request in
    let t2 := next_timer w in
    let w3 := fire t1 w2 in
    (p2 <> p1 /\ t2 <> t1
     /\ Map_get id (pending w2) = Some (mkPending (BatchSink p2) [] (Some t2))
     /\ map fst (pending w2) = map fst (pending w))
    /\ (promise_of p1 w2 = Some Pending
        /\ unreferenced p1 w2
        /\ (forall msgs, promise_of p1 (deliver msgs w2) = Some Pending)
        /\ promise_of p1 (close w2) = Some Pending
        /\ (forall parse evs,
              Forall (fun ev => ev <> EvTimer t1) evs ->
              promise_of p1 (run stringify parse w2 evs) = Some Pending))
    /\ (forall msgs,
          existsb isTerminal (for_id id msgs) = true ->
          promise_of p2 (deliver msgs w2)
          = Some (Fulfilled (upto_terminal (for_id id msgs))))
    /\ (promise_of p1 w3
        = Some (Rejected (TimeoutError (timeout_message ("Request " ++ id) ms1)))
        /\ Map_get id (pending w3) = None
        /\ promise_of p2 w3 = Some Pending
        /\ timer_lookup t2 (timers w3) = Some (SendTimer id p2 ms2)
        /\ unreferenced p2 w3
        /\ (forall msgs, promise_of p2 (deliver msgs w3) = Some Pending)).
Proof.
  intros stringify request ms2 w w2 p2 p1 t1 ms1 acc I Hw Hs id t2 w3.
  pose proof (inv_well_formed None w I) as W.
  pose proof Hw as (H1 & H2 & H3 & H4 & H5).
  destruct (send_waiting stringify request ms2 w w2 p2 W H5 Hs)
    as (_ & Hw2 & _).
  destruct (send_ok_fields stringify request ms2 w w2 p2 Hs)
    as (Ep & Epend & Eprom & Etim & Ehook & _).
  fold id in Epend, Etim, Hw2, H1, H3, H4, H5. fold t2 in Epend, Etim, Hw2.
  assert (Np : p1 < p2).
  { rewrite Ep. apply nth_error_Some. unfold promise_of in H2. congruence. }
  assert (Nt : t1 < t2).
  { destruct W as (_ & _ & W3 & _). rewrite Forall_forall in W3.
    apply (W3 (t1, SendTimer id p1 ms1)). now apply timer_lookup_In. }
  assert (P1 : promise_of p1 w2 = Some Pending).
  { unfold promise_of in *. rewrite Eprom.
    rewrite nth_error_app1; auto. lia. }
  assert (U1 : unreferenced p1 w2).
  { intros k e Hin. rewrite Epend in Hin.
    apply In_Map_set_unique in Hin; [|apply W].
    destruct Hin as [[_ ->]|[Hk Hin]].
    - cbn. intros [= E]. lia.
    - apply (H4 k e Hk). apply Map_get_of_In; auto. apply W. }
  assert (T1 : timer_lookup t1 (timers w2) = Some (SendTimer id p1 ms1)).
  { rewrite Etim. now apply timer_lookup_app. }
  assert (E3 : w3 = promise_reject p1
                      (TimeoutError (timeout_message ("Request " ++ id) ms1))
                      (set_pending (Map_delete id (pending w2))
                         (clearTimeout t1 w2))).
  { unfold w3, fire. now rewrite T1. }
  assert (U2 : unreferenced p2 w3).
  { intros k e Hin. rewrite E3 in Hin. cbn in Hin.
    apply In_Map_delete in Hin as [Hk Hin]. rewrite Epend in Hin.
    apply In_Map_set_unique in Hin; [|apply W].
    destruct Hin as [[-> _]|[_ Hin]]; [congruence|].
    intros Hs2.
    destruct W as (W1 & _). rewrite Forall_forall in W1.
    assert (p2 < length (promises w)); [|lia].
    apply W1. apply in_flat_map. exists (k, e). split; auto.
    unfold batch_promise. cbn [snd]. rewrite Hs2. now left. }
  assert (P2 : promise_of p2 w3 = Some Pending).
  { rewrite E3. unfold promise_of, promise_reject. cbn.
    rewrite settle_other by lia. apply Hw2. }
  split; [|split; [|split]].
  - repeat split; try lia.
    + apply Hw2.
    + rewrite Epend. eapply Map_set_keys. exact H1.
  - repeat split; auto.
    + intros msgs. now rewrite unreferenced_deliver.
    + now rewrite unreferenced_close.
    + intros parse evs Hevs.
      assert (I2 : inv None w2).
      { replace w2 with (fst (send stringify request ms2 WriteOk w))
          by (now rewrite Hs).
        now apply inv_send. }
      assert (J : inv (Some (p1, t1)) w2).
      { destruct I2. constructor; auto.
        intros q1 u1 [= <- <-]. repeat split; auto.
        intros t id' ms' Hin. rewrite Etim in Hin.
        apply in_app_or in Hin as [Hin|[X|[]]].
        - apply (inv_timer_unique _ _ _ _ _ I _ _ _ _ _ _ _ Hin
                   (timer_lookup_In _ _ _ H3)).
        - inversion X. lia. }
      assert (Sp : Forall (spares (Some (p1, t1))) evs).
      { eapply Forall_impl; [|exact Hevs].
        intros ev Hev q1 u1 [= <- <-]. exact Hev. }
      pose proof (inv_run (Some (p1, t1)) stringify parse evs w2 Sp J) as K.
      apply (inv_protected _ _ _ _ _ K p1 t1 eq_refl).
  - intros msgs Hex.
    apply (waiting_deliver_closed id p2 t2 ms2 msgs [] w2 Hw2 Hex).
  - repeat split; auto.
    + rewrite E3. unfold promise_of, promise_reject. cbn.
      now apply settle_pending.
    + rewrite E3. cbn. apply Map_get_delete_eq.
    + rewrite E3. cbn. rewrite timer_lookup_filter by lia. apply Hw2.
    + intros msgs. now rewrite unreferenced_deliver.
Qed.

Lemma waiting_sent1 :
  waiting "1" 0 1 DEFAULT_SEND_TIMEOUT [] sent1 /\ inv None sent1.
Proof.
  split.
  - apply (send_waiting demo_stringify (ping "1") DEFAULT_SEND_TIMEOUT
             connected0 sent1 0 well_formed_connected0 eq_refl eq_refl).
  - apply (reachable_inv demo_stringify demo_parse).
    exists [EvConnect (mkConnectOptions None None); EvSocketOpen 0;
            EvSend (ping "1") DEFAULT_SEND_TIMEOUT WriteOk].
    vm_compute. reflexivity.
Qed.

Lemma duplicate_id_overwrites_waiter_witness :
  let w2 := fst (send demo_stringify (ping "1") 500 WriteOk sent1) in
  map fst (pending w2) = ["1"]
  /\ promise_of 0 (deliver [OkResponse "1" None] w2) = Some Pending
  /\ promise_of 1 (deliver [OkResponse "1" None] w2)
     = Some (Fulfilled [OkResponse "1" None])
  /\ pending (fire 1 w2) = []
  /\ promise_of 0 (fire 1 w2)
     = Some (Rejected (TimeoutError "Request 1 timed out after 30000ms"))
  /\ promise_of 1 (deliver [OkResponse "1" None] (fire 1 w2)) = Some Pending
  /\ promise_of 0
       (run demo_stringify demo_parse w2
            [EvSocketData 0 (frame_ok "1" ++ nl)%string; EvTimer 2; EvClose])
     = Some Pending.
Proof.
  cbv zeta.
  destruct (duplicate_id_overwrites_waiter
              demo_stringify (ping "1") 500 sent1
              (fst (send demo_stringify (ping "1") 500 WriteOk sent1)) 1
              0 1 DEFAULT_SEND_TIMEOUT []
              (proj2 waiting_sent1) (proj1 waiting_sent1) eq_refl)
    as ((_ & _ & _ & K) & (_ & _ & D & _ & A) & F & (T & _ & _ & _ & _ & L)).
  split; [exact K|]. split; [exact (D [OkResponse "1" None])|].
  split; [exact (F [OkResponse "1" None] eq_refl)|].
  split; [reflexivity|]. split; [exact T|].
  split; [exact (L [OkResponse "1" None])|].
  apply (A demo_parse). repeat constructor; discriminate.
Defined.

(* ================================================================== *)
(** * Further properties of the code *)
(* ================================================================== *)

(** ** types.ts: the guards *)

(** X1.  The type guards are sound and agree with [isTerminal]: [isError],
    [isOk], [isItem] and [isData] hold exactly on the values of their
    response type, so at most one of them holds; an error or ok response is
    terminal, an item or data response is not; and the terminal responses
    are exactly the ok, error, done and redirect ones. *)
Theorem guards_partition (r : Response) :
  (isError r = true <-> exists id code message, r = ErrorResponse id code message)
  /\ (isOk r = true <-> exists id d, r = OkResponse id d)
  /\ (isItem r = true <-> exists id d, r = ItemResponse id d)
  /\ (isData r = true <-> exists id b, r = DataResponse id b)
  /\ (isError r = true \/ isOk r = true -> isTerminal r = true)
  /\ (isItem r = true \/ isData r = true -> isTerminal r = false)
  /\ (isTerminal r = false <->
      op r = OpItem \/ op r = OpData \/ op r = OpEvent \/ op r = OpProgress).
Proof.
  destruct r; cbn; repeat split; intros H;
    try discriminate; try reflexivity; eauto;
    repeat match goal with
           | H : exists _, _ |- _ => destruct H
           | H : _ \/ _ |- _ => destruct H
           end;
    try discriminate; auto.
Qed.

Lemma guards_partition_witness :
  isTerminal (ErrorResponse "1" "EIO" "x") = true
  /\ isTerminal (DataResponse "1" "AA==") = false.
Proof.
  split.
  - destruct (guards_partition (ErrorResponse "1" "EIO" "x"))
      as (_ & _ & _ & _ & H & _).
    apply H. now left.
  - destruct (guards_partition (DataResponse "1" "AA=="))
      as (_ & _ & _ & _ & _ & H & _).
    apply H. now right.
Defined.

(** ** transport.ts: a write that throws *)

Lemma timer_lookup_app_other (t t' : nat) (a : TimerAction)
  (l : list (nat * TimerAction)) :
  t <> t' -> timer_lookup t (l ++ [(t', a)]) = timer_lookup t l.
Proof.
  intros H. induction l as [|[t0 a0] r IH]; simpl.
  - destruct (Nat.eqb_spec t t'); congruence.
  - destruct (Nat.eqb t t0); auto.
Qed.

(** X2.  When [socket.write] throws inside [send], the returned promise is
    rejected with a ConnectionError EIO carrying the message of the
    exception; the entry under the request id is deleted (an earlier waiter
    registered under that id goes with it), the timer just armed is cleared
    and every other timer is as before; nothing is written, and the state
    and the socket are unchanged. *)
Theorem send_write_failure :
  forall stringify request ms message w,
    not_connected w = false ->
    let r := send stringify request ms (WriteThrows message) w in
    let p := length (promises w) in
    snd r = inr p
    /\ promise_of p (fst r) = Some (Rejected (ConnectionError "EIO" message))
    /\ (forall q, q <> p -> promise_of q (fst r) = promise_of q w)
    /\ pending (fst r) = Map_delete (request_id request) (pending w)
    /\ timer_lookup (next_timer w) (timers (fst r)) = None
    /\ (forall t, t <> next_timer w ->
                  timer_lookup t (timers (fst r)) = timer_lookup t (timers w))
    /\ trace (fst r) = trace w
    /\ state (fst r) = state w
    /\ socket (fst r) = socket w.
Proof.
  intros stringify request ms message w H r p.
  subst r p. unfold send, setTimeout. rewrite H.
  unfold promise_of, promise_reject.
  cbn [fst snd promises pending timers trace state socket set_promises
       set_pending set_timers set_next_timer clear_timer clearTimeout timer
       next_timer].
  repeat split.
  - rewrite settle_pending.
    + reflexivity.
    + rewrite nth_error_app2, Nat.sub_diag by lia. reflexivity.
  - intros q Hq. rewrite settle_other by lia.
    destruct (Nat.lt_ge_cases q (length (promises w))).
    + now rewrite nth_error_app1.
    + rewrite (proj2 (nth_error_None (promises w) q)) by lia.
      apply nth_error_None. rewrite length_app. cbn. lia.
  - apply Map_delete_set.
  - apply timer_lookup_cleared.
  - intros t Ht. rewrite timer_lookup_filter by lia.
    now apply timer_lookup_app_other.
Qed.

Lemma send_write_failure_witness :
  promise_of 1 (fst (send demo_stringify (ping "1") 500
                          (WriteThrows "EPIPE") sent1))
  = Some (Rejected (ConnectionError "EIO" "EPIPE"))
  /\ pending (fst (send demo_stringify (ping "1") 500
                        (WriteThrows "EPIPE") sent1)) = [].
Proof.
  destruct (send_write_failure demo_stringify (ping "1") 500 "EPIPE"
              sent1 eq_refl) as (_ & H2 & _ & H4 & _).
  split; [exact H2 | exact H4].
Defined.

(** ** transport.ts: the life of a connection *)

Lemma connect_fields (options : ConnectOptions) (w : World) :
  state w = Disconnected ->
  fst (connect options w)
  = emit (BunConnect (length (attempts w))
                     (or_default (socketPath options) DEFAULT_SOCKET_PATH))
      (set_attempts
         (attempts w ++
            [mkAttempt (or_default (socketPath options) DEFAULT_SOCKET_PATH)
                       (or_default (timeout options) DEFAULT_TIMEOUT)
                       (next_timer w) Pending (mkSocketData "")])
         (set_next_timer (S (next_timer w))
            (set_timers
               (timers w ++ [(next_timer w, ConnectTimer (length (attempts w)))])
               (set_state Connecting w))))
  /\ snd (connect options w) = inr (length (attempts w)).
Proof. intros H. unfold connect, setTimeout. rewrite H. split; reflexivity. Qed.

Lemma new_attempt_lookup (options : ConnectOptions) (w : World) :
  state w = Disconnected ->
  nth_error (attempts (fst (connect options w))) (length (attempts w))
  = Some (mkAttempt (or_default (socketPath options) DEFAULT_SOCKET_PATH)
                    (or_default (timeout options) DEFAULT_TIMEOUT)
                    (next_timer w) Pending (mkSocketData "")).
Proof.
  intros H. rewrite (proj1 (connect_fields options w H)).
  cbn [attempts emit set_attempts].
  rewrite nth_error_app2, Nat.sub_diag by lia. reflexivity.
Qed.

(** X3.  From the disconnected state, [connect] asks for a socket on the
    given path, or on /tmp/monk.sock, with the given timeout, or 5000 ms,
    and the state is connecting.  When the socket opens the timer of the
    attempt is cleared, the socket is stored and the state is connected:
    [isConnected] holds and [send] passes its state check.  The routing
    table is not touched. *)
Theorem connect_then_open :
  forall options w,
    state w = Disconnected ->
    let a := length (attempts w) in
    let w1 := fst (connect options w) in
    let w2 := socket_open a w1 in
    snd (connect options w) = inr a
    /\ state w1 = Connecting
    /\ trace w1
       = trace w
         ++ [BunConnect a (or_default (socketPath options) DEFAULT_SOCKET_PATH)]
    /\ option_map a_timeout (nth_error (attempts w1) a)
       = Some (or_default (timeout options) DEFAULT_TIMEOUT)
    /\ state w2 = Connected
    /\ socket w2 = Some a
    /\ isConnected w2 = true
    /\ not_connected w2 = false
    /\ timer_lookup (next_timer w) (timers w2) = None
    /\ option_map a_promise (nth_error (attempts w2) a) = Some (Fulfilled tt)
    /\ pending w2 = pending w
    /\ trace w2 = trace w1.
Proof.
  intros options w H a w1 w2.
  destruct (connect_fields options w H) as [E Er].
  pose proof (new_attempt_lookup options w H) as Ha. fold a w1 in Ha.
  assert (E2 : w2 =
               set_state Connected
                 (update_attempt a
                    (fun x => mkAttempt (a_path x) (a_timeout x) (a_timer x)
                                        (Fulfilled tt) (a_data x))
                    (set_socket (Some a) (clearTimeout (next_timer w) w1)))).
  { unfold w2, socket_open. rewrite (attempt_timer_of a w1 _ Ha).
    cbn [a_timer clear_timer]. unfold attempt_resolve.
    cbn [attempts set_socket clearTimeout set_timers]. now rewrite Ha. }
  assert (U : update_attempt a
                (fun x => mkAttempt (a_path x) (a_timeout x) (a_timer x)
                                    (Fulfilled tt) (a_data x))
                (set_socket (Some a) (clearTimeout (next_timer w) w1))
              = set_attempts
                  (list_set a
                     (mkAttempt
                        (or_default (socketPath options) DEFAULT_SOCKET_PATH)
                        (or_default (timeout options) DEFAULT_TIMEOUT)
                        (next_timer w) (Fulfilled tt) (mkSocketData ""))
                     (attempts w1))
                  (set_socket (Some a) (clearTimeout (next_timer w) w1))).
  { unfold update_attempt. cbn [attempts set_socket clearTimeout set_timers].
    now rewrite Ha. }
  rewrite U in E2. clear U.
  split; [exact Er|]. split; [unfold w1; now rewrite E|].
  split; [unfold w1; now rewrite E|].
  split; [now rewrite Ha|].
  rewrite E2. cbn [state socket timers pending trace attempts set_state
                   set_attempts set_socket clearTimeout set_timers].
  repeat split.
  - apply timer_lookup_cleared.
  - rewrite nth_error_list_set_eq; [reflexivity|].
    apply nth_error_Some. congruence.
  - unfold w1. now rewrite E.
Qed.

Lemma connect_then_open_witness :
  state (socket_open 0 (fst (connect (mkConnectOptions None None) initial)))
  = Connected
  /\ trace (fst (connect (mkConnectOptions None None) initial))
     = [BunConnect 0 "/tmp/monk.sock"].
Proof.
  destruct (connect_then_open (mkConnectOptions None None) initial eq_refl)
    as (_ & _ & H3 & _ & H5 & _).
  split; [exact H5 | exact H3].
Defined.

(** X4.  The [error] and [connectError] callbacks and the [catch] of
    [Bun.connect].  While the attempt is pending they clear its timer, fail
    [connect] with a ConnectionError ECONNREFUSED carrying the reason and
    put the state back to disconnected, the socket property staying as it
    was; the timer firing later changes nothing and a new [connect] is
    accepted.  On an attempt that is already settled, so also on an
    established connection, they only clear the timer: the state, the
    socket, the routing table, the promises and the streams are unchanged,
    and no pending request is failed. *)
Theorem socket_error_outcome :
  (forall options message w,
      state w = Disconnected ->
      let a := length (attempts w) in
      let w2 := socket_error a message (fst (connect options w)) in
      state w2 = Disconnected
      /\ socket w2 = socket w
      /\ pending w2 = pending w
      /\ option_map a_promise (nth_error (attempts w2) a)
         = Some (Rejected (ConnectionError "ECONNREFUSED" message))
      /\ fire (next_timer w) w2 = w2
      /\ forall options', snd (connect options' w2) = inr (S a))
  /\ (forall a message w at_,
      nth_error (attempts w) a = Some at_ ->
      a_promise at_ <> Pending ->
      socket_error a message w = clearTimeout (a_timer at_) w).
Proof.
  split.
  - intros options message w H a w2.
    destruct (connect_fields options w H) as [E _].
    pose proof (new_attempt_lookup options w H) as Ha. fold a in Ha.
    assert (E2 : w2 =
                 set_state Disconnected
                   (set_attempts
                      (list_set a
                         (mkAttempt
                            (or_default (socketPath options) DEFAULT_SOCKET_PATH)
                            (or_default (timeout options) DEFAULT_TIMEOUT)
                            (next_timer w)
                            (Rejected (ConnectionError "ECONNREFUSED" message))
                            (mkSocketData ""))
                         (attempts (fst (connect options w))))
                      (clearTimeout (next_timer w) (fst (connect options w))))).
    { unfold w2, socket_error.
      rewrite (attempt_timer_of a _ _ Ha). cbn [a_timer clear_timer].
      unfold attempt_reject, update_attempt.
      cbn [attempts clearTimeout set_timers]. now rewrite Ha. }
    assert (L : length (attempts w2) = S a).
    { rewrite E2. cbn [attempts set_state set_attempts].
      rewrite list_set_length, E. cbn [attempts emit set_attempts].
      rewrite length_app. cbn. unfold a. lia. }
    assert (T : timer_lookup (next_timer w) (timers w2) = None).
    { rewrite E2. cbn [timers set_state set_attempts clearTimeout set_timers].
      apply timer_lookup_cleared. }
    assert (S2 : state w2 = Disconnected) by (now rewrite E2).
    split; [exact S2|]. split; [rewrite E2, E; reflexivity|].
    split; [rewrite E2, E; reflexivity|]. split; [|split].
    + rewrite E2. cbn [attempts set_state set_attempts].
      rewrite nth_error_list_set_eq; [reflexivity|].
      apply nth_error_Some. congruence.
    + unfold fire. now rewrite T.
    + intros options'. rewrite (proj2 (connect_fields options' w2 S2)).
      now rewrite L.
  - intros a message w at_ Ha Hp. unfold socket_error.
    rewrite (attempt_timer_of a w at_ Ha). cbn [clear_timer].
    unfold attempt_reject. cbn [attempts clearTimeout set_timers].
    rewrite Ha. destruct (a_promise at_); congruence.
Qed.

Lemma socket_error_outcome_witness :
  state (socket_error 0 "ENOENT"
           (fst (connect (mkConnectOptions None None) initial)))
  = Disconnected
  /\ socket_error 0 "EPIPE" connected0 = clearTimeout 0 connected0.
Proof.
  destruct socket_error_outcome as [H1 H2]. split.
  - exact (proj1 (H1 (mkConnectOptions None None) "ENOENT"%string initial
                     eq_refl)).
  - apply (H2 0 "EPIPE"%string connected0
              (mkAttempt "/tmp/monk.sock" 5000 0 (Fulfilled tt)
                         (mkSocketData ""))); [reflexivity|discriminate].
Defined.

Lemma reject_fold_attempts (l : list (string * PendingRequest)) :
  forall w, attempts (fold_left reject_one l w) = attempts w.
Proof.
  induction l as [|kv l IH]; intros w; cbn [fold_left]; auto.
  rewrite IH. unfold reject_one, reject_entry, update_stream, promise_reject.
  cbn [attempts set_pending].
  destruct (sink (snd kv)); destruct (timer (snd kv)); cbn;
    try destruct (nth_error _ _); reflexivity.
Qed.

Lemma close_attempts (w : World) : attempts (close w) = attempts w.
Proof.
  rewrite close_unfold, reject_fold_attempts. now destruct (socket w).
Qed.

(** X5.  [close] does not cancel a [connect] that is under way: it puts the
    state to disconnected, but when the socket of the attempt opens
    afterwards, the socket is stored and the state becomes connected. *)
Theorem close_does_not_cancel_connect :
  forall options w,
    state w = Disconnected ->
    let a := length (attempts w) in
    let wc := close (fst (connect options w)) in
    state wc = Disconnected
    /\ socket wc = None
    /\ state (socket_open a wc) = Connected
    /\ socket (socket_open a wc) = Some a
    /\ not_connected (socket_open a wc) = false.
Proof.
  intros options w H a wc.
  destruct (close_result (fst (connect options w))) as (C1 & C2 & _).
  pose proof (new_attempt_lookup options w H) as Ha. fold a in Ha.
  rewrite <- close_attempts in Ha. fold wc in Ha, C1, C2.
  assert (E : socket_open a wc =
              set_state Connected
                (update_attempt a
                   (fun x => mkAttempt (a_path x) (a_timeout x) (a_timer x)
                                       (Fulfilled tt) (a_data x))
                   (set_socket (Some a) (clearTimeout (next_timer w) wc)))).
  { unfold socket_open. rewrite (attempt_timer_of a wc _ Ha).
    cbn [a_timer clear_timer]. unfold attempt_resolve.
    cbn [attempts set_socket clearTimeout set_timers]. now rewrite Ha. }
  split; [exact C1|]. split; [exact C2|]. rewrite E.
  unfold update_attempt. cbn [attempts set_socket clearTimeout set_timers].
  rewrite Ha. repeat split.
Qed.

Lemma close_does_not_cancel_connect_witness :
  state (socket_open 0
           (close (fst (connect (mkConnectOptions None None) initial))))
  = Connected.
Proof.
  exact (proj1 (proj2 (proj2 (close_does_not_cancel_connect
                                (mkConnectOptions None None) initial eq_refl)))).
Defined.

(** X6.  After [close], whatever the transport was doing: [isConnected] is
    false, [send] fails at once with "Not connected" and registers nothing,
    the first pull of a stream created before or after fails the same way,
    and [connect] is accepted again and starts a new attempt. *)
Theorem after_close :
  forall stringify request ms wr options w,
    let wc := close w in
    isConnected wc = false
    /\ send stringify request ms wr wc
       = (wc, inl (ConnectionError "ENOTCONN" "Not connected"))
    /\ (forall s fr,
          nth_error (streams wc) s = Some fr -> gen fr = NotStarted ->
          option_map gen (nth_error (streams (next stringify s wr wc)) s)
          = Some (Completed
                    (Some (ConnectionError "ENOTCONN" "Not connected")))
          /\ pending (next stringify s wr wc) = [])
    /\ snd (connect options wc) = inr (length (attempts w))
    /\ state (fst (connect options wc)) = Connecting.
Proof.
  intros stringify request ms wr options w wc.
  destruct (close_result w) as (C1 & C2 & C3 & _). fold wc in C1, C2, C3.
  assert (N : not_connected wc = true)
    by (unfold not_connected; now rewrite C2).
  split; [unfold isConnected; now rewrite C1|].
  split; [unfold send; now rewrite N|]. split; [|split].
  - intros s fr Hs Hg. unfold next. rewrite Hs, Hg. unfold start.
    rewrite Hs, N. unfold update_stream. rewrite Hs.
    cbn [streams pending set_streams]. split; [|exact C3].
    rewrite nth_error_list_set_eq; [reflexivity|].
    apply nth_error_Some. congruence.
  - rewrite (proj2 (connect_fields options wc C1)).
    unfold wc. now rewrite close_attempts.
  - now rewrite (proj1 (connect_fields options wc C1)).
Qed.

Lemma after_close_witness :
  option_map gen
    (nth_error
       (streams
          (next demo_stringify 0 WriteOk
             (close (fst (stream (ping "7") sent1))))) 0)
  = Some (Completed (Some (ConnectionError "ENOTCONN" "Not connected"))).
Proof.
  destruct (after_close demo_stringify (ping "1") 1 WriteOk
              (mkConnectOptions None None) (fst (stream (ping "7") sent1)))
    as (_ & _ & H & _).
  apply (H 0 (mkStream (ping "7") [] false None false OnResponseMethod
                       NotStarted [])); reflexivity.
Defined.

(** ** transport.ts: the timer of a completed request *)

Lemma onResponse_timer_none (t : nat) (r : Response) (w : World) :
  timer_lookup t (timers w) = None ->
  timer_lookup t (timers (onResponse r w)) = None.
Proof.
  intros H.
  destruct (Map_get (response_id r) (pending w)) as [e|] eqn:He.
  - destruct (isTerminal r) eqn:Ht.
    + rewrite (onResponse_terminal r e w He Ht).
      rewrite (proj2 (resolve_entry_fields _ _ _)). cbn [timers set_pending].
      destruct (timer e); cbn; auto. now apply timer_lookup_filter_none.
    + now rewrite (onResponse_nonterminal r e w He Ht).
  - now rewrite onResponse_absent.
Qed.

Lemma deliver_timer_none (t : nat) (msgs : list Response) :
  forall w,
    timer_lookup t (timers w) = None ->
    timer_lookup t (timers (deliver msgs w)) = None.
Proof.
  induction msgs as [|m rest IH]; intros w H; [exact H|].
  cbn [deliver fold_left]. apply IH.
  destruct (dispatch_cases m w) as [-> | [s ->]].
  - now apply onResponse_timer_none.
  - now rewrite (proj1 (proj2 (proj2 (update_stream_fields s _ w)))).
Qed.

Lemma waiting_deliver_timer (id : string) (p t : nat) (ms : N)
  (msgs : list Response) :
  forall (acc : list Response) (w : World),
    waiting id p t ms acc w ->
    existsb isTerminal (for_id id msgs) = true ->
    timer_lookup t (timers (deliver msgs w)) = None.
Proof.
  induction msgs as [|m rest IH]; intros acc w Hw Hex; [discriminate|].
  cbn [deliver fold_left for_id filter] in *.
  destruct (String.eqb_spec (response_id m) id) as [E|N].
  - cbn [existsb] in Hex. destruct (isTerminal m) eqn:Ht.
    + destruct (waiting_terminal id p t ms acc m w Hw E Ht) as (_ & _ & Hn).
      now apply deliver_timer_none.
    + apply (IH (acc ++ [m])); auto. now apply waiting_nonterminal.
  - apply (IH acc); auto. now apply waiting_other.
Qed.

(** X7.  The timer of a request that has completed does nothing.  After a
    [send] whose write succeeded, once responses ending the exchange have
    been dispatched, the timer of that request is no longer armed: its
    firing changes nothing, and the promise keeps the list it was fulfilled
    with. *)
Theorem completed_request_has_no_timer :
  forall stringify request ms w w1 p msgs,
    well_formed w ->
    intercepts (request_id request) (onResponse_prop w) = false ->
    send stringify request ms WriteOk w = (w1, inr p) ->
    existsb isTerminal (for_id (request_id request) msgs) = true ->
    let w2 := deliver msgs w1 in
    timer_lookup (next_timer w) (timers w1)
    = Some (SendTimer (request_id request) p ms)
    /\ timer_lookup (next_timer w) (timers w2) = None
    /\ fire (next_timer w) w2 = w2
    /\ promise_of p (fire (next_timer w) w2)
       = Some (Fulfilled (upto_terminal (for_id (request_id request) msgs))).
Proof.
  intros stringify request ms w w1 p msgs W Hi Hs Hex w2.
  destruct (send_waiting stringify request ms w w1 p W Hi Hs) as (_ & Hw & _).
  pose proof (waiting_deliver_timer _ _ _ _ msgs [] w1 Hw Hex) as T.
  fold w2 in T.
  assert (F : fire (next_timer w) w2 = w2) by (unfold fire; now rewrite T).
  split; [apply Hw|]. split; [exact T|]. split; [exact F|].
  rewrite F. apply (waiting_deliver_closed _ _ _ _ msgs [] w1 Hw Hex).
Qed.

Lemma completed_request_has_no_timer_witness :
  fire 1 (deliver [OkResponse "1" None] sent1)
  = deliver [OkResponse "1" None] sent1.
Proof.
  exact (proj1 (proj2 (proj2
           (completed_request_has_no_timer
              demo_stringify (ping "1") DEFAULT_SEND_TIMEOUT connected0 sent1 0
              [OkResponse "1" None]
              well_formed_connected0 eq_refl eq_refl eq_refl)))).
Defined.

(** ** transport.ts: chunk boundaries *)



Lemma onData_total (parse : string -> option Response) (sd : SocketData)
  (chunk : string) (w : World) :
  exists frames rest,
    (buffer sd ++ chunk = join_frames frames ++ rest)%string
    /\ forallb no_newline frames = true
    /\ no_newline rest = true
    /\ onData parse sd chunk w
       = Some (mkSocketData rest, deliver (messages parse frames) w).
Proof.
  destruct (frames_exist (buffer sd ++ chunk)) as (frames & rest & E & Hf & Hr).
  exists frames, rest. repeat split; auto.
  unfold onData. cbn [buffer]. rewrite E.
  apply onData_loop_frames; auto.
  pose proof (join_frames_length frames). rewrite append_length. lia.
Qed.


(** ** transport.ts: the body of [stream] *)

Lemma dispatch_own (s : nat) (id : string) (h : Handler) (m : Response)
  (w : World) :
  onResponse_prop w = StreamOverride s id h ->
  response_id m = id ->
  dispatch m w = update_stream s (handler m) w.
Proof.
  intros H E. unfold dispatch. rewrite H. cbn [call_handler].
  now rewrite E, String.eqb_refl.
Qed.

Lemma update_stream_at (s : nat) (f : StreamFrame -> StreamFrame)
  (w : World) (fr : StreamFrame) :
  nth_error (streams w) s = Some fr ->
  update_stream s f w = set_streams (list_set s (f fr) (streams w)) w
  /\ nth_error (streams (update_stream s f w)) s = Some (f fr).
Proof.
  intros H. unfold update_stream. rewrite H. split; auto.
  cbn [streams set_streams]. apply nth_error_list_set_eq.
  apply nth_error_Some. congruence.
Qed.

Lemma run_finally_at (s : nat) (thrown : option JsError) (w : World)
  (fr : StreamFrame) :
  nth_error (streams w) s = Some fr ->
  nth_error (streams (run_finally s thrown w)) s
  = Some (set_gen (Completed thrown) fr)
  /\ pending (run_finally s thrown w)
     = Map_delete (request_id (s_request fr)) (pending w)
  /\ onResponse_prop (run_finally s thrown w) = s_original fr
  /\ trace (run_finally s thrown w) = trace w
  /\ promises (run_finally s thrown w) = promises w.
Proof.
  intros H. unfold run_finally. rewrite H.
  assert (H' : nth_error
                 (streams
                    (set_pending
                       (Map_delete (request_id (s_request fr))
                          (pending (set_onResponse (s_original fr) w)))
                       (set_onResponse (s_original fr) w))) s = Some fr)
    by exact H.
  destruct (update_stream_at s (set_gen (Completed thrown)) _ fr H') as [E L].
  rewrite L. rewrite E. repeat split.
Qed.

(** A stream that has completed ignores its consumer. *)
Lemma completed_inert (stringify : Request -> string) (s : nat)
  (wr : WriteOutcome) (w : World) (fr : StreamFrame) (e : option JsError) :
  nth_error (streams w) s = Some fr -> gen fr = Completed e ->
  next stringify s wr w = w /\ resume s w = w /\ gen_return s w = w.
Proof.
  intros H G. unfold next, resume, gen_return. now rewrite H, G.
Qed.

Section OneStream.
Variable stringify : Request -> string.
Variable s : nat.
Variable id : string.

Lemma streaming_arrives (w : World) (fr : StreamFrame) (m : Response) :
  streaming s id w fr -> response_id m = id ->
  streaming s id (dispatch m w) (handler m fr)
  /\ accounted (handler m fr) = accounted fr ++ [m]
  /\ pending (dispatch m w) = pending w
  /\ s_error (handler m fr) = s_error fr
  /\ s_done (handler m fr) = (if isTerminal m then true else s_done fr).
Proof.
  intros (H1 & H2 & H3 & H4 & H5 & H6 & H7) Hm.
  rewrite (dispatch_own s id _ m w H3 Hm).
  destruct (update_stream_at s (handler m) w fr H1) as [E L].
  destruct (update_stream_fields s (handler m) w) as (F1 & _ & _ & F4 & _).
  split; [|split; [|split; [exact F1|]]].
  - unfold streaming. rewrite L, F4.
    unfold handler. destruct (resolver fr) eqn:R; cbn;
      repeat split; auto; try discriminate; try congruence.
    + intros G. apply H4 in G. congruence.
    + intros G. apply H4 in G. congruence.
  - unfold accounted, handler. destruct (resolver fr) eqn:R; cbn.
    + assert (G : gen fr = AwaitingResolver) by (now apply H4).
      rewrite (H5 G), G. cbn. now rewrite !app_nil_r.
    + now rewrite !app_assoc.
  - unfold handler. destruct (resolver fr); split; reflexivity.
Qed.

Lemma streaming_continues (w : World) (fr : StreamFrame) (v : Response) :
  streaming s id w fr -> gen fr = Resuming (IterValue v) ->
  streaming s id (resume s w) (do_yield v fr)
  /\ accounted (do_yield v fr) = accounted fr
  /\ pending (resume s w) = pending w.
Proof.
  intros (H1 & H2 & H3 & H4 & H5 & H6 & H7) G.
  unfold resume. rewrite H1, G.
  destruct (update_stream_at s (do_yield v) w fr H1) as [E L].
  destruct (update_stream_fields s (do_yield v) w) as (F1 & _ & _ & F4 & _).
  split; [|split; [|exact F1]].
  - unfold streaming. rewrite L, F4. cbn.
    repeat split; auto; try discriminate.
    + intros R. apply H4 in R. congruence.
  - unfold accounted. rewrite G. cbn. now rewrite <- app_assoc.
Qed.

(** Leaving the loop: the registration is released and the body is over;
    what the consumer has received does not change. *)
Lemma streaming_leaves (w : World) (fr : StreamFrame)
  (thrown : option JsError) :
  streaming s id w fr -> resolver fr = false ->
  completed s (run_finally s thrown w) (yielded fr)
  /\ pending (run_finally s thrown w) = Map_delete id (pending w)
  /\ onResponse_prop (run_finally s thrown w) = s_original fr
  /\ option_map gen (nth_error (streams (run_finally s thrown w)) s)
     = Some (Completed thrown).
Proof.
  intros (H1 & H2 & _) R.
  destruct (run_finally_at s thrown w fr H1) as (A & B & C & _).
  split; [|split; [|split]].
  - exists (set_gen (Completed thrown) fr), thrown. repeat split; auto.
  - now rewrite B, H2.
  - exact C.
  - now rewrite A.
Qed.

Lemma not_awaiting_resolver (w : World) (fr : StreamFrame) :
  streaming s id w fr -> gen fr <> AwaitingResolver -> resolver fr = false.
Proof.
  intros (_ & _ & _ & H4 & _) G. destruct (resolver fr) eqn:R; auto.
  exfalso. apply G. now apply H4.
Qed.

(** One pull: the stream goes on with the same responses accounted for, or
    it completes without handing over anything more. *)
Lemma streaming_pulls (w : World) (fr : StreamFrame) :
  streaming s id w fr ->
  (exists fr', streaming s id (next stringify s WriteOk w) fr'
               /\ accounted fr' = accounted fr
               /\ pending (next stringify s WriteOk w) = pending w
               /\ s_done fr' = s_done fr /\ s_error fr' = s_error fr
               /\ (fr' = fr /\ next stringify s WriteOk w = w
                               /\ (forall v, gen fr <> AtYield v)
                   \/ exists v, gen fr = AtYield v /\ isTerminal v = false
                                /\ s_done fr = false /\ s_error fr = None
                                /\ match queue fr with
                                   | x :: q => gen fr' = AtYield x
                                               /\ queue fr' = q
                                   | [] => gen fr' = AwaitingResolver
                                   end))
  \/ (completed s (next stringify s WriteOk w) (yielded fr)
      /\ exists v, gen fr = AtYield v
                   /\ (isTerminal v = true \/ s_done fr = true
                       \/ s_error fr <> None)).
Proof.
  intros St. pose proof St as (H1 & H2 & H3 & H4 & H5 & H6 & H7).
  unfold next. rewrite H1.
  destruct (gen fr) as [| |res|v|e] eqn:G; try congruence;
    [left; exists fr; repeat split; auto; try apply St;
     left; repeat split; auto; discriminate
    |left; exists fr; repeat split; auto; try apply St;
     left; repeat split; auto; discriminate
    |].
  - assert (R : resolver fr = false)
      by (apply (not_awaiting_resolver w fr St); congruence).
    destruct (isTerminal v) eqn:Tv.
    { right. unfold leave_loop. rewrite H1.
      split; [apply (streaming_leaves w fr _ St R)|]. eauto. }
    unfold loop_head. rewrite H1.
    destruct (s_done fr) eqn:D.
    { right. cbn [negb andb]. unfold leave_loop. rewrite H1.
      split; [apply (streaming_leaves w fr _ St R)|]. eauto. }
    destruct (s_error fr) as [err|] eqn:Er.
    { right. cbn [negb andb is_some]. unfold leave_loop. rewrite H1.
      split; [apply (streaming_leaves w fr _ St R)|].
      exists v. split; auto. right. right. discriminate. }
    left. cbn [negb andb is_some].
    destruct (queue fr) as [|x q] eqn:Q.
    + destruct (update_stream_at s
                  (fun fr0 => mkStream (s_request fr0) (queue fr0) true
                                (s_error fr0) (s_done fr0) (s_original fr0)
                                AwaitingResolver (yielded fr0)) w fr H1)
        as [E L].
      destruct (update_stream_fields s
                  (fun fr0 => mkStream (s_request fr0) (queue fr0) true
                                (s_error fr0) (s_done fr0) (s_original fr0)
                                AwaitingResolver (yielded fr0)) w)
        as (F1 & _ & _ & F4 & _).
      eexists. split; [|split; [|split; [exact F1|]]].
      * unfold streaming. rewrite L, F4. cbn.
        repeat split; auto; discriminate.
      * unfold accounted. cbn. now rewrite G, Q.
      * cbn. repeat split; auto. right. exists v. repeat split; auto.
    + destruct (update_stream_at s
                  (fun fr0 => do_yield x
                     (mkStream (s_request fr0) q (resolver fr0) (s_error fr0)
                               (s_done fr0) (s_original fr0) (gen fr0)
                               (yielded fr0))) w fr H1)
        as [E L].
      destruct (update_stream_fields s
                  (fun fr0 => do_yield x
                     (mkStream (s_request fr0) q (resolver fr0) (s_error fr0)
                               (s_done fr0) (s_original fr0) (gen fr0)
                               (yielded fr0))) w)
        as (F1 & _ & _ & F4 & _).
      eexists. split; [|split; [|split; [exact F1|]]].
      * unfold streaming. rewrite L, F4.
        repeat split; cbn; auto; try discriminate; intros X; congruence.
      * unfold accounted. cbn. rewrite G, Q. cbn. now rewrite <- app_assoc.
      * cbn. repeat split; auto. right. exists v. repeat split; auto.
Qed.

End OneStream.

Lemma onResponse_streams (r : Response) (w : World) :
  streams (onResponse r w) = streams w.
Proof.
  unfold onResponse, resolve_entry, promise_resolve.
  destruct (Map_get (response_id r) (pending w)) as [e|]; auto.
  destruct (isTerminal r); auto. cbn [sink timer].
  destruct (sink e); destruct (timer e); reflexivity.
Qed.

(** No dispatch gives the consumer of a completed stream anything. *)
Lemma completed_dispatch (s : nat) (w : World) (got : list Response)
  (m : Response) :
  completed s w got -> completed s (dispatch m w) got.
Proof.
  intros (fr & e & H & G & R & Y).
  destruct (dispatch_cases m w) as [-> | [s' ->]].
  - unfold completed. exists fr, e. rewrite onResponse_streams. auto.
  - unfold completed.
    rewrite (update_stream_lookup s s' (handler m) w fr H).
    destruct (Nat.eqb s s'); [|exists fr, e; auto].
    exists (handler m fr), e. unfold handler. rewrite R. cbn. auto.
Qed.

Section OneStreamRuns.
Variable stringify : Request -> string.
Variable s : nat.
Variable id : string.

Lemma account_step (w : World) (acc : list Response) (ev : StreamEvent) :
  (exists fr, streaming s id w fr /\ accounted fr = acc)
  \/ (exists got rest, completed s w got /\ acc = got ++ rest) ->
  own_event id ev ->
  (exists fr, streaming s id (stream_step stringify s w ev) fr
              /\ accounted fr = acc ++ arrivals [ev])
  \/ (exists got rest, completed s (stream_step stringify s w ev) got
                       /\ acc ++ arrivals [ev] = got ++ rest).
Proof.
  intros [(fr & St & A)|(got & rest & C & A)] Own.
  - destruct ev as [m| |]; cbn [stream_step arrivals].
    + left. exists (handler m fr).
      destruct (streaming_arrives s id w fr m St (Own m eq_refl))
        as (S' & A' & _).
      split; auto. now rewrite A', A.
    + rewrite app_nil_r.
      destruct (streaming_pulls stringify s id w fr St)
        as [(fr' & S' & A' & _)|(C & _)].
      * left. exists fr'. split; auto. congruence.
      * right. exists (yielded fr), (in_flight (gen fr) ++ queue fr).
        split; auto.
    + rewrite app_nil_r. pose proof St as (H1 & _).
      destruct (gen fr) as [| |[v|]|v|e] eqn:G;
        try (left; exists fr; unfold resume; rewrite H1, G; now split).
      * left. exists (do_yield v fr).
        destruct (streaming_continues s id w fr v St G) as (S' & A' & _).
        split; auto. congruence.
      * right. exists (yielded fr), (in_flight (gen fr) ++ queue fr).
        split; [|now rewrite <- A].
        unfold resume. rewrite H1, G. unfold leave_loop. rewrite H1.
        apply (streaming_leaves s id w fr _ St).
        apply (not_awaiting_resolver s id w fr St). congruence.
  - right. destruct ev as [m| |]; cbn [stream_step arrivals].
    + exists got, (rest ++ [m]). split.
      * now apply completed_dispatch.
      * rewrite A. now rewrite app_assoc.
    + exists got, rest. rewrite app_nil_r. split; auto.
      destruct C as (fr & e & H & G & R & Y).
      rewrite (proj1 (completed_inert stringify s WriteOk w fr e H G)).
      exists fr, e. auto.
    + exists got, rest. rewrite app_nil_r. split; auto.
      destruct C as (fr & e & H & G & R & Y).
      rewrite (proj1 (proj2 (completed_inert stringify s WriteOk w fr e H G))).
      exists fr, e. auto.
Qed.

Lemma arrivals_app (a b : list StreamEvent) :
  arrivals (a ++ b) = arrivals a ++ arrivals b.
Proof.
  induction a as [|ev t IH]; auto. destruct ev; cbn; now rewrite IH.
Qed.

Lemma account_run (evs : list StreamEvent) :
  forall w acc,
    (exists fr, streaming s id w fr /\ accounted fr = acc)
    \/ (exists got rest, completed s w got /\ acc = got ++ rest) ->
    Forall (own_event id) evs ->
    (exists fr, streaming s id (stream_run stringify s w evs) fr
                /\ accounted fr = acc ++ arrivals evs)
    \/ (exists got rest, completed s (stream_run stringify s w evs) got
                         /\ acc ++ arrivals evs = got ++ rest).
Proof.
  induction evs as [|ev evs IH]; intros w acc P Own.
  - cbn. now rewrite app_nil_r.
  - inversion Own; subst. cbn [stream_run fold_left].
    change (ev :: evs) with ([ev] ++ evs).
    rewrite arrivals_app, app_assoc.
    apply IH; auto. now apply account_step.
Qed.

End OneStreamRuns.

(** X9.  What the consumer of a stream has received is, at every moment, an
    initial segment of the responses that have arrived for its id, in
    their order of arrival: for every interleaving of arrivals, pulls and
    continuations, nothing is handed over twice, out of order, or without
    having arrived.  While the stream runs, the responses handed over, the
    one on its way and the queued ones are exactly the arrivals. *)
Theorem stream_yields_prefix :
  forall stringify s id w fr evs,
    streaming s id w fr ->
    Forall (own_event id) evs ->
    exists fr' rest,
      nth_error (streams (stream_run stringify s w evs)) s = Some fr'
      /\ accounted fr ++ arrivals evs = yielded fr' ++ rest
      /\ ((forall e, gen fr' <> Completed e) ->
          rest = in_flight (gen fr') ++ queue fr').
Proof.
  intros stringify s id w fr evs St Own.
  destruct (account_run stringify s id evs w (accounted fr)
              (or_introl (ex_intro _ fr (conj St eq_refl))) Own)
    as [(fr' & S' & A)|(got & rest & (fr' & e & H & G & R & Y) & A)].
  - exists fr', (in_flight (gen fr') ++ queue fr').
    split; [apply S'|]. split; [now rewrite <- A|auto].
  - exists fr', rest. split; auto. split; [now rewrite Y|].
    intros N. destruct (N e G).
Qed.

Section OpenStream.
Variable stringify : Request -> string.
Variable s : nat.
Variable id : string.

Lemma open_step (w : World) (fr : StreamFrame) (ev : StreamEvent) :
  streaming s id w fr -> open_stream fr -> quiet_event id ev ->
  exists fr',
    streaming s id (stream_step stringify s w ev) fr'
    /\ open_stream fr'
    /\ accounted fr' = accounted fr ++ arrivals [ev]
    /\ (ev = Continues ->
        (forall r, gen fr' <> Resuming r) /\ queue fr' = queue fr)
    /\ (ev = Pulls ->
        (fr' = fr /\ stream_step stringify s w ev = w
         /\ forall v, gen fr <> AtYield v)
        \/ exists v, gen fr = AtYield v
                     /\ match queue fr with
                        | x :: q => gen fr' = AtYield x /\ queue fr' = q
                        | [] => gen fr' = AwaitingResolver
                        end).
Proof.
  intros St (O1 & O2 & O3 & O4 & O5) Q.
  destruct ev as [m| |]; cbn [stream_step arrivals].
  - destruct (Q m eq_refl) as [Hm Ht].
    destruct (streaming_arrives s id w fr m St Hm) as (S' & A' & _ & E' & D').
    exists (handler m fr). split; auto. split; [|split; [exact A'|]].
    + rewrite Ht in D'. unfold open_stream. rewrite E', D'.
      repeat split; auto; unfold handler;
        destruct (resolver fr) eqn:R; cbn; try discriminate; auto.
      * pose proof St as (_ & _ & _ & H4 & H5 & _).
        rewrite (H5 (proj1 H4 R)). repeat constructor. exact Ht.
      * rewrite app_assoc. apply Forall_app. split; auto.
    + split; intros X; discriminate.
  - rewrite app_nil_r.
    destruct (streaming_pulls stringify s id w fr St)
      as [(fr' & S' & A' & _ & D' & E' & C)|(_ & v & G & [T|[D|E]])];
      [|rewrite (O4 v G) in T; discriminate|congruence|congruence].
    exists fr'. split; auto.
    destruct C as [(-> & Hw & Ny)|(v & G & Tv & _ & _ & Hq)].
    + repeat split; auto. discriminate.
    + split; [|split; [exact A'|split; [discriminate|]]].
      * unfold open_stream. rewrite D', E'.
        rewrite G in O5. cbn in O5.
        destruct (queue fr) as [|x q] eqn:Qe.
        -- pose proof S' as (_ & _ & _ & _ & H5 & _).
           rewrite Hq, (H5 Hq).
           repeat split; auto; try discriminate; try congruence.
        -- destruct Hq as [Hg Hq']. rewrite Hg, Hq'.
           inversion O5; subst.
           repeat split; auto; try discriminate; try congruence.
      * intros _. right. exists v. split; auto.
  - rewrite app_nil_r. pose proof St as (H1 & _ & _ & _ & _ & H6 & H7).
    assert (Same : forall g, gen fr = g -> (forall r, g <> Resuming r) ->
                   resume s w = w).
    { intros g G N. unfold resume. rewrite H1, G.
      destruct g; auto. destruct (N result eq_refl). }
    destruct (gen fr) as [| |[v|]|v|e] eqn:G; try congruence;
      try (destruct (H7 _ eq_refl)).
    + rewrite (Same _ eq_refl) by discriminate. exists fr.
      split; auto. split; [|split; [auto|split; intros X; try discriminate]].
      * unfold open_stream. rewrite G. auto 10.
      * split; auto. intros r. rewrite G. discriminate.
    + destruct (streaming_continues s id w fr v St G) as (S' & A' & _).
      exists (do_yield v fr).
      split; auto. split; [|split; [exact A'|split]].
      * unfold open_stream. cbn. cbn in O5. inversion O5; subst.
        repeat split; auto; try discriminate; try congruence.
      * intros _. split; auto. intros r. cbn. discriminate.
      * intros X; discriminate.
    + rewrite (Same _ eq_refl) by discriminate. exists fr.
      split; auto. split; [|split; [auto|split; intros X; try discriminate]].
      * unfold open_stream. rewrite G. auto 10.
      * split; auto. intros r. rewrite G. discriminate.
Qed.

Lemma open_run (evs : list StreamEvent) :
  forall w fr,
    streaming s id w fr -> open_stream fr -> Forall (quiet_event id) evs ->
    exists fr',
      streaming s id (stream_run stringify s w evs) fr'
      /\ open_stream fr'
      /\ accounted fr' = accounted fr ++ arrivals evs.
Proof.
  induction evs as [|ev evs IH]; intros w fr St O Q.
  - exists fr. cbn. now rewrite app_nil_r.
  - inversion Q; subst. cbn [stream_run fold_left].
    destruct (open_step w fr ev St O H1) as (fr1 & S1 & O1 & A1 & _).
    destruct (IH _ fr1 S1 O1 H2) as (fr' & S' & O' & A').
    exists fr'. split; auto. split; auto.
    change (ev :: evs) with ([ev] ++ evs).
    now rewrite arrivals_app, app_assoc, <- A1.
Qed.

(** A body that waits for a response ignores further pulls. *)
Lemma idle_pulls (n : nat) (w : World) (fr : StreamFrame) :
  streaming s id w fr -> gen fr = AwaitingResolver ->
  stream_run stringify s w (repeat Pulls n) = w
  /\ yielded fr = accounted fr.
Proof.
  intros (H1 & _ & _ & _ & H5 & _) G. split.
  - unfold stream_run. induction n as [|n IHn]; auto.
    cbn [repeat fold_left stream_step].
    unfold next. rewrite H1, G. exact IHn.
  - unfold accounted. rewrite G, (H5 G). cbn. now rewrite app_nil_r.
Qed.

(** A consumer that keeps pulling empties the queue. *)
Lemma drain_pulls (n : nat) :
  forall w fr,
    streaming s id w fr -> open_stream fr ->
    (forall r, gen fr <> Resuming r) ->
    length (queue fr) < n ->
    exists fr',
      streaming s id (stream_run stringify s w (repeat Pulls n)) fr'
      /\ open_stream fr'
      /\ gen fr' = AwaitingResolver
      /\ yielded fr' = accounted fr.
Proof.
  induction n as [|n IH]; intros w fr St O NR Hn; [lia|].
  assert (Q : quiet_event id Pulls) by (intros m X; discriminate).
  destruct (open_step w fr Pulls St O Q) as (fr1 & S1 & O1 & A1 & _ & P).
  cbn [arrivals] in A1. rewrite app_nil_r in A1.
  destruct (P eq_refl) as [(-> & Hw & Ny)|(v & G & Hq)].
  - assert (G : gen fr = AwaitingResolver).
    { pose proof St as (_ & _ & _ & _ & _ & H6 & H7).
      destruct (gen fr) as [| |r|v|e] eqn:G; auto;
        [congruence|destruct (NR r eq_refl)|destruct (Ny v eq_refl)
        |destruct (H7 e eq_refl)]. }
    destruct (idle_pulls (S n) w fr St G) as [E Y].
    exists fr. rewrite E. auto.
  - cbn [repeat stream_run fold_left].
    destruct (queue fr) as [|x q] eqn:Qe.
    + destruct (idle_pulls n _ fr1 S1 Hq) as [E Y].
      exists fr1. unfold stream_run in E. rewrite E.
      split; auto. split; auto. split; auto. congruence.
    + destruct Hq as [Hg Hq'].
      destruct (IH _ fr1 S1 O1) as (fr' & S' & O' & G' & Y').
      * intros r. rewrite Hg. discriminate.
      * rewrite Hq'. cbn in Hn. lia.
      * exists fr'. repeat split; auto; try apply S'; try apply O'.
        congruence.
Qed.

End OpenStream.

(** X10.  As long as no terminal response has arrived and the connection
    has not failed, a stream loses nothing: for every interleaving of
    non-terminal arrivals for its id, pulls and continuations, the stream
    is still running and the responses handed over, on their way or queued
    are exactly the arrivals, in order; and a consumer that then keeps
    pulling receives all of them and ends up waiting for the next one. *)
Theorem stream_keeps_every_item :
  forall stringify s id w fr evs,
    streaming s id w fr ->
    open_stream fr ->
    Forall (quiet_event id) evs ->
    let w' := stream_run stringify s w evs in
    exists fr',
      streaming s id w' fr'
      /\ accounted fr' = accounted fr ++ arrivals evs
      /\ exists fr'',
          nth_error
            (streams
               (stream_run stringify s w'
                  (Continues :: repeat Pulls (S (length (queue fr'))))))
            s = Some fr''
          /\ yielded fr'' = accounted fr ++ arrivals evs
          /\ gen fr'' = AwaitingResolver.
Proof.
  intros stringify s id w fr evs St O Q w'.
  destruct (open_run stringify s id evs w fr St O Q) as (fr' & S' & O' & A').
  fold w' in S'. exists fr'. split; auto. split; auto.
  assert (QC : quiet_event id Continues) by (intros m X; discriminate).
  destruct (open_step stringify s id w' fr' Continues S' O' QC)
    as (fr1 & S1 & O1 & A1 & NR & _).
  cbn [arrivals] in A1. rewrite app_nil_r in A1.
  cbn [stream_run fold_left].
  destruct (NR eq_refl) as [NR' L].
  destruct (drain_pulls stringify s id (S (length (queue fr'))) _ fr1 S1 O1
              NR') as (fr'' & S'' & _ & G'' & Y''); [rewrite L; lia|].
  exists fr''. split; [apply S''|]. split; auto. congruence.
Qed.

(** ** transport.ts: the first pull of a stream *)

Lemma list_set_twice {A} (n : nat) (x y : A) (l : list A) :
  list_set n y (list_set n x l) = list_set n y l.
Proof.
  revert n; induction l as [|h t IH]; intros [|n]; simpl; auto.
  now rewrite IH.
Qed.

(** The first pull on a connected transport, the write succeeding. *)
Lemma start_streaming (stringify : Request -> string) (s : nat) (w : World)
  (fr : StreamFrame) :
  nth_error (streams w) s = Some fr ->
  gen fr = NotStarted ->
  not_connected w = false ->
  let id := request_id (s_request fr) in
  let fr' := mkStream (s_request fr) [] true None false (onResponse_prop w)
                      AwaitingResolver (yielded fr) in
  let w' := next stringify s WriteOk w in
  streaming s id w' fr'
  /\ open_stream fr'
  /\ pending w' = Map_set id (mkPending (StreamSink s) [] None) (pending w)
  /\ trace w' = trace w ++ [SocketWrite (or_default (socket w) 0)
                                        (frame_of stringify (s_request fr))]
  /\ timers w' = timers w
  /\ promises w' = promises w
  /\ state w' = state w
  /\ socket w' = socket w.
Proof.
  intros H G C id fr' w'.
  assert (L : s < length (streams w)) by (apply nth_error_Some; congruence).
  assert (E : w' =
    mkWorld (state w) (socket w)
      (Map_set id (mkPending (StreamSink s) [] None) (pending w))
      (nextId w) (StreamOverride s id (onResponse_prop w))
      (promises w) (timers w) (next_timer w)
      (list_set s fr' (streams w)) (attempts w)
      (trace w ++ [SocketWrite (or_default (socket w) 0)
                               (frame_of stringify (s_request fr))])).
  { unfold w', id, fr', next. rewrite H, G. unfold start. rewrite H, C.
    unfold loop_head, update_stream.
    destruct w; cbn in *. rewrite H. cbn.
    rewrite !nth_error_list_set_eq by auto. cbn.
    rewrite list_set_twice. reflexivity. }
  rewrite E. cbn [pending trace timers promises state socket].
  split; [|split; [|repeat split]].
  - unfold streaming.
    cbn [streams onResponse_prop]. rewrite (nth_error_list_set_eq s _ _ L).
    unfold fr'. cbn. repeat split; auto; discriminate.
  - unfold open_stream, fr'. cbn. repeat split; auto; try discriminate.
Qed.

(** The first pull on a connected transport, the write throwing: the
    [finally] block undoes the registration. *)
Lemma start_write_throws (stringify : Request -> string) (s : nat)
  (w : World) (fr : StreamFrame) (message : string) :
  nth_error (streams w) s = Some fr ->
  gen fr = NotStarted ->
  not_connected w = false ->
  let id := request_id (s_request fr) in
  next stringify s (WriteThrows message) w
  = mkWorld (state w) (socket w) (Map_delete id (pending w)) (nextId w)
      (onResponse_prop w) (promises w) (timers w) (next_timer w)
      (list_set s
         (mkStream (s_request fr) [] false None false (onResponse_prop w)
                   (Completed (Some (ThrownError message))) (yielded fr))
         (streams w))
      (attempts w) (trace w).
Proof.
  intros H G C id.
  assert (L : s < length (streams w)) by (apply nth_error_Some; congruence).
  unfold id, next. rewrite H, G. unfold start. rewrite H, C.
  unfold run_finally, update_stream.
  destruct w; cbn -[Map_delete Map_set] in *. rewrite H.
  cbn -[Map_delete Map_set].
  rewrite !nth_error_list_set_eq by auto. cbn -[Map_delete Map_set].
  rewrite list_set_twice, Map_delete_set. reflexivity.
Qed.

Lemma stream_creates (request : Request) (w : World) :
  nth_error (streams (fst (stream request w))) (snd (stream request w))
  = Some (mkStream request [] false None false OnResponseMethod NotStarted []).
Proof.
  unfold stream. cbn [fst snd streams set_streams].
  rewrite nth_error_app2, Nat.sub_diag; auto.
Qed.

(** X11.  The first pull of a stream on a connected transport registers an
    entry without a timer under the request id, installs the override over
    the handler in place, writes the one frame of the request and suspends
    waiting for a response; no timer is armed, so a stream never times out.
    When the write throws, the error reaches the consumer as it was thrown
    (not wrapped as [send] does), the handler is put back, the entry is
    removed, and nothing has been written. *)
Theorem stream_first_pull :
  forall stringify request w,
    not_connected w = false ->
    let s := snd (stream request w) in
    let w0 := fst (stream request w) in
    let id := request_id request in
    (let w1 := next stringify s WriteOk w0 in
     Map_get id (pending w1) = Some (mkPending (StreamSink s) [] None)
     /\ onResponse_prop w1 = StreamOverride s id (onResponse_prop w)
     /\ trace w1 = trace w ++ [SocketWrite (or_default (socket w) 0)
                                           (frame_of stringify request)]
     /\ timers w1 = timers w
     /\ exists fr,
         streaming s id w1 fr /\ open_stream fr
         /\ gen fr = AwaitingResolver /\ accounted fr = [])
    /\ (forall message,
        let w2 := next stringify s (WriteThrows message) w0 in
        option_map gen (nth_error (streams w2) s)
        = Some (Completed (Some (ThrownError message)))
        /\ pending w2 = Map_delete id (pending w)
        /\ onResponse_prop w2 = onResponse_prop w
        /\ trace w2 = trace w
        /\ timers w2 = timers w
        /\ promises w2 = promises w).
Proof.
  intros stringify request w C s w0 id.
  pose proof (stream_creates request w) as H. fold s w0 in H.
  assert (C0 : not_connected w0 = false) by exact C.
  split.
  - destruct (start_streaming stringify s w0 _ H eq_refl C0)
      as (St & O & P & T & Tm & _).
    cbn [s_request yielded] in *. cbv zeta.
    split; [|split; [|split; [exact T|split; [exact Tm|]]]].
    + rewrite P. apply Map_get_set_eq.
    + apply St.
    + eexists. split; [exact St|]. split; [exact O|]. split; reflexivity.
  - intros message. cbv zeta.
    rewrite (start_write_throws stringify s w0 _ message H eq_refl C0).
    cbn [streams pending onResponse_prop trace timers promises s_request].
    rewrite nth_error_list_set_eq
      by (apply nth_error_Some; rewrite H; discriminate).
    repeat split.
Qed.

Lemma stream_first_pull_witness :
  trace streaming1
  = [BunConnect 0 DEFAULT_SOCKET_PATH;
     SocketWrite 0 (frame_of demo_stringify (ping "1"))]
  /\ timers streaming1 = [].
Proof.
  destruct (stream_first_pull demo_stringify (ping "1") connected0 eq_refl)
    as [(_ & _ & T & Tm & _) _].
  split; [exact T|exact Tm].
Defined.

Lemma streaming_streaming1 : streaming 0 "1" streaming1 frame1.
Proof.
  exact (proj1 (start_streaming demo_stringify 0
                  (fst (stream (ping "1") connected0)) _
                  eq_refl eq_refl eq_refl)).
Qed.

Lemma open_frame1 : open_stream frame1.
Proof.
  unfold open_stream, frame1. cbn.
  repeat split; auto; try discriminate.
Qed.

Lemma stream_yields_prefix_witness :
  exists fr' rest,
    nth_error
      (streams
         (stream_run demo_stringify 0 streaming1
            [Arrives (ItemResponse "1" "[1]"); Continues;
             Arrives (ItemResponse "1" "[2]"); Arrives (DoneResponse "1");
             Pulls; Pulls])) 0 = Some fr'
    /\ [ItemResponse "1" "[1]"; ItemResponse "1" "[2]"; DoneResponse "1"]
       = yielded fr' ++ rest
    /\ ((forall e, gen fr' <> Completed e) ->
        rest = in_flight (gen fr') ++ queue fr').
Proof.
  apply (stream_yields_prefix demo_stringify 0 "1" streaming1 frame1
           [Arrives (ItemResponse "1" "[1]"); Continues;
            Arrives (ItemResponse "1" "[2]"); Arrives (DoneResponse "1");
            Pulls; Pulls]).
  - exact streaming_streaming1.
  - repeat constructor; intros m [= <-]; reflexivity.
Defined.

Lemma stream_keeps_every_item_witness :
  exists fr',
    streaming 0 "1"
      (stream_run demo_stringify 0 streaming1
         [Arrives (ItemResponse "1" "[1]"); Arrives (ItemResponse "1" "[2]");
          Continues; Arrives (ItemResponse "1" "[3]")]) fr'
    /\ accounted fr'
       = [ItemResponse "1" "[1]"; ItemResponse "1" "[2]";
          ItemResponse "1" "[3]"].
Proof.
  destruct (stream_keeps_every_item demo_stringify 0 "1" streaming1 frame1
              [Arrives (ItemResponse "1" "[1]");
               Arrives (ItemResponse "1" "[2]");
               Continues; Arrives (ItemResponse "1" "[3]")]
              streaming_streaming1 open_frame1)
    as (fr' & S' & A' & _).
  - repeat (apply Forall_cons;
            [intros m E; try discriminate; injection E as <-;
             split; reflexivity|]).
    apply Forall_nil.
  - exists fr'. split; [exact S'|exact A'].
Defined.

(** ** transport.ts: how a stream ends *)

Lemma streaming_released (stringify : Request -> string) (s : nat)
  (id : string) (w : World) (fr : StreamFrame) (thrown : option JsError) :
  streaming s id w fr -> resolver fr = false ->
  released stringify s id fr thrown w (run_finally s thrown w).
Proof.
  intros (H1 & H2 & _) R.
  destruct (run_finally_at s thrown w fr H1) as (A & B & C & D & E).
  assert (I : forall wr,
             next stringify s wr (run_finally s thrown w)
             = run_finally s thrown w
             /\ resume s (run_finally s thrown w) = run_finally s thrown w
             /\ gen_return s (run_finally s thrown w)
                = run_finally s thrown w).
  { intros wr. apply (completed_inert stringify s wr _ _ thrown A).
    reflexivity. }
  unfold released. rewrite B, C, D, E, H2.
  split; [|repeat split; try apply (I WriteOk); intros wr; apply (I wr)].
  exists (set_gen (Completed thrown) fr). repeat split; auto.
Qed.

Lemma next_leaves (stringify : Request -> string) (s : nat) (w : World)
  (fr : StreamFrame) (v : Response) (wr : WriteOutcome) :
  nth_error (streams w) s = Some fr ->
  gen fr = AtYield v ->
  isTerminal v = true \/ s_done fr = true \/ s_error fr <> None ->
  next stringify s wr w = run_finally s (s_error fr) w.
Proof.
  intros H1 G C. unfold next. rewrite H1, G.
  destruct (isTerminal v) eqn:T.
  - unfold leave_loop. now rewrite H1.
  - unfold loop_head. rewrite H1.
    destruct C as [C|[C|C]]; [discriminate| |].
    + rewrite C. cbn [negb andb]. unfold leave_loop. now rewrite H1.
    + destruct (s_error fr) eqn:Er; [|congruence].
      cbn [is_some negb]. rewrite andb_false_r.
      unfold leave_loop. now rewrite H1, Er.
Qed.

(** X12.  However the body of a stream leaves its loop, it gives up its
    registration, once: when the consumer abandons it at a yielded value
    with [return()], when the consumer pulls after a terminal value or
    after the loop condition has turned false, and when the body is woken
    by [errorHandler].  The entry of the request is deleted, the handler
    found at the start is put back, the consumer has received what it had
    received, and every later [next()], continuation or [return()] changes
    nothing.  The stream ends by a return in the first case and otherwise
    throws the error recorded by [errorHandler], if any. *)
Theorem stream_release :
  forall stringify s id w fr,
    streaming s id w fr ->
    (forall v, gen fr = AtYield v ->
               released stringify s id fr None w (gen_return s w))
    /\ (forall v wr,
          gen fr = AtYield v ->
          isTerminal v = true \/ s_done fr = true \/ s_error fr <> None ->
          released stringify s id fr (s_error fr) w (next stringify s wr w))
    /\ (gen fr = Resuming IterDone ->
        released stringify s id fr (s_error fr) w (resume s w)).
Proof.
  intros stringify s id w fr St. pose proof St as (H1 & _).
  split; [|split].
  - intros v G. unfold gen_return. rewrite H1, G.
    apply streaming_released; auto.
    apply (not_awaiting_resolver s id w fr St). congruence.
  - intros v wr G C.
    assert (R : resolver fr = false)
      by (apply (not_awaiting_resolver s id w fr St); congruence).
    rewrite (next_leaves stringify s w fr v wr H1 G C).
    now apply streaming_released.
  - intros G. unfold resume. rewrite H1, G. unfold leave_loop. rewrite H1.
    apply streaming_released; auto.
    apply (not_awaiting_resolver s id w fr St). congruence.
Qed.

Lemma streaming_yielding1 : streaming 0 "1" yielding1 frame1_item.
Proof.
  assert (A : streaming 0 "1" (dispatch (ItemResponse "1" "[1]") streaming1)
                (handler (ItemResponse "1" "[1]") frame1)).
  { apply (streaming_arrives 0 "1" streaming1 frame1);
      [exact streaming_streaming1|reflexivity]. }
  exact (proj1 (streaming_continues 0 "1" _ _ (ItemResponse "1" "[1]")
                  A eq_refl)).
Qed.

Lemma stream_release_witness :
  released demo_stringify 0 "1" frame1_item None yielding1
    (gen_return 0 yielding1).
Proof.
  apply (proj1 (stream_release demo_stringify 0 "1" yielding1 frame1_item
                  streaming_yielding1) (ItemResponse "1" "[1]")).
  reflexivity.
Defined.

(** ** transport.ts: [close] and a running stream *)

Lemma reject_fold_handler (l : list (string * PendingRequest)) :
  forall w,
    onResponse_prop (fold_left reject_one l w) = onResponse_prop w.
Proof.
  induction l as [|kv l IH]; intros w; cbn [fold_left]; auto.
  rewrite IH. unfold reject_one, reject_entry, update_stream.
  cbn [onResponse_prop set_pending].
  destruct (sink (snd kv)) as [p|s'];
    [|destruct (nth_error (streams (clear_timer (timer (snd kv)) w)) s')];
    destruct (timer (snd kv)); reflexivity.
Qed.

Lemma close_handler (w : World) :
  onResponse_prop (close w) = onResponse_prop w.
Proof.
  rewrite close_unfold, reject_fold_handler. now destruct (socket w).
Qed.

Lemma close_stream_frame (w : World) (k : string) (e : PendingRequest)
  (s : nat) (fr : StreamFrame) :
  In (k, e) (pending w) -> sink e = StreamSink s ->
  nth_error (streams w) s = Some fr ->
  nth_error (streams (close w)) s = Some (errorHandler connection_closed fr).
Proof.
  intros Hin Hs H. rewrite close_unfold.
  apply (reject_fold_stream s fr (pending w)).
  - left. destruct (socket w); exact H.
  - right. exists (k, e). auto.
Qed.

(** After [close] the stream is still registered as the handler, with the
    frame its [errorHandler] has left. *)
Lemma streaming_close (s : nat) (id : string) (w : World) (fr : StreamFrame)
  (k : string) (e : PendingRequest) :
  streaming s id w fr ->
  In (k, e) (pending w) -> sink e = StreamSink s ->
  streaming s id (close w) (errorHandler connection_closed fr).
Proof.
  intros (H1 & H2 & H3 & H4 & H5 & H6 & H7) Hin Hs.
  unfold streaming.
  rewrite (close_stream_frame w k e s fr Hin Hs H1), close_handler.
  unfold errorHandler. destruct (resolver fr) eqn:R; cbn.
  - repeat split; auto; try discriminate.
  - repeat split; auto; try discriminate.
    intros G. apply H4 in G. congruence.
Qed.

Lemma released_after_close (stringify : Request -> string) (s : nat)
  (id : string) (w : World) (fr fc : StreamFrame) (w' : World) :
  yielded fc = yielded fr -> s_original fc = s_original fr ->
  released stringify s id fc (s_error fc) (close w) w' ->
  s_error fc = Some connection_closed ->
  released stringify s id fr (Some connection_closed) (close w) w'
  /\ pending w' = [].
Proof.
  unfold released. intros Y O (A & B & C & D) E.
  rewrite <- Y, <- O, <- E. split; [tauto|].
  rewrite B, (proj1 (proj2 (proj2 (close_result w)))). reflexivity.
Qed.

(** X14.  [close] ends a running stream with the connection-reset error.
    A body waiting for a response is woken and throws when it continues; a
    consumer holding a yielded value gets the error at its next pull, even
    when that value was the terminal response and even when responses are
    still queued, which are never handed over; a response already on its
    way to the consumer is still handed over, and the pull after it throws.
    In every case the stream then gives up its registration: the handler
    it had found is back and the table is empty. *)
Theorem close_ends_stream :
  forall stringify s id w fr e,
    streaming s id w fr ->
    Map_get id (pending w) = Some e ->
    sink e = StreamSink s ->
    let c := close w in
    (gen fr = AwaitingResolver ->
     released stringify s id fr (Some connection_closed) c (resume s c)
     /\ pending (resume s c) = [])
    /\ (forall v wr,
          gen fr = AtYield v ->
          released stringify s id fr (Some connection_closed) c
            (next stringify s wr c)
          /\ pending (next stringify s wr c) = [])
    /\ (forall v wr,
          gen fr = Resuming (IterValue v) ->
          nth_error (streams (resume s c)) s
          = Some (do_yield v (errorHandler connection_closed fr))
          /\ released stringify s id (do_yield v fr) (Some connection_closed)
               c (next stringify s wr (resume s c))
          /\ pending (next stringify s wr (resume s c)) = []).
Proof.
  intros stringify s id w fr e St Hg Hs c.
  pose proof (streaming_close s id w fr id e St (Map_get_In _ _ _ Hg) Hs)
    as Sc.
  fold c in Sc. pose proof Sc as (C1 & _).
  pose proof St as (_ & _ & _ & H4 & _).
  split; [|split].
  - intros G. assert (R : resolver fr = true) by (now apply H4).
    apply released_after_close
      with (fc := errorHandler connection_closed fr);
      try (unfold errorHandler; rewrite R; reflexivity).
    assert (Gc : gen (errorHandler connection_closed fr) = Resuming IterDone)
      by (unfold errorHandler; rewrite R; reflexivity).
    unfold resume. fold c. rewrite C1, Gc. unfold leave_loop. rewrite C1.
    apply (streaming_released stringify s id c _ _ Sc).
    unfold errorHandler. now rewrite R.
  - intros v wr G.
    assert (R : resolver fr = false)
      by (apply (not_awaiting_resolver s id w fr St); congruence).
    apply released_after_close
      with (fc := errorHandler connection_closed fr);
      try (unfold errorHandler; rewrite R; reflexivity).
    assert (Gc : gen (errorHandler connection_closed fr) = AtYield v)
      by (unfold errorHandler; rewrite R; exact G).
    rewrite (next_leaves stringify s c _ v wr C1 Gc).
    + apply (streaming_released stringify s id c _ _ Sc).
      unfold errorHandler. now rewrite R.
    + right. right. unfold errorHandler. rewrite R. discriminate.
  - intros v wr G.
    assert (R : resolver fr = false)
      by (apply (not_awaiting_resolver s id w fr St); congruence).
    assert (Gc : gen (errorHandler connection_closed fr)
                 = Resuming (IterValue v))
      by (unfold errorHandler; rewrite R; exact G).
    destruct (streaming_continues s id c _ v Sc Gc) as (S1 & _).
    pose proof S1 as (D1 & _). split; [exact D1|].
    apply released_after_close with
      (fc := do_yield v (errorHandler connection_closed fr));
      try (unfold errorHandler; rewrite R; reflexivity).
    rewrite (next_leaves stringify s (resume s c) _ v wr D1 eq_refl).
    + pose proof (streaming_released stringify s id (resume s c) _
                    (s_error (do_yield v (errorHandler connection_closed fr)))
                    S1) as Rl.
      unfold released in *.
      rewrite (proj2 (proj2 (streaming_continues s id c _ v Sc Gc))) in Rl.
      assert (T : trace (resume s c) = trace c /\
                  promises (resume s c) = promises c).
      { unfold resume. rewrite C1, Gc. unfold update_stream. rewrite C1.
        split; reflexivity. }
      destruct T as [T1 T2]. rewrite T1, T2 in Rl. apply Rl.
      unfold errorHandler. now rewrite R.
    + right. right. unfold errorHandler. rewrite R. discriminate.
Qed.

Lemma close_ends_stream_witness :
  released demo_stringify 0 "1" frame1 (Some connection_closed)
    (close streaming1) (resume 0 (close streaming1))
  /\ pending (resume 0 (close streaming1)) = [].
Proof.
  apply (proj1 (close_ends_stream demo_stringify 0 "1" streaming1 frame1
                  (mkPending (StreamSink 0) [] None)
                  streaming_streaming1 eq_refl eq_refl)).
  reflexivity.
Defined.

(** ** transport.ts: streams that overlap *)

Lemma deliver_past_handler (id : string) (msgs : list Response) :
  forall w,
    intercepts id (onResponse_prop w) = false ->
    Forall (fun m => response_id m = id) msgs ->
    streams (deliver msgs w) = streams w
    /\ onResponse_prop (deliver msgs w) = onResponse_prop w.
Proof.
  induction msgs as [|m msgs IH]; intros w N F; [now split|].
  apply Forall_cons_iff in F as [Hm F']. cbn [deliver fold_left].
  assert (E : dispatch m w = onResponse m w).
  { apply dispatch_not_intercepted. now rewrite Hm. }
  rewrite E.
  destruct (IH (onResponse m w)) as [I1 I2]; auto.
  - now rewrite onResponse_hook.
  - unfold deliver in *. rewrite I1, I2.
    now rewrite onResponse_streams, onResponse_hook.
Qed.

Lemma run_finally_other (s s' : nat) (thrown : option JsError) (w : World)
  (fr : StreamFrame) :
  s <> s' ->
  nth_error (streams w) s' = Some fr ->
  nth_error (streams (run_finally s thrown w)) s' = Some fr.
Proof.
  intros N H. unfold run_finally.
  destruct (nth_error (streams w) s) as [fr0|] eqn:E; auto.
  rewrite (update_stream_lookup s' s _ _ fr) by exact H.
  destruct (Nat.eqb_spec s' s); congruence.
Qed.

(** X13.  Two streams that overlap.  Stream B was started while stream A
    was running, so its override sits on top of A's.  When they end in the
    reverse order of their starts, each puts back the handler under it and
    the chain is unwound.  When A ends first, it puts back the handler it
    had found, which removes B's override although B still runs: the
    responses for B's id no longer reach B, whose frame never changes
    again, so its consumer is never woken by a response; and when B ends,
    it reinstalls the override of A, a stream that is over. *)
Theorem overlapping_streams :
  forall sA idA sB idB w frA frB vA,
    streaming sB idB w frB ->
    nth_error (streams w) sA = Some frA ->
    sA <> sB ->
    s_original frB = StreamOverride sA idA (s_original frA) ->
    intercepts idB (s_original frA) = false ->
    gen frA = AtYield vA ->
    (* B first, then A *)
    (forall vB,
        gen frB = AtYield vB ->
        onResponse_prop (gen_return sB w)
        = StreamOverride sA idA (s_original frA)
        /\ onResponse_prop (gen_return sA (gen_return sB w))
           = s_original frA)
    (* A first *)
    /\ (let w' := gen_return sA w in
        onResponse_prop w' = s_original frA
        /\ nth_error (streams w') sB = Some frB
        /\ option_map gen (nth_error (streams w') sA) = Some (Completed None)
        /\ (forall msgs,
               Forall (fun m => response_id m = idB) msgs ->
               nth_error (streams (deliver msgs w')) sB = Some frB)
        /\ (forall vB,
               gen frB = AtYield vB ->
               onResponse_prop (gen_return sB w')
               = StreamOverride sA idA (s_original frA)
               /\ option_map gen (nth_error (streams (gen_return sB w')) sA)
                  = Some (Completed None))).
Proof.
  intros sA idA sB idB w frA frB vA St HA N OB NI GA.
  pose proof St as (HB & _).
  assert (RA : gen_return sA w = run_finally sA None w)
    by (unfold gen_return; now rewrite HA, GA).
  destruct (run_finally_at sA None w frA HA) as (A1 & A2 & A3 & _).
  pose proof (run_finally_other sA sB None w frB N HB) as B1.
  split.
  - intros vB GB.
    assert (RB : gen_return sB w = run_finally sB None w)
      by (unfold gen_return; now rewrite HB, GB).
    destruct (run_finally_at sB None w frB HB) as (_ & _ & B3 & _).
    assert (HA' : nth_error (streams (run_finally sB None w)) sA = Some frA)
      by (apply run_finally_other; auto).
    rewrite RB. split; [now rewrite B3, OB|].
    unfold gen_return. rewrite HA', GA.
    apply (run_finally_at sA None _ frA HA').
  - cbv zeta. rewrite RA.
    split; [exact A3|]. split; [exact B1|]. split; [now rewrite A1|].
    split.
    + intros msgs F.
      destruct (deliver_past_handler idB msgs (run_finally sA None w))
        as [D _]; auto.
      * now rewrite A3.
      * now rewrite D.
    + intros vB GB.
      assert (RB : gen_return sB (run_finally sA None w)
                   = run_finally sB None (run_finally sA None w))
        by (unfold gen_return; now rewrite B1, GB).
      rewrite RB.
      destruct (run_finally_at sB None _ frB B1) as (_ & _ & B3 & _).
      split; [now rewrite B3, OB|].
      rewrite (run_finally_other sB sA None _ _ (not_eq_sym N) A1).
      reflexivity.
Qed.

Lemma streaming_two_streams : streaming 1 "2" two_streams frame2.
Proof.
  exact (proj1 (start_streaming demo_stringify 1
                  (fst (stream (ping "2") yielding1)) _
                  eq_refl eq_refl eq_refl)).
Qed.

Lemma overlapping_streams_witness :
  onResponse_prop (gen_return 0 two_streams) = OnResponseMethod
  /\ nth_error
       (streams (deliver [ItemResponse "2" "[1]"; DoneResponse "2"]
                   (gen_return 0 two_streams))) 1
     = Some frame2.
Proof.
  destruct (overlapping_streams 0 "1" 1 "2" two_streams frame1_item frame2
              (ItemResponse "1" "[1]") streaming_two_streams eq_refl)
    as (_ & H1 & _ & _ & H4 & _);
    [discriminate|reflexivity|reflexivity|reflexivity|].
  split; [exact H1|]. apply H4. repeat constructor.
Defined.

(** ** What fulfilled promises hold, in every reachable world *)

Lemma settle_cases {A} (p q : nat) (v x : Promise A) (ps : list (Promise A)) :
  nth_error (settle p v ps) q = Some x ->
  nth_error ps q = Some x \/ x = v.
Proof.
  unfold settle. destruct (nth_error ps p) as [[| |]|] eqn:E; auto.
  destruct (Nat.eq_dec p q) as [<-|N].
  - rewrite nth_error_list_set_eq
      by (apply nth_error_Some; congruence).
    intros [= <-]. now right.
  - rewrite nth_error_list_set_neq by exact N. now left.
Qed.

Lemma Inv5_same pd pr pd' pr' :
  pd' = pd -> pr' = pr -> Inv5 pd pr -> Inv5 pd' pr'.
Proof. now intros -> ->. Qed.

Lemma Inv5_delete k pd pr : Inv5 pd pr -> Inv5 (Map_delete k pd) pr.
Proof.
  intros [C F]. split; auto.
  intros k' e Hin. apply In_Map_delete in Hin as [_ Hin]. eauto.
Qed.

Lemma Inv5_register k e pd pr :
  responses e = [] -> Inv5 pd pr -> Inv5 (Map_set k e pd) pr.
Proof.
  intros R [C F]. split; auto.
  intros k' e' Hin. apply In_Map_set_inv in Hin as [[= -> ->]|Hin]; eauto.
  rewrite R. constructor.
Qed.

Lemma Inv5_touch r e pd pr :
  Map_get (response_id r) pd = Some e -> isTerminal r = false ->
  Inv5 pd pr ->
  Inv5 (Map_set (response_id r)
          (mkPending (sink e) (responses e ++ [r]) (timer e)) pd) pr.
Proof.
  intros He Ht [C F]. split; auto.
  intros k' e' Hin. apply In_Map_set_inv in Hin as [[= -> ->]|Hin]; eauto.
  cbn [responses]. apply Forall_app. split.
  - apply (C _ _ (Map_get_In _ _ _ He)).
  - repeat constructor. exact Ht.
Qed.

Lemma Inv5_settle p v pd pr :
  (forall rs, v = Fulfilled rs -> complete_exchange rs) ->
  Inv5 pd pr -> Inv5 pd (settle p v pr).
Proof.
  intros Hv [C F]. split; auto.
  intros q rs H. apply settle_cases in H as [H|H]; eauto.
Qed.

Lemma Inv5_promise pd pr : Inv5 pd pr -> Inv5 pd (pr ++ @Pending _ :: nil).
Proof.
  intros [C F]. split; auto.
  intros q rs H.
  destruct (Nat.lt_ge_cases q (length pr)) as [L|L].
  - rewrite nth_error_app1 in H by exact L. eauto.
  - rewrite nth_error_app2 in H by exact L.
    destruct (q - length pr) as [|[|n]]; discriminate.
Qed.

Section ExchangeSteps.
Variable stringify : Request -> string.
Variable parse : string -> option Response.

Lemma inv5_update_stream s f w : inv5 w -> inv5 (update_stream s f w).
Proof.
  intros I. unfold update_stream.
  destruct (nth_error (streams w) s); exact I.
Qed.

Lemma inv5_update_attempt a f w : inv5 w -> inv5 (update_attempt a f w).
Proof.
  intros I. unfold update_attempt.
  destruct (nth_error (attempts w) a); exact I.
Qed.

Lemma inv5_clear_timer t w : inv5 w -> inv5 (clear_timer t w).
Proof. intros I. destruct t; exact I. Qed.

Lemma inv5_attempt_resolve a w : inv5 w -> inv5 (attempt_resolve a w).
Proof.
  intros I. unfold attempt_resolve.
  destruct (nth_error (attempts w) a) as [x|]; [|exact I].
  destruct (a_promise x); try exact I.
  apply (inv5_update_attempt a _ w I).
Qed.

Lemma inv5_attempt_reject a err w : inv5 w -> inv5 (attempt_reject a err w).
Proof.
  intros I. unfold attempt_reject.
  destruct (nth_error (attempts w) a) as [x|]; [|exact I].
  destruct (a_promise x); try exact I.
  apply (inv5_update_attempt a _ w I).
Qed.

Lemma inv5_reject_one w kv : inv5 w -> inv5 (reject_one w kv).
Proof.
  intros I. unfold inv5.
  rewrite (proj1 (reject_one_frame w kv)), reject_one_promises.
  apply Inv5_delete.
  destruct (sink (snd kv)); [|exact I].
  apply Inv5_settle; [discriminate|exact I].
Qed.

Lemma inv5_reject_fold l :
  forall w, inv5 w -> inv5 (fold_left reject_one l w).
Proof.
  induction l as [|kv l IH]; intros w I; cbn [fold_left]; auto.
  apply IH. now apply inv5_reject_one.
Qed.

Lemma inv5_close w : inv5 w -> inv5 (close w).
Proof.
  intros I. rewrite close_unfold. apply inv5_reject_fold.
  destruct (socket w); exact I.
Qed.

Lemma inv5_onClose w : inv5 w -> inv5 (onClose w).
Proof. intros I. unfold onClose, reject_all. now apply inv5_reject_fold. Qed.

Lemma inv5_onResponse r w : inv5 w -> inv5 (onResponse r w).
Proof.
  intros I.
  destruct (Map_get (response_id r) (pending w)) as [e|] eqn:He.
  - destruct (isTerminal r) eqn:Ht.
    + rewrite (onResponse_terminal r e w He Ht).
      assert (J : Inv5 (Map_delete (response_id r) (pending w)) (promises w))
        by (apply Inv5_delete; exact I).
      unfold inv5, resolve_entry, promise_resolve.
      destruct (sink e) as [p|s]; destruct (timer e); try exact J;
        cbn [pending promises set_promises set_pending clear_timer
             clearTimeout set_timers];
        (apply Inv5_settle; [|exact J]);
        intros rs [= <-];
        exists (response_id r), (responses e), r;
        (split; [reflexivity|split; [|split; [reflexivity|exact Ht]]]);
        apply (inv_collected _ _ I _ _ (Map_get_In _ _ _ He)).
    + rewrite (onResponse_nonterminal r e w He Ht).
      apply (Inv5_touch r e _ _ He Ht I).
  - now rewrite onResponse_absent.
Qed.

Lemma inv5_dispatch r w : inv5 w -> inv5 (dispatch r w).
Proof.
  intros I. destruct (dispatch_cases r w) as [-> | [s ->]].
  - now apply inv5_onResponse.
  - now apply inv5_update_stream.
Qed.

Lemma inv5_onData_loop fuel :
  forall sd w sd' w',
    onData_loop parse fuel sd w = Some (sd', w') -> inv5 w -> inv5 w'.
Proof.
  induction fuel as [|fuel IH]; intros sd w sd' w'; simpl; [discriminate|].
  destruct (indexOf (buffer sd) newline =? -1)%Z.
  - now intros [= _ <-].
  - intros H I. apply (IH _ _ _ _ H).
    destruct (truthy _); auto. destruct (parse _); auto using inv5_dispatch.
Qed.

Lemma inv5_socket_data a chunk w :
  inv5 w -> inv5 (socket_data parse a chunk w).
Proof.
  intros I. unfold socket_data.
  destruct (nth_error (attempts w) a) as [x|]; auto.
  destruct (onData parse (a_data x) chunk w) as [[sd w']|] eqn:E; auto.
  apply inv5_update_attempt. unfold onData in E.
  apply (inv5_onData_loop _ _ _ _ _ E I).
Qed.

Lemma inv5_connect options w : inv5 w -> inv5 (fst (connect options w)).
Proof.
  intros I. unfold connect, setTimeout.
  destruct (negb (state_eqb (state w) Disconnected)); exact I.
Qed.

Lemma inv5_send request ms wr w :
  inv5 w -> inv5 (fst (send stringify request ms wr w)).
Proof.
  intros I. unfold send, setTimeout.
  destruct (not_connected w); [exact I|].
  assert (S : Inv5 (Map_set (request_id request)
                      (mkPending (BatchSink (length (promises w))) []
                                 (Some (next_timer w))) (pending w))
                   (promises w ++ [Pending])).
  { apply Inv5_register; [reflexivity|]. apply Inv5_promise. exact I. }
  destruct wr as [|message]; [exact S|].
  unfold inv5, promise_reject.
  cbn [fst pending promises timers next_timer set_promises set_pending
       set_timers set_next_timer clear_timer clearTimeout timer].
  apply Inv5_settle; [discriminate|]. apply Inv5_delete. exact S.
Qed.

Lemma inv5_run_finally s thrown w : inv5 w -> inv5 (run_finally s thrown w).
Proof.
  intros I. unfold run_finally.
  destruct (nth_error (streams w) s) as [fr|]; auto.
  apply inv5_update_stream. apply Inv5_delete. exact I.
Qed.

Lemma inv5_leave_loop s w : inv5 w -> inv5 (leave_loop s w).
Proof.
  intros I. unfold leave_loop.
  destruct (nth_error (streams w) s); auto using inv5_run_finally.
Qed.

Lemma inv5_loop_head s w : inv5 w -> inv5 (loop_head s w).
Proof.
  intros I. unfold loop_head.
  destruct (nth_error (streams w) s) as [fr|]; auto.
  destruct (negb (s_done fr) && negb (is_some (s_error fr)));
    [|now apply inv5_leave_loop].
  destruct (queue fr); now apply inv5_update_stream.
Qed.

Lemma inv5_start s wr w : inv5 w -> inv5 (start stringify s wr w).
Proof.
  intros I. unfold start.
  destruct (nth_error (streams w) s) as [fr|]; auto.
  destruct (not_connected w); [now apply inv5_update_stream|].
  assert (J : inv5
                (set_onResponse
                   (StreamOverride s (request_id (s_request fr))
                      (onResponse_prop w))
                   (update_stream s
                      (fun fr0 => mkStream (s_request fr0) [] false None false
                                    (onResponse_prop w) (gen fr0) (yielded fr0))
                      (set_pending
                         (Map_set (request_id (s_request fr))
                            (mkPending (StreamSink s) [] None) (pending w))
                         w)))).
  { assert (K : inv5
                  (set_pending
                     (Map_set (request_id (s_request fr))
                        (mkPending (StreamSink s) [] None) (pending w)) w))
      by (apply Inv5_register; [reflexivity|exact I]).
    exact (inv5_update_stream s _ _ K). }
  destruct wr.
  - apply inv5_loop_head. exact J.
  - apply inv5_run_finally. exact J.
Qed.

Lemma inv5_next s wr w : inv5 w -> inv5 (next stringify s wr w).
Proof.
  intros I. unfold next.
  destruct (nth_error (streams w) s) as [fr|]; auto.
  destruct (gen fr); auto using inv5_start.
  destruct (isTerminal response); auto using inv5_leave_loop, inv5_loop_head.
Qed.

Lemma inv5_resume s w : inv5 w -> inv5 (resume s w).
Proof.
  intros I. unfold resume.
  destruct (nth_error (streams w) s) as [fr|]; auto.
  destruct (gen fr); auto.
  destruct result; auto using inv5_leave_loop, inv5_update_stream.
Qed.

Lemma inv5_gen_return s w : inv5 w -> inv5 (gen_return s w).
Proof.
  intros I. unfold gen_return.
  destruct (nth_error (streams w) s) as [fr|]; auto.
  destruct (gen fr); auto using inv5_run_finally, inv5_update_stream.
Qed.

Lemma inv5_fire t w : inv5 w -> inv5 (fire t w).
Proof.
  intros I. unfold fire.
  destruct (timer_lookup t (timers w)) as [act|] eqn:Ht; auto.
  destruct act as [id p ms|a].
  - unfold inv5, promise_reject.
    cbn [pending promises timers next_timer set_promises set_pending
         set_timers clearTimeout].
    apply Inv5_settle; [discriminate|]. apply Inv5_delete. exact I.
  - assert (J : inv5 (clearTimeout t w)) by exact I.
    destruct (nth_error (attempts (clearTimeout t w)) a);
      auto using inv5_attempt_reject.
Qed.

Lemma inv5_socket_open a w : inv5 w -> inv5 (socket_open a w).
Proof.
  intros I. unfold socket_open. apply inv5_attempt_resolve.
  apply (inv5_clear_timer (attempt_timer a w) w I).
Qed.

Lemma inv5_socket_error a message w :
  inv5 w -> inv5 (socket_error a message w).
Proof.
  intros I. unfold socket_error. apply inv5_attempt_reject.
  apply (inv5_clear_timer (attempt_timer a w) w I).
Qed.

Lemma inv5_step w ev : inv5 w -> inv5 (step stringify parse w ev).
Proof.
  intros I. destruct ev; cbn [step].
  - exact I.
  - now apply inv5_connect.
  - now apply inv5_close.
  - now apply inv5_send.
  - exact I.
  - now apply inv5_next.
  - now apply inv5_gen_return.
  - now apply inv5_resume.
  - now apply inv5_fire.
  - destruct (a <? length (attempts w))%nat; auto using inv5_socket_open.
  - now apply inv5_socket_data.
  - destruct (a <? length (attempts w))%nat; auto using inv5_onClose.
  - destruct (a <? length (attempts w))%nat; auto using inv5_socket_error.
Qed.

Lemma inv5_run evs :
  forall w, inv5 w -> inv5 (run stringify parse w evs).
Proof.
  induction evs as [|ev evs IH]; intros w I; [exact I|].
  cbn [run fold_left]. apply IH. now apply inv5_step.
Qed.

End ExchangeSteps.

Lemma inv5_initial : inv5 initial.
Proof.
  split; cbn.
  - intros k e [].
  - intros [|p] rs; discriminate.
Qed.

(** X15.  In every transport built from a new one by any sequence of
    events (connects, sends with or without write failures and with
    repeated ids, streams, pulls, timers firing, socket data in any
    chunking, closes), a promise of [send] that is fulfilled holds a
    complete exchange: a non-empty list whose responses all carry one id,
    whose last response is terminal and whose other responses are not.
    And every entry of the routing table holds only non-terminal responses
    carrying its key. *)
Theorem fulfilled_promises_hold_exchanges :
  forall stringify parse w,
    reachable stringify parse w ->
    (forall p rs,
        promise_of p w = Some (Fulfilled rs) ->
        exists id pre last,
          rs = pre ++ [last]
          /\ Forall (fun r => response_id r = id /\ isTerminal r = false) pre
          /\ response_id last = id
          /\ isTerminal last = true)
    /\ (forall k e,
          Map_get k (pending w) = Some e ->
          Forall (fun r => response_id r = k /\ isTerminal r = false)
                 (responses e)).
Proof.
  intros stringify parse w [evs ->].
  pose proof (inv5_run stringify parse evs initial inv5_initial) as [C F].
  split.
  - intros p rs H. exact (F p rs H).
  - intros k e H. exact (C k e (Map_get_In _ _ _ H)).
Qed.

Lemma fulfilled_promises_hold_exchanges_witness :
  exists id pre last,
    four_messages = pre ++ [last]
    /\ Forall (fun r => response_id r = id /\ isTerminal r = false) pre
    /\ response_id last = id
    /\ isTerminal last = true.
Proof.
  apply (proj1 (fulfilled_promises_hold_exchanges demo_stringify demo_parse
                  (run demo_stringify demo_parse initial
                     [EvConnect (mkConnectOptions None None); EvSocketOpen 0;
                      EvSend (ping "1") DEFAULT_SEND_TIMEOUT WriteOk;
                      EvSocketData 0 four_frames])
                  (ex_intro _ _ eq_refl)) 0 four_messages).
  vm_compute. reflexivity.
Defined.

(** ** client.ts: [call] over the transport *)

(** What [call] makes of the first response of an exchange. *)
Lemma call_result_first (name : string) (first : Response)
  (rest : list Response) :
  call_result name (first :: rest)
  = match first with
    | ErrorResponse _ code message =>
        inl (SyscallError code message (Some name))
    | OkResponse _ (Some d) => inr d
    | OkResponse _ None => inr "{}"
    | ItemResponse _ d => inr d
    | _ => inl (SyscallError "EIO"
                  ("Unexpected response op: " ++ op_name (op first))
                  (Some name))
    end.
Proof. destruct first as [i [d|]|i c m|i|i d|i d|i b|i d|i d]; reflexivity. Qed.



(** ** client.ts: [iterate], [collect] and [read] *)

Section ConsumerFacts.
Variable decode_value : JsValue -> JsValue.
Variable decode_bytes : JsValue -> list Byte.byte.

Lemma iterate_one_payload (name : string) (r : Response) :
  isError r = false ->
  iterate_one decode_value name r = inr (payload decode_value r).
Proof.
  unfold iterate_one. intros ->.
  destruct r; try discriminate; reflexivity.
Qed.

Lemma iterate_clean (name : string) (pre : list Response)
  (ending : option JsError) :
  Forall (fun r => isError r = false) pre ->
  iterate decode_value name pre ending
  = (flat_map (payload decode_value) pre, ending).
Proof.
  induction 1 as [|r pre Hr _ IH]; [reflexivity|].
  cbn [iterate flat_map]. now rewrite (iterate_one_payload name r Hr), IH.
Qed.

Lemma iterate_throws (name : string) (pre post : list Response)
  (id code message : string) (ending : option JsError) :
  Forall (fun r => isError r = false) pre ->
  iterate decode_value name (pre ++ ErrorResponse id code message :: post)
    ending
  = (flat_map (payload decode_value) pre,
     Some (SyscallError code message (Some name))).
Proof.
  induction 1 as [|r pre Hr _ IH]; [reflexivity|].
  cbn [iterate flat_map app].
  now rewrite (iterate_one_payload name r Hr), IH.
Qed.

(** X17.  [iterate] hands over, in order, the data of the item responses
    and the decoded bytes of the data responses its stream yields and
    nothing else, and ends as the stream ends.  At the first error
    response it throws the remote code and message as a [SyscallError]:
    what it had handed over stays handed over, and nothing after the error
    response is looked at.  [collect] returns everything or nothing: the
    whole list when the stream ends normally without an error response,
    and otherwise only the error. *)
Theorem iterate_and_collect :
  forall name pre,
    Forall (fun r => isError r = false) pre ->
    (forall ending,
        iterate decode_value name pre ending
        = (flat_map (payload decode_value) pre, ending))
    /\ collect decode_value name pre None
       = inr (flat_map (payload decode_value) pre)
    /\ (forall err, collect decode_value name pre (Some err) = inl err)
    /\ (forall id code message post ending,
          iterate decode_value name
            (pre ++ ErrorResponse id code message :: post) ending
          = (flat_map (payload decode_value) pre,
             Some (SyscallError code message (Some name)))
          /\ collect decode_value name
               (pre ++ ErrorResponse id code message :: post) ending
             = inl (SyscallError code message (Some name))).
Proof.
  intros name pre H. split; [|split; [|split]].
  - intros ending. now apply iterate_clean.
  - unfold collect. now rewrite iterate_clean.
  - intros err. unfold collect. now rewrite iterate_clean.
  - intros id code message post ending. unfold collect.
    now rewrite iterate_throws.
Qed.

Lemma list_set_middle {A} (a : list A) (x y : A) (t : list A) :
  list_set (length a) x (a ++ y :: t) = a ++ x :: t.
Proof. induction a as [|h a IH]; simpl; auto. now rewrite IH. Qed.

Lemma write_at_middle (chunk : list Byte.byte) :
  forall a b c,
    length b = length chunk ->
    write_at (a ++ b ++ c) chunk (length a) = a ++ chunk ++ c.
Proof.
  induction chunk as [|x chunk IH]; intros a b c L.
  - destruct b; [reflexivity|discriminate].
  - destruct b as [|y b]; [discriminate|]. cbn [write_at].
    change ((y :: b) ++ c) with (y :: b ++ c).
    rewrite list_set_middle.
    replace (a ++ x :: b ++ c) with ((a ++ [x]) ++ b ++ c)
      by (now rewrite <- app_assoc).
    replace (S (length a)) with (length (a ++ [x]))
      by (rewrite length_app; simpl; lia).
    rewrite IH by (simpl in L; lia).
    now rewrite <- app_assoc.
Qed.

Lemma totalLength_concat (chunks : list (list Byte.byte)) :
  forall n,
    fold_left (fun sum chunk => sum + length chunk) chunks n
    = n + length (concat chunks).
Proof.
  induction chunks as [|c chunks IH]; intros n; simpl; [lia|].
  rewrite IH, length_app. lia.
Qed.

Lemma copy_chunks_concat (chunks : list (list Byte.byte)) :
  forall copied,
    copy_chunks chunks
      (copied ++ repeat Byte.x00 (length (concat chunks))) (length copied)
    = Some (copied ++ concat chunks).
Proof.
  induction chunks as [|c chunks IH]; intros copied.
  - simpl. now rewrite !app_nil_r.
  - cbn [copy_chunks concat]. rewrite length_app, repeat_app.
    unfold Uint8Array_set.
    assert (L : (length copied + length c
                 <=? length (copied ++ repeat Byte.x00 (length c)
                               ++ repeat Byte.x00 (length (concat chunks))))%nat
                = true).
    { apply Nat.leb_le. rewrite !length_app, !repeat_length. lia. }
    rewrite L.
    rewrite write_at_middle by apply repeat_length.
    replace (length copied + length c) with (length (copied ++ c))
      by apply length_app.
    rewrite app_assoc, IH. now rewrite <- app_assoc.
Qed.

Lemma concatenate_concat (chunks : list (list Byte.byte)) :
  concatenate chunks = Some (concat chunks).
Proof.
  unfold concatenate. rewrite totalLength_concat.
  apply (copy_chunks_concat chunks []).
Qed.

Lemma read_chunks_clean (responses : list Response) :
  forall chunks,
    Forall (fun r => isError r = false) responses ->
    read_chunks decode_bytes responses None chunks
    = inr (chunks ++ flat_map (data_chunk decode_bytes) responses)
    /\ forall err,
         read_chunks decode_bytes responses (Some err) chunks = inl err.
Proof.
  induction responses as [|r rest IH]; intros chunks H.
  - simpl. now rewrite app_nil_r.
  - apply Forall_cons_iff in H as [Hr H]. cbn [read_chunks flat_map].
    rewrite Hr.
    destruct r; try discriminate; cbn [isData op op_eqb data_chunk app];
      try apply (IH _ H).
    destruct (IH (chunks ++ [decode_bytes bytes]) H) as [E1 E2].
    split; [|exact E2]. rewrite E1. now rewrite <- app_assoc.
Qed.

Lemma read_chunks_throws (pre post : list Response)
  (id code message : string) (ending : option JsError) :
  forall chunks,
    Forall (fun r => isError r = false) pre ->
    read_chunks decode_bytes (pre ++ ErrorResponse id code message :: post)
      ending chunks
    = inl (SyscallError code message (Some "file:read")).
Proof.
  induction pre as [|r rest IH]; intros chunks H; [reflexivity|].
  apply Forall_cons_iff in H as [Hr H]. cbn [read_chunks app].
  rewrite Hr. apply IH. exact H.
Qed.

(** X18.  [read] returns the decoded bytes of the data responses of its
    stream, in order, as one array, and ignores every other response; the
    copy into the result array always fits, so it never throws a
    [RangeError].  An error response makes it throw the remote code and
    message for ["file:read"] whatever was received before, and a stream
    that ends with an error makes it throw that error. *)
Theorem read_concatenates :
  (forall chunks, concatenate chunks = Some (concat chunks))
  /\ (forall responses,
        Forall (fun r => isError r = false) responses ->
        read decode_bytes responses None
        = Some (inr (concat (flat_map (data_chunk decode_bytes) responses)))
        /\ forall err,
             read decode_bytes responses (Some err) = Some (inl err))
  /\ (forall pre id code message post ending,
        Forall (fun r => isError r = false) pre ->
        read decode_bytes (pre ++ ErrorResponse id code message :: post)
          ending
        = Some (inl (SyscallError code message (Some "file:read")))).
Proof.
  split; [exact concatenate_concat|]. split.
  - intros responses H. unfold read.
    destruct (read_chunks_clean responses [] H) as [E1 E2].
    split.
    + rewrite E1. cbn [app]. now rewrite concatenate_concat.
    + intros err. now rewrite E2.
  - intros pre id code message post ending H. unfold read.
    now rewrite read_chunks_throws.
Qed.

End ConsumerFacts.

Lemma iterate_and_collect_witness :
  collect (fun b => b) "file:readdir"
    [ItemResponse "1" "[1]"; DataResponse "1" "QQ=="; DoneResponse "1"] None
  = inr ["[1]"; "QQ=="]
  /\ collect (fun b => b) "file:readdir"
       ([ItemResponse "1" "[1]"]
        ++ ErrorResponse "1" "EIO" "failed" :: [ItemResponse "1" "[2]"]) None
     = inl (SyscallError "EIO" "failed" (Some "file:readdir")).
Proof.
  split.
  - apply (iterate_and_collect (fun b => b) "file:readdir"
             [ItemResponse "1" "[1]"; DataResponse "1" "QQ==";
              DoneResponse "1"]).
    repeat constructor.
  - apply (iterate_and_collect (fun b => b) "file:readdir"
             [ItemResponse "1" "[1]"]).
    repeat constructor.
Defined.

Lemma read_concatenates_witness :
  read list_byte_of_string
    [DataResponse "1" "ab"; ProgressResponse "1" None; DataResponse "1" "c";
     DoneResponse "1"] None
  = Some (inr (list_byte_of_string "abc")).
Proof.
  apply (proj1 (proj2 (read_concatenates list_byte_of_string))
           [DataResponse "1" "ab"; ProgressResponse "1" None;
            DataResponse "1" "c"; DoneResponse "1"]).
  repeat constructor.
Defined.

(** ** client.ts: [exists] *)

(** X19.  [exists] answers [false] in one case only: the first response to
    its [file:stat] is an error response with code [ENOENT].  A first
    response that is an [ok] or an item makes it answer [true]; every
    other failure of the call is thrown on: another remote code, an
    unexpected first response, and the connection and timeout errors of
    the transport, which never read as "does not exist". *)
Theorem exists_false_only_for_ENOENT :
  (forall responses,
      exists_result (call_result "file:stat" responses) = inr false
      <-> exists id message rest,
            responses = ErrorResponse id "ENOENT" message :: rest)
  /\ (forall first rest,
        isOk first || isItem first = true ->
        exists_result (call_result "file:stat" (first :: rest)) = inr true)
  /\ (forall err,
        (forall message syscall,
            err <> SyscallError "ENOENT" message syscall) ->
        exists_result (inl err) = inl err)
  /\ (forall e,
        is_transport_error e = true ->
        option_map exists_result
          (call_outcome "file:stat" (Some (Rejected e)))
        = Some (inl e)).
Proof.
  split; [|split; [|split]].
  - intros responses. split.
    + destruct responses as [|first rest]; [discriminate|].
      rewrite call_result_first.
      destruct first as [i [d|]|i c m|i|i d|i d|i b|i d|i d];
        cbn [exists_result]; try discriminate.
      destruct (String.eqb_spec c "ENOENT") as [->|N]; [|discriminate].
      intros _. eauto.
    + intros (id & message & rest & ->). reflexivity.
  - intros first rest H. rewrite call_result_first.
    destruct first as [i [d|]|i c m|i|i d|i d|i b|i d|i d];
      try discriminate; reflexivity.
  - intros err N. destruct err as [c m sc| | |]; try reflexivity.
    cbn [exists_result].
    destruct (String.eqb_spec c "ENOENT") as [->|_]; [|reflexivity].
    destruct (N m sc eq_refl).
  - intros e H. cbn [call_outcome option_map].
    destruct e; try discriminate; reflexivity.
Qed.

Lemma exists_false_only_for_ENOENT_witness :
  exists_result
    (call_result "file:stat" [OkResponse "1" (Some "{}")]) = inr true
  /\ option_map exists_result
       (call_outcome "file:stat" (Some (Rejected connection_closed)))
     = Some (inl connection_closed).
Proof.
  destruct exists_false_only_for_ENOENT as (_ & H2 & _ & H3).
  split.
  - apply H2. reflexivity.
  - apply (H3 connection_closed). reflexivity.
Defined.

(** ** transport.ts: receiving *)

Lemma dispatch_passive (m : Response) (w : World) :
  state (dispatch m w) = state w
  /\ socket (dispatch m w) = socket w
  /\ trace (dispatch m w) = trace w
  /\ attempts (dispatch m w) = attempts w.
Proof.
  destruct (dispatch_cases m w) as [-> | [s ->]].
  - unfold onResponse, resolve_entry, promise_resolve.
    destruct (Map_get (response_id m) (pending w)) as [e|]; auto.
    destruct (isTerminal m); auto. cbn [sink timer].
    destruct (sink e); destruct (timer e); repeat split.
  - unfold update_stream. destruct (nth_error (streams w) s); auto.
Qed.

Lemma deliver_passive (msgs : list Response) :
  forall w,
    state (deliver msgs w) = state w
    /\ socket (deliver msgs w) = socket w
    /\ trace (deliver msgs w) = trace w
    /\ attempts (deliver msgs w) = attempts w
    /\ nextId (deliver msgs w) = nextId w.
Proof.
  induction msgs as [|m msgs IH]; intros w; [repeat split|].
  cbn [deliver fold_left].
  destruct (IH (dispatch m w)) as (A & B & C & D & E).
  destruct (dispatch_passive m w) as (A' & B' & C' & D').
  unfold deliver in *. rewrite A, B, C, D, E, A', B', C', D'.
  repeat split. apply dispatch_nextId.
Qed.

(** X20.  Receiving is passive.  Whatever bytes arrive on a socket, in
    whatever chunks, handling them writes nothing to the socket and does
    not end it, leaves the connection state, the socket and the id counter
    as they were, and changes no promise that is already settled: incoming
    data can complete exchanges, and nothing else. *)
Theorem receiving_is_passive :
  forall parse a chunk w,
    let w' := socket_data parse a chunk w in
    state w' = state w
    /\ socket w' = socket w
    /\ trace w' = trace w
    /\ nextId w' = nextId w
    /\ length (attempts w') = length (attempts w)
    /\ (forall q x,
          promise_of q w = Some x -> x <> Pending ->
          promise_of q w' = Some x).
Proof.
  intros parse a chunk w w'. unfold w', socket_data.
  destruct (nth_error (attempts w) a) as [x|] eqn:Ha; [|repeat split; auto].
  destruct (onData_total parse (a_data x) chunk w)
    as (frames & rest & _ & _ & _ & ->).
  destruct (deliver_passive (messages parse frames) w) as (A & B & C & D & E).
  unfold update_attempt. rewrite D, Ha.
  cbn [state socket trace nextId attempts set_attempts].
  rewrite A, B, C, E, list_set_length.
  repeat split.
  intros q y Hq Hy. unfold promise_of. cbn [promises set_attempts].
  now apply deliver_settled.
Qed.

Lemma receiving_is_passive_witness :
  trace (socket_data demo_parse 0 four_frames sent1) = trace sent1
  /\ promise_of 0
       (socket_data demo_parse 0 (frame_ok "1" ++ nl)%string
          (socket_data demo_parse 0 four_frames sent1))
     = Some (Fulfilled four_messages).
Proof.
  split.
  - apply (receiving_is_passive demo_parse 0 four_frames sent1).
  - apply (receiving_is_passive demo_parse 0 (frame_ok "1" ++ nl)%string
             (socket_data demo_parse 0 four_frames sent1)).
    + vm_compute. reflexivity.
    + discriminate.
Defined.

(** ** Request timers, in every reachable world *)










Section TimerSteps.
Variable stringify : Request -> string.
Variable parse : string -> option Response.






























End TimerSteps.



